(** * A shallow embedding of the mini DOM of [src/my-mini-dom.js]

    The development covers the two parts of the program that carry its
    algorithmic content: the structural mutations of [Node] (appendChild,
    insertBefore, removeChild, replaceChild) and the three-phase dispatcher
    of [EventTarget] (dispatchEvent and its helpers), together with the
    [Event] value object.

    Objects live in a store indexed by references; every method takes its
    receiver [this] as a reference and threads the store.  A JavaScript
    [throw] is the [Throw] outcome of a state-and-exception monad, so that
    the store reached at the moment of the throw stays observable.

    A registry is a plain object, so that reading it at an event type
    that names a property of [Object.prototype] ("constructor",
    "toString", ...) finds the inherited property where the code expects
    an array or nothing; the model has this case, in which the engine
    raises a TypeError.

    Scope of the model:
    - event types are strings, and [Object.prototype] has the properties
      of the standard and no other;
    - the [capture] and [once] options are booleans when they are given;
    - a listener returns or throws: its body is a total function, and a
      listener that loops for ever is outside the model;
    - a listener acts on the event it receives through stopPropagation,
      stopImmediatePropagation and preventDefault only; it neither assigns
      the fields of the event nor dispatches that same event again.  Any
      other effect of a listener, nested dispatches of other events
      included, is an arbitrary change of the store.

    The later sections add the rest of [Node] (navigation between
    siblings, contains, textContent, cloneNode), the attributes, classes,
    selectors and queries of [Element], and the queries of [Document].
    Scope of that part:
    - a string has code units below 256, as every ASCII string has; the
      case conversions of the engine are parameters;
    - attribute names, attribute values, class names, ids and selectors
      are strings;
    - no global variable is named [claases];
    - a recursion of the source that never returns is a recursion that
      exceeds every bound. *)

From Stdlib Require Import ZArith.
From stdpp Require Import base gmap strings functions list.

Open Scope Z_scope.

(** ** The state-and-exception monad *)

(** A thrown JavaScript value: an [Error] object carrying its message, a
    TypeError of the engine, of which the model keeps the operation that
    failed ([push] or [filter] on a value that has no such method, the
    spread of a value that is not iterable), or any other value thrown by
    client code. *)
Inductive exn : Type :=
  | JsError (message : string)
  | TypeError (operation : string)
  | Thrown (payload : nat).

Inductive result (A : Type) : Type :=
  | Ok (a : A)
  | Throw (e : exn).
Arguments Ok {A} a.
Arguments Throw {A} e.

Definition M (S A : Type) : Type := S → result A * S.

Definition ret {S A} (a : A) : M S A := λ s, (Ok a, s).
Definition throw {S A} (e : exn) : M S A := λ s, (Throw e, s).
Definition bind {S A B} (m : M S A) (k : A → M S B) : M S B :=
  λ s, match m s with
       | (Ok a, s') => k a s'
       | (Throw e, s') => (Throw e, s')
       end.
Definition get {S} : M S S := λ s, (Ok s, s).
Definition modify {S} (f : S → S) : M S unit := λ s, (Ok tt, f s).
(** [try { m } catch (e) { handler e }] *)
Definition try_catch {S A} (m : M S A) (handler : exn → M S A) : M S A :=
  λ s, match m s with
       | (Ok a, s') => (Ok a, s')
       | (Throw e, s') => handler e s'
       end.

Declare Scope js_scope.
Delimit Scope js_scope with js.
Notation "x <- m ;; k" := (bind m (λ x, k))
  (at level 100, m at next level, k at level 200, only parsing) : js_scope.
Notation "m ;; k" := (bind m (λ _, k))
  (at level 100, k at level 200, only parsing) : js_scope.
Open Scope js_scope.

(** ** Objects *)

(** References.  [===] on objects and on functions is equality of
    references. *)
Definition node := nat.
Definition callback := nat.

(** The object literal [{ listener, capture, once }] pushed by
    addEventListener. *)
Record entry : Type := Entry {
  listener : callback;
  capture : bool;
  once : bool
}.

Global Instance entry_eq_dec : EqDecision entry.
Proof. solve_decision. Defined.

(** The fields of an EventTarget / Node object that the mutations and the
    dispatcher read or write.  A bare EventTarget has no [parentNode]
    property: reading it gives [undefined], which the dispatcher treats
    like [null]; both are [None].  [_listeners] is the object used as a map
    from event type to the array of entries; a type never registered is
    absent ([undefined]), which differs from the empty array. *)
Record NodeObj : Type := {
  _listeners : gmap string (list entry);
  parentNode : option node;
  childNodes : list node
}.

Abbreviation Heap := (node → NodeObj).

Definition with_parentNode (p : option node) (o : NodeObj) : NodeObj :=
  {| _listeners := _listeners o; parentNode := p; childNodes := childNodes o |}.
Definition with_childNodes (l : list node) (o : NodeObj) : NodeObj :=
  {| _listeners := _listeners o; parentNode := parentNode o; childNodes := l |}.
Definition with_listeners (m : gmap string (list entry)) (o : NodeObj) : NodeObj :=
  {| _listeners := m; parentNode := parentNode o; childNodes := childNodes o |}.

(** [n.parentNode = p] and [n.childNodes = l] as store updates. *)
Definition set_parentNode (n : node) (p : option node) : M Heap unit :=
  modify (λ h, <[n := with_parentNode p (h n)]> h).
Definition set_childNodes (n : node) (l : list node) : M Heap unit :=
  modify (λ h, <[n := with_childNodes l (h n)]> h).

(** ** Array primitives used by the mutations *)

(** [l.indexOf(x)]: the first index holding [x], or [-1]. *)
Fixpoint indexOf (l : list node) (x : node) : Z :=
  match l with
  | [] => -1
  | y :: l' =>
      if decide (y = x) then 0
      else let i := indexOf l' x in if i =? -1 then -1 else i + 1
  end.

(** [l.splice(index, 1)], [l.splice(index, 0, x)] and [l[index] = x] for
    an index that is not negative (every call site has excluded [-1]).
    Assigning at [index = l.length] extends the array by one.  A larger
    index would leave holes; replaceChild never produces one, its index
    being that of an element of the array before at most one removal. *)
Definition splice_remove (index : Z) (l : list node) : list node :=
  take (Z.to_nat index) l ++ drop (S (Z.to_nat index)) l.
Definition splice_insert (index : Z) (x : node) (l : list node) : list node :=
  take (Z.to_nat index) l ++ x :: drop (Z.to_nat index) l.
Definition array_set (index : Z) (x : node) (l : list node) : list node :=
  take (Z.to_nat index) l ++ x :: drop (S (Z.to_nat index)) l.

(** ** Node: structural mutations *)

Definition removeChild (this child : node) : M Heap node :=
  h <- get ;;
  let index := indexOf (childNodes (h this)) child in
  if index =? -1 then throw (JsError "Node not found")
  else
    set_parentNode child None ;;
    h <- get ;;
    set_childNodes this (splice_remove index (childNodes (h this))) ;;
    ret child.

(** [if (x.parentNode) { x.parentNode.removeChild(x); }] *)
Definition detach (x : node) : M Heap unit :=
  h <- get ;;
  match parentNode (h x) with
  | Some p => removeChild p x ;; ret tt
  | None => ret tt
  end.

Definition appendChild (this child : node) : M Heap node :=
  detach child ;;
  set_parentNode child (Some this) ;;
  h <- get ;;
  set_childNodes this (childNodes (h this) ++ [child]) ;;
  ret child.

(** [referenceNode] may be [null]: the call then behaves as appendChild. *)
Definition insertBefore (this newNode : node) (referenceNode : option node)
  : M Heap node :=
  match referenceNode with
  | None => appendChild this newNode
  | Some ref =>
      h <- get ;;
      let index := indexOf (childNodes (h this)) ref in
      if index =? -1 then throw (JsError "Reference node not found")
      else
        detach newNode ;;
        set_parentNode newNode (Some this) ;;
        h <- get ;;
        set_childNodes this (splice_insert index newNode (childNodes (h this))) ;;
        ret newNode
  end.

Definition replaceChild (this newChild oldChild : node) : M Heap node :=
  h <- get ;;
  let index := indexOf (childNodes (h this)) oldChild in
  if index =? -1 then throw (JsError "Node not Found")
  else
    detach newChild ;;
    set_parentNode oldChild None ;;
    set_parentNode newChild (Some this) ;;
    h <- get ;;
    set_childNodes this (array_set index newChild (childNodes (h this))) ;;
    ret oldChild.

(** ** Event *)

Definition NONE : Z := 0.
Definition CAPTURING_PHASE : Z := 1.
Definition AT_TARGET : Z := 2.
Definition BUBBLING_PHASE : Z := 3.

Record Event : Type := {
  type : string;
  bubbles : bool;
  cancelable : bool;
  timeStamp : Z;
  _target : option node;
  _currentTarget : option node;
  _phase : Z;
  _propagationStopped : bool;
  _immediatePropagationStopped : bool;
  defaultPrevented : bool
}.

(** The [options] argument of the constructor: an object whose [bubbles]
    and [cancelable] properties may be missing. *)
Record EventInit : Type := {
  init_bubbles : option bool;
  init_cancelable : option bool
}.

(** [new Event(type, options)]; [now] is the value of [Date.now()]. *)
Definition new_Event (ty : string) (options : EventInit) (now : Z) : Event :=
  {| type := ty;
     bubbles := default false (init_bubbles options);
     cancelable := default false (init_cancelable options);
     timeStamp := now;
     _target := None;
     _currentTarget := None;
     _phase := NONE;
     _propagationStopped := false;
     _immediatePropagationStopped := false;
     defaultPrevented := false |}.

Definition set_target (t : option node) (e : Event) : Event :=
  {| type := type e; bubbles := bubbles e; cancelable := cancelable e;
     timeStamp := timeStamp e; _target := t;
     _currentTarget := _currentTarget e; _phase := _phase e;
     _propagationStopped := _propagationStopped e;
     _immediatePropagationStopped := _immediatePropagationStopped e;
     defaultPrevented := defaultPrevented e |}.
Definition set_currentTarget (t : option node) (e : Event) : Event :=
  {| type := type e; bubbles := bubbles e; cancelable := cancelable e;
     timeStamp := timeStamp e; _target := _target e;
     _currentTarget := t; _phase := _phase e;
     _propagationStopped := _propagationStopped e;
     _immediatePropagationStopped := _immediatePropagationStopped e;
     defaultPrevented := defaultPrevented e |}.
Definition set_phase (ph : Z) (e : Event) : Event :=
  {| type := type e; bubbles := bubbles e; cancelable := cancelable e;
     timeStamp := timeStamp e; _target := _target e;
     _currentTarget := _currentTarget e; _phase := ph;
     _propagationStopped := _propagationStopped e;
     _immediatePropagationStopped := _immediatePropagationStopped e;
     defaultPrevented := defaultPrevented e |}.

Definition stopPropagation (e : Event) : Event :=
  {| type := type e; bubbles := bubbles e; cancelable := cancelable e;
     timeStamp := timeStamp e; _target := _target e;
     _currentTarget := _currentTarget e; _phase := _phase e;
     _propagationStopped := true;
     _immediatePropagationStopped := _immediatePropagationStopped e;
     defaultPrevented := defaultPrevented e |}.
Definition stopImmediatePropagation (e : Event) : Event :=
  {| type := type e; bubbles := bubbles e; cancelable := cancelable e;
     timeStamp := timeStamp e; _target := _target e;
     _currentTarget := _currentTarget e; _phase := _phase e;
     _propagationStopped := true;
     _immediatePropagationStopped := true;
     defaultPrevented := defaultPrevented e |}.
Definition preventDefault (e : Event) : Event :=
  if cancelable e then
    {| type := type e; bubbles := bubbles e; cancelable := cancelable e;
       timeStamp := timeStamp e; _target := _target e;
       _currentTarget := _currentTarget e; _phase := _phase e;
       _propagationStopped := _propagationStopped e;
       _immediatePropagationStopped := _immediatePropagationStopped e;
       defaultPrevented := true |}
  else e.

(** ** EventTarget: the listener registry *)

(** The [options] argument of addEventListener / removeEventListener: a
    boolean, or an object whose [capture] and [once] may be missing. *)
Inductive Options : Type :=
  | OptBool (b : bool)
  | OptObj (capture_opt once_opt : option bool).

(** [typeof options === "boolean" ? options : options.capture || false] *)
Definition options_capture (options : Options) : bool :=
  match options with
  | OptBool b => b
  | OptObj c _ => default false c
  end.
(** [options.once || false]; a boolean has no [once] property. *)
Definition options_once (options : Options) : bool :=
  match options with
  | OptBool _ => false
  | OptObj _ o => default false o
  end.

Definition set_listeners (n : node) (ty : string) (l : list entry) : M Heap unit :=
  modify (λ h, <[n := with_listeners (<[ty := l]> (_listeners (h n))) (h n)]> h).

(** The names of the properties of [Object.prototype], which every plain
    object inherits: the registry [{}] of an EventTarget has them too.
    Their values are functions, and the prototype object itself for
    [__proto__]: all of them truthy, none an array, none iterable. *)
Definition Object_prototype : list string :=
  ["constructor"; "hasOwnProperty"; "isPrototypeOf"; "propertyIsEnumerable";
   "toLocaleString"; "toString"; "valueOf"; "__proto__";
   "__defineGetter__"; "__defineSetter__"; "__lookupGetter__";
   "__lookupSetter__"].

(** An event type that names no property of [Object.prototype]. *)
Definition ordinary (ty : string) : Prop := ty ∉ Object_prototype.

Global Instance ordinary_dec (ty : string) : Decision (ordinary ty).
Proof. unfold ordinary. apply _. Defined.

(** What [this._listeners[type]] evaluates to: the array that the
    registry holds for the type as a property of its own; failing that,
    the property inherited from [Object.prototype] when the type names
    one; [undefined] otherwise. *)
Inductive Slot : Type :=
  | Own (listeners : list entry)
  | Inherited
  | Undefined.

Definition listeners_at (o : NodeObj) (ty : string) : Slot :=
  match _listeners o !! ty with
  | Some l => Own l
  | None => if decide (ty ∈ Object_prototype) then Inherited else Undefined
  end.

(** An inherited property is truthy, so that the registry is not
    initialised for its name, and has no [push]. *)
Definition addEventListener (this : node) (ty : string) (f : callback)
    (options : Options) : M Heap unit :=
  h <- get ;;
  match listeners_at (h this) ty with
  | Undefined => set_listeners this ty []
  | _ => ret tt
  end ;;
  let capture := options_capture options in
  let once := options_once options in
  h <- get ;;
  match listeners_at (h this) ty with
  | Own l => set_listeners this ty (l ++ [Entry f capture once])
  | _ => throw (TypeError "push")
  end.

(** An inherited property passes the test [!this._listeners[type]] and
    has no [filter]. *)
Definition removeEventListener (this : node) (ty : string) (f : callback)
    (options : Options) : M Heap unit :=
  h <- get ;;
  match listeners_at (h this) ty with
  | Undefined => ret tt
  | Inherited => throw (TypeError "filter")
  | Own l =>
      let capture0 := options_capture options in
      set_listeners this ty
        (filter (λ en, ¬ (listener en = f ∧ capture en = capture0)) l)
  end.

(** ** Listener bodies

    A listener is client code.  It runs with [this] bound to the node whose
    registry holds it and receives the event object.  Its body may read the
    event and the store, may change the store in any way (the tree, the
    registries of any node, nested dispatches of other events, ...), may
    call the three methods of the event any number of times, and may end by
    throwing.  It acts on the event through those methods only, the fields
    with a leading underscore being private to the dispatcher.  A body is
    therefore a function from what it can read to an [Outcome]. *)

Inductive EventCall : Type :=
  | CallStopPropagation
  | CallStopImmediatePropagation
  | CallPreventDefault.

Global Instance EventCall_eq_dec : EqDecision EventCall.
Proof. solve_decision. Defined.

Definition apply_call (e : Event) (c : EventCall) : Event :=
  match c with
  | CallStopPropagation => stopPropagation e
  | CallStopImmediatePropagation => stopImmediatePropagation e
  | CallPreventDefault => preventDefault e
  end.

Record Outcome : Type := {
  out_heap : Heap;
  out_calls : list EventCall;
  out_throw : option exn
}.

Abbreviation Bodies := (callback → node → Event → Heap → Outcome).

(** One record per callback invocation, in the order of the calls: the
    receiver, [event.eventPhase] at the time of the call, the entry whose
    callback ran, the event methods it called and what it threw. *)
Record Invocation : Type := {
  inv_this : node;
  inv_phase : Z;
  inv_entry : entry;
  inv_calls : list EventCall;
  inv_throw : option exn
}.

(** The state of a dispatch: the store, the contents of the event object
    being dispatched, what was written with [console.error], and the
    record of the invocations made so far. *)
Record State : Type := {
  heap : Heap;
  event : Event;
  console : list (string * exn);
  trace : list Invocation
}.

Definition with_heap (h : Heap) (s : State) : State :=
  {| heap := h; event := event s; console := console s; trace := trace s |}.
Definition with_event (e : Event) (s : State) : State :=
  {| heap := heap s; event := e; console := console s; trace := trace s |}.

(** Run a store operation inside a dispatch. *)
Definition on_heap {A} (m : M Heap A) : M State A :=
  λ s, let (r, h') := m (heap s) in (r, with_heap h' s).
Definition update_event (f : Event → Event) : M State unit :=
  modify (λ s, with_event (f (event s)) s).
Definition console_error (msg : string) (e : exn) : M State unit :=
  modify (λ s, {| heap := heap s; event := event s;
                  console := console s ++ [(msg, e)]; trace := trace s |}).

(** ** Loops *)

Inductive ctl : Type := Continue | Break.

(** [for (const x of l) { body }], the body ending the iteration with
    [continue] (or by reaching its end) or with [break]. *)
Fixpoint for_of {S A} (l : list A) (body : A → M S ctl) : M S unit :=
  match l with
  | [] => ret tt
  | x :: l' =>
      c <- body x ;;
      match c with
      | Break => ret tt
      | Continue => for_of l' body
      end
  end.

(** [while (current) { path.unshift(current); current = current.parentNode; }]
    with a bound on the number of iterations; [None] when the bound is hit
    (on a cyclic parent chain the source loop does not end). *)
Fixpoint path_loop (fuel : nat) (h : Heap) (current : option node)
    (path : list node) : option (list node) :=
  match current with
  | None => Some path
  | Some c =>
      match fuel with
      | O => None
      | S fuel' => path_loop fuel' h (parentNode (h c)) (c :: path)
      end
  end.

(** ** EventTarget: the dispatcher *)

Section Dispatcher.

Variable bodies : Bodies.

(** [entry.listener.call(this, event)] *)
Definition call_listener (this : node) (en : entry) : M State unit :=
  λ s,
    let o := bodies (listener en) this (event s) (heap s) in
    let s' :=
      {| heap := out_heap o;
         event := foldl apply_call (event s) (out_calls o);
         console := console s;
         trace := trace s ++
           [{| inv_this := this; inv_phase := _phase (event s);
               inv_entry := en; inv_calls := out_calls o;
               inv_throw := out_throw o |}] |} in
    match out_throw o with
    | Some x => (Throw x, s')
    | None => (Ok tt, s')
    end.

Definition _executeListner (this : node) (en : entry) : M State unit :=
  (if once en then
     s <- get ;;
     on_heap (removeEventListener this (type (event s)) (listener en)
                (OptObj (Some (capture en)) None))
   else ret tt) ;;
  try_catch (call_listener this en)
    (λ e, console_error "Error in event listener:" e).

(** [[...listeners]] on an inherited property, which is not iterable,
    is a TypeError. *)
Definition _invokeListeners (this : node) (forCapture : bool) : M State unit :=
  s <- get ;;
  match listeners_at (heap s this) (type (event s)) with
  | Undefined => ret tt
  | Inherited => throw (TypeError "spread")
  | Own listeners =>
      for_of listeners (λ en,
        if negb (eqb (capture en) forCapture) then ret Continue
        else
          _executeListner this en ;;
          s <- get ;;
          if _immediatePropagationStopped (event s) then ret Break
          else ret Continue)
  end.

Definition _invokeListenersAtTarget (this : node) : M State unit :=
  s <- get ;;
  match listeners_at (heap s this) (type (event s)) with
  | Undefined => ret tt
  | Inherited => throw (TypeError "spread")
  | Own listeners =>
      for_of listeners (λ en,
        _executeListner this en ;;
        s <- get ;;
        if _immediatePropagationStopped (event s) then ret Break
        else ret Continue)
  end.

(** The body of dispatchEvent after the path has been collected.  The two
    index loops run over [path[0 .. length-2]], upwards and downwards. *)
Definition dispatch_phases (this : node) (path : list node) : M State bool :=
  update_event (set_phase CAPTURING_PHASE) ;;
  for_of (take (length path - 1) path) (λ n,
    s <- get ;;
    if _propagationStopped (event s) then ret Break
    else
      update_event (set_currentTarget (Some n)) ;;
      _invokeListeners n true ;;
      ret Continue) ;;
  s <- get ;;
  (if negb (_propagationStopped (event s)) then
     update_event (set_phase AT_TARGET) ;;
     update_event (set_currentTarget (Some this)) ;;
     _invokeListenersAtTarget this
   else ret tt) ;;
  s <- get ;;
  (if negb (_propagationStopped (event s)) && bubbles (event s) then
     update_event (set_phase BUBBLING_PHASE) ;;
     for_of (reverse (take (length path - 1) path)) (λ n,
       s <- get ;;
       if _propagationStopped (event s) then ret Break
       else
         update_event (set_currentTarget (Some n)) ;;
         _invokeListeners n false ;;
         ret Continue)
   else ret tt) ;;
  s <- get ;;
  ret (negb (defaultPrevented (event s))).

(** [this.dispatchEvent(event)], the event's contents being [event s].
    [None]: the path loop did not end within [fuel] iterations. *)
Definition dispatchEvent (fuel : nat) (this : node) (s : State)
  : option (result bool * State) :=
  let s1 := with_event (set_target (Some this) (event s)) s in
  match path_loop fuel (heap s1) (Some this) [] with
  | None => None
  | Some path => Some (dispatch_phases this path s1)
  end.

End Dispatcher.

(** A dispatch of event [e] on the store [h], started with an empty
    console and an empty record of invocations. *)
Definition dispatch (bodies : Bodies) (fuel : nat) (this : node) (e : Event)
    (h : Heap) : option (result bool * State) :=
  dispatchEvent bodies fuel this
    {| heap := h; event := e; console := []; trace := [] |}.

(** ** Tree invariants *)

(** [rooted h n]: following [parentNode] from [n] reaches a node without
    parent after finitely many steps. *)
Inductive rooted (h : Heap) : node → Prop :=
  | rooted_root n : parentNode (h n) = None → rooted h n
  | rooted_step n p : parentNode (h n) = Some p → rooted h p → rooted h n.

(** [ancestor_or_self h a n]: [a] is [n] or lies on the parent chain of [n]. *)
Inductive ancestor_or_self (h : Heap) (a : node) : node → Prop :=
  | aos_self : ancestor_or_self h a a
  | aos_step n p :
      parentNode (h n) = Some p → ancestor_or_self h a p →
      ancestor_or_self h a n.

Record well_formed (h : Heap) : Prop := {
  (* no node is a child of two parents *)
  wf_single_parent : ∀ c p q,
    c ∈ childNodes (h p) → c ∈ childNodes (h q) → p = q;
  (* both sides of the parent / child relation agree *)
  wf_agree : ∀ p c, c ∈ childNodes (h p) ↔ parentNode (h c) = Some p;
  (* a node occurs at most once among the children of its parent *)
  wf_distinct : ∀ p, NoDup (childNodes (h p));
  (* the parent relation has no cycle *)
  wf_acyclic : ∀ n, rooted h n
}.

(** The store in which no node has a parent, a child or a listener: what
    the constructors produce. *)
Definition fresh_heap : Heap :=
  λ _, {| _listeners := ∅; parentNode := None; childNodes := [] |}.

(** Two stores used as concrete inputs: node 0 with the single child 1,
    and node 0 with the children 1 and 2. *)
Definition heap_0_1 : Heap := snd (appendChild 0%nat 1%nat fresh_heap).
Definition heap_0_12 : Heap := snd (appendChild 0%nat 2%nat heap_0_1).

(** The store left by [0.appendChild(1); 1.appendChild(0)]: each of the
    two nodes is the parent of the other. *)
Definition heap_cycle : Heap := snd (appendChild 1%nat 0%nat heap_0_1).

(** ** Notions used to state the properties of a dispatch *)

(** The registrations of node [n] for event type [ty]: the array that
    the registry holds for the type; a type never registered has none. *)
Definition regs (h : Heap) (n : node) (ty : string) : list entry :=
  default [] (_listeners (h n) !! ty).

Definition calls_stop (i : Invocation) : Prop :=
  CallStopPropagation ∈ inv_calls i ∨
  CallStopImmediatePropagation ∈ inv_calls i.
Definition calls_stop_immediate (i : Invocation) : Prop :=
  CallStopImmediatePropagation ∈ inv_calls i.

(** What a record of invocations says about who ran: receiver, phase and
    entry of each call. *)
Definition key_of (i : Invocation) : node * Z * entry :=
  (inv_this i, inv_phase i, inv_entry i).

(** The lines written by [console.error] for the invocations that threw. *)
Definition reported (items : list Invocation) : list (string * exn) :=
  omap (λ i, (λ x, ("Error in event listener:", x)) <$> inv_throw i) items.

(** How the event object may differ between two moments of a dispatch:
    the configuration is fixed, the three flags only go from false to
    true, and [defaultPrevented] moves only on a cancelable event. *)
Record evolves (e e' : Event) : Prop := {
  ev_type : type e' = type e;
  ev_bubbles : bubbles e' = bubbles e;
  ev_cancelable : cancelable e' = cancelable e;
  ev_timeStamp : timeStamp e' = timeStamp e;
  ev_target : _target e' = _target e;
  ev_stopped :
    _propagationStopped e = true → _propagationStopped e' = true;
  ev_immediate :
    _immediatePropagationStopped e = true →
    _immediatePropagationStopped e' = true;
  ev_prevented : defaultPrevented e = true → defaultPrevented e' = true;
  ev_not_cancelable :
    cancelable e = false → defaultPrevented e' = defaultPrevented e
}.

(** A stop made of one node visited in one phase.  [slot_capture] is the
    capture flag required of the entries invoked there, if any is. *)
Record slot : Type := {
  slot_node : node;
  slot_phase : Z;
  slot_capture : option bool
}.

Definition in_slot (k : slot) (i : Invocation) : Prop :=
  inv_this i = slot_node k ∧ inv_phase i = slot_phase k ∧
  ∀ c, slot_capture k = Some c → capture (inv_entry i) = c.

(** [follows sched items]: the invocations split into consecutive runs,
    one per stop of the schedule and in its order; within a run nothing
    comes after an invocation that called stopImmediatePropagation, and
    after a run in which some invocation called stopPropagation or
    stopImmediatePropagation there is nothing at all. *)
Fixpoint follows (sched : list slot) (items : list Invocation) : Prop :=
  match sched with
  | [] => items = []
  | k :: sched' =>
      ∃ run rest,
        items = run ++ rest ∧
        Forall (in_slot k) run ∧
        (∀ pre i post, run = pre ++ i :: post →
                       calls_stop_immediate i → post = []) ∧
        (Exists calls_stop run → rest = []) ∧
        follows sched' rest
  end.

(** The stops of a dispatch on [this] along [path]: the proper ancestors
    downwards in the capturing phase, the target, and for a bubbling event
    the proper ancestors upwards. *)
Definition schedule (this : node) (path : list node) (bubbling : bool)
  : list slot :=
  ((λ n, {| slot_node := n; slot_phase := CAPTURING_PHASE;
             slot_capture := Some true |})
     <$> take (length path - 1) path) ++
  [{| slot_node := this; slot_phase := AT_TARGET; slot_capture := None |}] ++
  (if bubbling then
     (λ n, {| slot_node := n; slot_phase := BUBBLING_PHASE;
               slot_capture := Some false |})
       <$> reverse (take (length path - 1) path)
   else []).

(** Listener bodies that leave every registry as it is and call neither
    stopPropagation nor stopImmediatePropagation.  They may still change
    the tree, call preventDefault and throw. *)
Definition passive (bodies : Bodies) : Prop :=
  ∀ f this e h,
    (∀ n, _listeners (out_heap (bodies f this e h) n) = _listeners (h n)) ∧
    (CallStopPropagation ∉ out_calls (bodies f this e h)) ∧
    (CallStopImmediatePropagation ∉ out_calls (bodies f this e h)).

(** What is left of the registrations [l] once the entries [fired] have
    been executed in this order: each one-shot entry takes with it every
    registration of the same callback with the same capture flag. *)
Fixpoint prune (fired : list entry) (l : list entry) : list entry :=
  match fired with
  | [] => l
  | en :: fired' =>
      prune fired'
        (if once en
         then filter (λ x, ¬ (listener x = listener en ∧
                              capture x = capture en)) l
         else l)
  end.

(** The state reached by [_executeListner this en], in closed form
    (lemma [executeListner_fire]). *)
Definition fire (bodies : Bodies) (this : node) (en : entry) (s : State)
  : State :=
  let h1 :=
    if once en
    then snd (removeEventListener this (type (event s)) (listener en)
                (OptObj (Some (capture en)) None) (heap s))
    else heap s in
  let o := bodies (listener en) this (event s) h1 in
  {| heap := out_heap o;
     event := foldl apply_call (event s) (out_calls o);
     console := console s ++
       match out_throw o with
       | Some x => [("Error in event listener:", x)]
       | None => []
       end;
     trace := trace s ++
       [{| inv_this := this; inv_phase := _phase (event s);
           inv_entry := en; inv_calls := out_calls o;
           inv_throw := out_throw o |}] |}.

(** The loop of _invokeListeners and of _invokeListenersAtTarget over a
    snapshot, [sel] telling the entries that are not skipped. *)
Definition entries_loop (bodies : Bodies) (this : node) (sel : entry → bool)
    (snapshot : list entry) : M State unit :=
  for_of snapshot (λ en,
    if negb (sel en) then ret Continue
    else
      _executeListner bodies this en ;;
      s <- get ;;
      if _immediatePropagationStopped (event s) then ret Break
      else ret Continue).

(** What one visit of a node yields: [items] are the invocations made
    between the states [s] and [s'], [eligible] the entries of the
    snapshot that the visit does not skip. *)
Record run_of (this : node) (eligible : list entry) (s s' : State)
    (items : list Invocation) : Prop := {
  run_trace : trace s' = trace s ++ items;
  run_console : console s' = console s ++ reported items;
  run_prefix : (inv_entry <$> items) `prefix_of` eligible;
  run_where :
    Forall (λ i, inv_this i = this ∧ inv_phase i = _phase (event s)) items;
  run_all :
    _immediatePropagationStopped (event s') = false →
    inv_entry <$> items = eligible;
  run_last :
    ∀ pre i post, items = pre ++ i :: post →
                  calls_stop_immediate i → post = [];
  run_not_stopped :
    _propagationStopped (event s') = false →
    Forall (λ i, ¬ calls_stop i) items;
  run_not_immediate :
    _immediatePropagationStopped (event s) = false →
    Forall (λ i, ¬ calls_stop_immediate i) items →
    _immediatePropagationStopped (event s') = false;
  run_evolves : evolves (event s) (event s');
  run_phase : _phase (event s') = _phase (event s);
  run_currentTarget : _currentTarget (event s') = _currentTarget (event s)
}.

(** The two loops of dispatchEvent over the proper ancestors, [forCapture]
    telling which one. *)
Definition nodes_loop (bodies : Bodies) (forCapture : bool)
    (nodes : list node) : M State unit :=
  for_of nodes (λ n,
    s <- get ;;
    if _propagationStopped (event s) then ret Break
    else
      update_event (set_currentTarget (Some n)) ;;
      _invokeListeners bodies n forCapture ;;
      ret Continue).

(** What a stretch of a dispatch yields: [items] are the invocations made
    between the states [s] and [s'], along the stops [sched]. *)
Record segment (sched : list slot) (s s' : State)
    (items : list Invocation) : Prop := {
  seg_trace : trace s' = trace s ++ items;
  seg_console : console s' = console s ++ reported items;
  seg_follows : follows sched items;
  seg_not_stopped :
    _propagationStopped (event s') = false →
    Forall (λ i, ¬ calls_stop i) items;
  seg_stopped : _propagationStopped (event s) = true → items = [];
  seg_evolves : evolves (event s) (event s')
}.

(** [height h n d]: the parent chain of [n] has [d] links. *)
Inductive height (h : Heap) : node → nat → Prop :=
  | height_root n : parentNode (h n) = None → height h n 0
  | height_step n p d :
      parentNode (h n) = Some p → height h p d → height h n (S d).

(** The order of invocation as the specification describes it.  A visit
    of the nodes [nodes] in phase [ph] serves, node after node, the
    registrations whose capture flag is [forCapture], in registration
    order. *)
Definition visit_keys (h : Heap) (ty : string) (ph : Z) (forCapture : bool)
    (nodes : list node) : list (node * Z * entry) :=
  nodes ≫= (λ n, (λ en, (n, ph, en)) <$>
                   filter (λ en, capture en = forCapture) (regs h n ty)).

(** Capture phase: the path members from the root down to the target,
    the target excluded, capture registrations only.  Target phase: all
    the registrations of the target.  Bubble phase, for a bubbling event:
    the path members from the target up to the root, the target excluded,
    non-capture registrations only. *)
Definition expected_keys (h : Heap) (this : node) (path : list node)
    (e : Event) : list (node * Z * entry) :=
  let ancestors := take (length path - 1) path in
  visit_keys h (type e) CAPTURING_PHASE true ancestors ++
  ((λ en, (this, AT_TARGET, en)) <$> regs h this (type e)) ++
  (if bubbles e
   then visit_keys h (type e) BUBBLING_PHASE false (reverse ancestors)
   else []).

(** How often the callback [f] was invoked with [this] bound to [n]. *)
Definition fired_on (n : node) (f : callback) (items : list Invocation) : nat :=
  length (filter (λ i, inv_this i = n ∧ listener (inv_entry i) = f) items).

(** ** Listeners that do not throw *)

(** The same listeners with every throw left out: each body does what it
    did up to the point where it threw, and returns. *)
Definition muted (bodies : Bodies) : Bodies :=
  λ f this e h,
    {| out_heap := out_heap (bodies f this e h);
       out_calls := out_calls (bodies f this e h);
       out_throw := None |}.

Definition silent (i : Invocation) : Invocation :=
  {| inv_this := inv_this i; inv_phase := inv_phase i;
     inv_entry := inv_entry i; inv_calls := inv_calls i;
     inv_throw := None |}.

(** Two states that differ only in what was thrown and reported. *)
Definition alike (s sm : State) : Prop :=
  heap sm = heap s ∧ event sm = event s ∧ trace sm = silent <$> trace s.

(** Two computations that, on an event of an ordinary type, keep alike
    states alike and return results related by [R]; neither throws, and
    the type of the event stays. *)
Definition sim {A} (R : A → A → Prop) (m mm : M State A) : Prop :=
  ∀ s sm, alike s sm → ordinary (type (event s)) →
    ∃ a am s' sm',
      m s = (Ok a, s') ∧ mm sm = (Ok am, sm') ∧ R a am ∧ alike s' sm' ∧
      type (event s') = type (event s).

(** ** Concrete listeners and a concrete document *)

(** The store left by an operation. *)
Definition exec {A} (m : M Heap A) (h : Heap) : Heap := snd (m h).

Definition no_effect (h : Heap) : Outcome :=
  {| out_heap := h; out_calls := []; out_throw := None |}.

(** Listeners that keep to themselves: callback 3 calls preventDefault
    twice, callback 4 throws, every other callback does nothing. *)
Definition calm_bodies : Bodies :=
  λ f this e h,
    match f with
    | 3%nat => {| out_heap := h;
                  out_calls := [CallPreventDefault; CallPreventDefault];
                  out_throw := None |}
    | 4%nat => {| out_heap := h; out_calls := [];
                  out_throw := Some (Thrown 7) |}
    | _ => no_effect h
    end.

(** Listeners that interfere: callback 1 calls stopPropagation, callback
    2 calls stopImmediatePropagation, callback 5 removes the non-capture
    registrations of callback 8 from its own node and registers callback
    9 there, for the type of the event; the others are as above. *)
Definition lively_bodies : Bodies :=
  λ f this e h,
    match f with
    | 1%nat => {| out_heap := h; out_calls := [CallStopPropagation];
                  out_throw := None |}
    | 2%nat => {| out_heap := h;
                  out_calls := [CallStopImmediatePropagation];
                  out_throw := None |}
    | 5%nat =>
        {| out_heap :=
             exec (addEventListener this (type e) 9%nat (OptObj None None))
               (exec (removeEventListener this (type e) 8%nat (OptBool false))
                  h);
           out_calls := []; out_throw := None |}
    | _ => calm_bodies f this e h
    end.

(** The chain 0, 1, 2 (0 is the root, 2 the innermost node) with
    registrations for several event types. *)
Definition chain_012 : Heap := exec (appendChild 1%nat 2%nat) heap_0_1.

Definition listen (n : node) (ty : string) (f : callback)
    (capture0 once0 : bool) : Heap → Heap :=
  exec (addEventListener n ty f (OptObj (Some capture0) (Some once0))).

Definition demo_heap : Heap :=
  (listen 2%nat "grow" 10%nat false false ∘
   listen 2%nat "grow" 8%nat false false ∘
   listen 2%nat "grow" 5%nat false false ∘
   listen 2%nat "veto" 3%nat false false ∘
   listen 1%nat "fail" 4%nat false false ∘
   listen 2%nat "fail" 10%nat false false ∘
   listen 2%nat "fail" 4%nat false false ∘
   listen 2%nat "once" 14%nat false true ∘
   listen 1%nat "halt" 10%nat false false ∘
   listen 2%nat "halt" 10%nat false false ∘
   listen 2%nat "halt" 2%nat false false ∘
   listen 2%nat "stop" 10%nat false false ∘
   listen 1%nat "stop" 10%nat false false ∘
   listen 1%nat "stop" 10%nat true false ∘
   listen 0%nat "stop" 10%nat true false ∘
   listen 0%nat "stop" 1%nat true false ∘
   listen 1%nat "click" 13%nat false false ∘
   listen 2%nat "click" 12%nat false false ∘
   listen 2%nat "click" 11%nat true false ∘
   listen 0%nat "click" 10%nat true false) chain_012.

(** [new Event(ty, { bubbles: true })] *)
Definition bubbling (ty : string) : Event :=
  new_Event ty {| init_bubbles := Some true; init_cancelable := None |} 0.

(** The state and the result of a dispatch that returned. *)
Definition final (r : option (result bool * State)) : State :=
  match r with
  | Some (_, s) => s
  | None => {| heap := fresh_heap; event := bubbling ""; console := [];
               trace := [] |}
  end.
Definition returned (r : option (result bool * State)) : result bool :=
  match r with
  | Some (x, _) => x
  | None => Throw (JsError "")
  end.

(** ** Invariants of a dispatch *)

(** [keeps P m]: started in a state where [P] holds, [m] returns without
    throwing, in a state where [P] holds. *)
Definition keeps {A} (P : State → Prop) (m : M State A) : Prop :=
  ∀ s, P s → ∃ a s', m s = (Ok a, s') ∧ P s'.

(** Listener bodies that leave the tree as it is. *)
Definition tree_keeping (bodies : Bodies) : Prop :=
  ∀ f this e h m,
    parentNode (out_heap (bodies f this e h) m) = parentNode (h m) ∧
    childNodes (out_heap (bodies f this e h) m) = childNodes (h m).

(** Listener bodies that leave every registry as it is. *)
Definition registry_keeping (bodies : Bodies) : Prop :=
  ∀ f this e h m,
    _listeners (out_heap (bodies f this e h) m) = _listeners (h m).

(** Two stores with the same tree. *)
Definition same_tree (h h' : Heap) : Prop :=
  ∀ m, parentNode (h' m) = parentNode (h m) ∧
       childNodes (h' m) = childNodes (h m).

(** Two stores with the same objects. *)
Definition same_store (h h' : Heap) : Prop :=
  ∀ m, _listeners (h' m) = _listeners (h m) ∧
       parentNode (h' m) = parentNode (h m) ∧
       childNodes (h' m) = childNodes (h m).

(** ** Node: navigation *)

(** [this.childNodes[0] || null] and
    [this.childNodes[this.childNodes.length - 1] || null]; a node
    reference is never falsy. *)
Definition firstChild (h : Heap) (this : node) : option node :=
  head (childNodes (h this)).
Definition lastChild (h : Heap) (this : node) : option node :=
  last (childNodes (h this)).

(** [siblings[index + 1] || null]: [index] is at least [-1], so that the
    index read is never negative. *)
Definition nextSibling (h : Heap) (this : node) : option node :=
  match parentNode (h this) with
  | None => None
  | Some p =>
      let siblings := childNodes (h p) in
      let index := indexOf siblings this in
      siblings !! Z.to_nat (index + 1)
  end.

(** [siblings[index - 1] || null]: reading an array at [-1] or [-2] gives
    [undefined]. *)
Definition previousSibling (h : Heap) (this : node) : option node :=
  match parentNode (h this) with
  | None => None
  | Some p =>
      let siblings := childNodes (h p) in
      let index := indexOf siblings this in
      if index - 1 <? 0 then None else siblings !! Z.to_nat (index - 1)
  end.

(** [for (const child of children) { if (test(child)) return true; }
    return false;] for a test that may fail to return. *)
Fixpoint any_child (test : node → option bool) (children : list node)
  : option bool :=
  match children with
  | [] => Some false
  | child :: rest =>
      match test child with
      | None => None
      | Some true => Some true
      | Some false => any_child test rest
      end
  end.

(** [this.contains(node)], the recursion being at most [fuel] calls
    deep; [None] when it would go deeper (on children arrays that form a
    cycle the source recursion has no end). *)
Fixpoint contains (fuel : nat) (h : Heap) (this x : node) : option bool :=
  match fuel with
  | O => None
  | S fuel' =>
      if decide (x = this) then Some true
      else any_child (λ child, contains fuel' h child x) (childNodes (h this))
  end.

(** [reaches h t x]: [x] is [t] or is found by going down the children
    arrays from [t]. *)
Inductive reaches (h : Heap) : node → node → Prop :=
  | reaches_self t : reaches h t t
  | reaches_child t c x :
      c ∈ childNodes (h t) → reaches h c x → reaches h t x.

(** [shallow h k n]: going down the children arrays from [n] ends after
    fewer than [k] steps. *)
Inductive shallow (h : Heap) : nat → node → Prop :=
  | shallow_intro k n :
      (∀ c, c ∈ childNodes (h n) → shallow h k c) → shallow h (S k) n.

(** Node 0 with the children 1, 2 and 3. *)
Definition heap_0_123 : Heap := snd (appendChild 0%nat 3%nat heap_0_12).

(** [new Event(ty, { bubbles: true, cancelable: true })] and
    [new Event(ty)] *)
Definition cancelable_event (ty : string) : Event :=
  new_Event ty {| init_bubbles := Some true; init_cancelable := Some true |} 0.
Definition plain_event (ty : string) : Event :=
  new_Event ty {| init_bubbles := None; init_cancelable := None |} 0.

(** ** Strings

    A string is a sequence of code units; the strings of this development
    have code units below 256, as every ASCII string has.  [===] on
    strings is equality of the sequences. *)

(** The code units below 256 that the class [\s] of a regular
    expression matches: tab, line feed, vertical tab, form feed, carriage
    return, space and the no-break space. *)
Definition js_whitespace (c : Ascii.ascii) : bool :=
  let n := Ascii.nat_of_ascii c in
  ((9 <=? n)%nat && (n <=? 13)%nat) || (n =? 32)%nat || (n =? 160)%nat.

(** [s.split(/\s+/)]: the pieces of [s] between the maximal runs of white
    space, the empty pieces before a leading run and after a trailing run
    included.  [cur] is the piece being read and [in_run] tells that the
    last code unit read was white space. *)
Fixpoint split_go (s cur : string) (in_run : bool) : list string :=
  match s with
  | EmptyString => [cur]
  | String c s' =>
      if js_whitespace c then
        if in_run then split_go s' cur true
        else cur :: split_go s' EmptyString true
      else split_go s' (cur +:+ String c EmptyString) false
  end.
Definition split_whitespace (s : string) : list string :=
  split_go s EmptyString false.

(** [s.split(/\s+/).filter(Boolean)]: the empty string is the one string
    that is falsy. *)
Definition words_of (s : string) : list string :=
  filter (λ t, t ≠ EmptyString) (split_whitespace s).

(** [l.join(sep)] *)
Fixpoint join (sep : string) (l : list string) : string :=
  match l with
  | [] => EmptyString
  | [x] => x
  | x :: l' => x +:+ sep +:+ join sep l'
  end.

(** A [Set] of strings, as the list of its elements in insertion order. *)
Definition Set_add (x : string) (s : list string) : list string :=
  if decide (x ∈ s) then s else s ++ [x].
Definition new_Set (l : list string) : list string :=
  foldl (λ s x, Set_add x s) [] l.

(** A [Map] from strings to strings, as the list of its entries in
    insertion order; [set] on a key that is present keeps its place. *)
Fixpoint Map_get (key : string) (m : list (string * string)) : option string :=
  match m with
  | [] => None
  | (k, v) :: m' => if decide (k = key) then Some v else Map_get key m'
  end.
Fixpoint Map_set (key value : string) (m : list (string * string))
  : list (string * string) :=
  match m with
  | [] => [(key, value)]
  | (k, v) :: m' =>
      if decide (k = key) then (k, value) :: m'
      else (k, v) :: Map_set key value m'
  end.
Definition Map_delete (key : string) (m : list (string * string))
  : list (string * string) :=
  filter (λ kv, kv.1 ≠ key) m.
Definition Map_has (key : string) (m : list (string * string)) : bool :=
  bool_decide (is_Some (Map_get key m)).

(** [s.startsWith(prefix)] and [s.slice(1)] *)
Definition startsWith (s prefix : string) : bool := String.prefix prefix s.
Definition slice_1 (s : string) : string :=
  match s with
  | EmptyString => EmptyString
  | String _ rest => rest
  end.

(** What the library throws without a [throw] statement of its own. *)
Inductive js_fault : Type :=
  | ReferenceError (identifier : string)
  | TypeError_not_a_function (property : string).

(** ** Element: attributes, classes and selectors

    The methods of this part read and write the fields of the receiver
    only; they are functions on the contents of one Element object.
    Attribute names, attribute values and class names are strings. *)
Module Element.

Record obj : Type := Obj {
  tagName : string;
  attributes : list (string * string);
  id : string;
  className : string
}.

Definition with_id (v : string) (el : obj) : obj :=
  {| tagName := tagName el; attributes := attributes el; id := v;
     className := className el |}.
Definition with_className (v : string) (el : obj) : obj :=
  {| tagName := tagName el; attributes := attributes el; id := id el;
     className := v |}.
Definition with_attributes (m : list (string * string)) (el : obj) : obj :=
  {| tagName := tagName el; attributes := m; id := id el;
     className := className el |}.

(** [new Element(tagName)]; [toUpperCase] is the method of the engine. *)
Definition new (toUpperCase : string → string) (tag : string) : obj :=
  {| tagName := toUpperCase tag; attributes := []; id := EmptyString;
     className := EmptyString |}.

(** [null] is [None].  An attribute whose value is the empty string reads
    as [null]: [this.attributes.get(name) || null]. *)
Definition getAttribute (name : string) (el : obj) : option string :=
  if decide (name = "id") then Some (id el)
  else if decide (name = "class") then Some (className el)
  else match Map_get name (attributes el) with
       | Some v => if decide (v = EmptyString) then None else Some v
       | None => None
       end.

Definition setAttribute (name value : string) (el : obj) : obj :=
  let el1 :=
    if decide (name = "id") then with_id value el
    else if decide (name = "class") then with_className value el
    else el in
  with_attributes (Map_set name value (attributes el1)) el1.

Definition removeAttribute (name : string) (el : obj) : obj :=
  let el1 := if decide (name = "id") then with_id EmptyString el else el in
  let el2 :=
    if decide (name = "class") then with_className EmptyString el1 else el1 in
  with_attributes (Map_delete name (attributes el2)) el2.

Definition hasAttribute (name : string) (el : obj) : bool :=
  Map_has name (attributes el).

(** [self.className.split(/\s+/).filter(Boolean)] *)
Definition _classes (el : obj) : list string := words_of (className el).

Definition classList_contains (c : string) (el : obj) : bool :=
  bool_decide (c ∈ _classes el).

Definition classList_add (classes : list string) (el : obj) : obj :=
  let current := new_Set (_classes el) in
  let current := foldl (λ s c, Set_add c s) current classes in
  with_className (join " " current) el.

(** The body of [remove] names [claases], which is bound nowhere: the
    call ends there, before the assignment to [className]. *)
Definition classList_remove (classes : list string) (el : obj)
  : (js_fault + unit) * obj :=
  (inl (ReferenceError "claases"), el).

Definition classList_toggle (c : string) (el : obj)
  : (js_fault + bool) * obj :=
  if classList_contains c el then
    match classList_remove [c] el with
    | (inl x, el') => (inl x, el')
    | (inr _, el') => (inr false, el')
    end
  else (inr true, classList_add [c] el).

(** [this._createMatcher(selector)] *)
Definition _createMatcher (toUpperCase : string → string) (selector : string)
  : obj → bool :=
  if startsWith selector "#" then
    let id0 := slice_1 selector in
    λ el, bool_decide (id el = id0)
  else if startsWith selector "." then
    let className0 := slice_1 selector in
    λ el, classList_contains className0 el
  else
    let tagName0 := toUpperCase selector in
    λ el, bool_decide (tagName el = tagName0).

End Element.

(** A class name that classList can hold: not empty and free of white
    space. *)
Fixpoint whitespace_free (s : string) : bool :=
  match s with
  | EmptyString => true
  | String c s' => negb (js_whitespace c) && whitespace_free s'
  end.
Definition is_token (s : string) : Prop :=
  s ≠ EmptyString ∧ whitespace_free s = true.

(** Upper case for ASCII strings, where it is what [toUpperCase] does. *)
Definition ascii_upper (c : Ascii.ascii) : Ascii.ascii :=
  let n := Ascii.nat_of_ascii c in
  if ((97 <=? n)%nat && (n <=? 122)%nat) then Ascii.ascii_of_nat (n - 32) else c.
Fixpoint ascii_toUpperCase (s : string) : string :=
  match s with
  | EmptyString => EmptyString
  | String c s' => String (ascii_upper c) (ascii_toUpperCase s')
  end.

(** ** The classes of nodes

    What an object is besides an EventTarget with a place in the tree: a
    plain Node with the node type it was constructed with ([undefined] is
    [None]), a Text with its data, an Element with its fields, or a
    Document with its [documentElement].  These fields live in a second
    store, indexed by the same references; no mutation of the tree and no
    dispatch reads or writes them. *)
Inductive Kind : Type :=
  | KNode (nodeType : option Z)
  | KText (data : string)
  | KElement (el : Element.obj)
  | KDocument (documentElement : option node).

Abbreviation Kinds := (node → Kind).

(** [x instanceof Element], with the fields of [x]. *)
Definition as_Element (x : Kind) : option Element.obj :=
  match x with
  | KElement el => Some el
  | _ => None
  end.

(** The local function [traverse] of _querySelectorAll, which is also
    the local function [search] of getElementsByTagName and of
    getElementsByClassName: it walks the Element children of [n], pushing
    each one that [matchFn] accepts before walking below it.  The result
    is what one call pushes on [results], in order; the recursion is at
    most [fuel] calls deep. *)
Fixpoint traverse_children (rec : node → option (list node)) (k : Kinds)
    (matchFn : Element.obj → bool) (children : list node)
  : option (list node) :=
  match children with
  | [] => Some []
  | child :: rest =>
      match k child with
      | KElement el =>
          match rec child with
          | None => None
          | Some below =>
              match traverse_children rec k matchFn rest with
              | None => None
              | Some after =>
                  Some ((if matchFn el then [child] else []) ++ below ++ after)
              end
          end
      | _ => traverse_children rec k matchFn rest
      end
  end.

Fixpoint traverse (fuel : nat) (h : Heap) (k : Kinds)
    (matchFn : Element.obj → bool) (n : node) : option (list node) :=
  match fuel with
  | O => None
  | S fuel' =>
      traverse_children (traverse fuel' h k matchFn) k matchFn
        (childNodes (h n))
  end.

(** [this._querySelectorAll(selector)], [this.querySelectorAll(selector)]
    and [this.querySelector(selector)] of an Element; [null] is [None]. *)
Definition _querySelectorAll (toUpperCase : string → string) (fuel : nat)
    (h : Heap) (k : Kinds) (this : node) (selector : string)
  : option (list node) :=
  traverse fuel h k (Element._createMatcher toUpperCase selector) this.
Definition querySelectorAll := _querySelectorAll.
Definition querySelector (toUpperCase : string → string) (fuel : nat)
    (h : Heap) (k : Kinds) (this : node) (selector : string)
  : option (option node) :=
  head <$> _querySelectorAll toUpperCase fuel h k this selector.

(** [document.getElementsByTagName(tagName)] and
    [document.getElementsByClassName(className)] *)
Definition getElementsByTagName (toUpperCase : string → string) (fuel : nat)
    (h : Heap) (k : Kinds) (this : node) (tagName : string)
  : option (list node) :=
  let targetTag := toUpperCase tagName in
  traverse fuel h k
    (λ el, bool_decide (tagName = "*") ||
           bool_decide (Element.tagName el = targetTag)) this.
Definition getElementsByClassName (fuel : nat) (h : Heap) (k : Kinds)
    (this : node) (className : string) : option (list node) :=
  traverse fuel h k (Element.classList_contains className) this.

(** The local function [search] of getElementById: the first Element
    with the id, in the order of the walk, or [undefined] ([None]). *)
Fixpoint search_children (rec : node → option (option node)) (k : Kinds)
    (id : string) (children : list node) : option (option node) :=
  match children with
  | [] => Some None
  | child :: rest =>
      match k child with
      | KElement el =>
          if decide (Element.id el = id) then Some (Some child)
          else
            match rec child with
            | None => None
            | Some (Some found) => Some (Some found)
            | Some None => search_children rec k id rest
            end
      | _ => search_children rec k id rest
      end
  end.

Fixpoint search (fuel : nat) (h : Heap) (k : Kinds) (id : string) (n : node)
  : option (option node) :=
  match fuel with
  | O => None
  | S fuel' => search_children (search fuel' h k id) k id (childNodes (h n))
  end.

Definition getElementById := search.

(** [this.closeset(selector)] (the method has this name), with a bound
    on the number of iterations of its loop. *)
Fixpoint closeset_loop (fuel : nat) (h : Heap) (k : Kinds)
    (matchFn : Element.obj → bool) (current : option node)
  : option (option node) :=
  match current with
  | None => Some None
  | Some c =>
      match fuel with
      | O => None
      | S fuel' =>
          match k c with
          | KElement el =>
              if matchFn el then Some (Some c)
              else closeset_loop fuel' h k matchFn (parentNode (h c))
          | _ => closeset_loop fuel' h k matchFn (parentNode (h c))
          end
      end
  end.

Definition closeset (toUpperCase : string → string) (fuel : nat) (h : Heap)
    (k : Kinds) (this : node) (selector : string) : option (option node) :=
  closeset_loop fuel h k (Element._createMatcher toUpperCase selector)
    (Some this).

(** [x] is found from [t] by going down one or more steps through
    children that are Elements. *)
Inductive element_below (h : Heap) (k : Kinds) : node → node → Prop :=
  | element_child t c el :
      c ∈ childNodes (h t) → k c = KElement el → element_below h k t c
  | element_deeper t c el x :
      c ∈ childNodes (h t) → k c = KElement el →
      element_below h k c x → element_below h k t x.

(** The receivers of the methods of Element and of Document. *)
Definition is_Element (k : Kinds) (n : node) : Prop :=
  ∃ el, k n = KElement el.
Definition is_Document (k : Kinds) (n : node) : Prop :=
  ∃ documentElement, k n = KDocument documentElement.

(** [x] is an Element that [matchFn] accepts. *)
Definition accepted (k : Kinds) (matchFn : Element.obj → bool) (x : node)
  : Prop :=
  ∃ el, k x = KElement el ∧ matchFn el = true.

Global Instance accepted_dec (k : Kinds) (matchFn : Element.obj → bool)
    (x : node) : Decision (accepted k matchFn x).
Proof.
  unfold accepted. destruct (k x) as [| |el|] eqn:Hk;
    try (right; intros (? & ? & ?); congruence).
  destruct (matchFn el) eqn:Hm.
  - left. by exists el.
  - right. intros (el' & [= <-] & ?). congruence.
Defined.

(** A concrete document: the tree of [heap_0_123], node 0 a [div] with
    the children 1, a [span] with id "a" and class "big", 2, a Text, and
    3, a [span] with class "big". *)
Definition demo_kinds : Kinds :=
  λ n, match n with
       | 0%nat => KElement (Element.new ascii_toUpperCase "div")
       | 1%nat =>
           KElement
             (Element.classList_add ["big"]
                (Element.with_id "a" (Element.new ascii_toUpperCase "span")))
       | 2%nat => KText "x"
       | 3%nat =>
           KElement
             (Element.classList_add ["big"]
                (Element.new ascii_toUpperCase "span"))
       | _ => KNode None
       end.

(** ** Text content *)

(** [children.map(f).join("")] for an [f] that may fail to return. *)
Fixpoint concat_map (f : node → option string) (children : list node)
  : option string :=
  match children with
  | [] => Some EmptyString
  | child :: rest =>
      match f child with
      | None => None
      | Some s =>
          match concat_map f rest with
          | None => None
          | Some r => Some (s +:+ r)
          end
      end
  end.

(** [n.textContent]: the data of a Text, and for every other node the
    text contents of its children, joined; the recursion is at most
    [fuel] calls deep. *)
Fixpoint textContent (fuel : nat) (h : Heap) (k : Kinds) (n : node)
  : option string :=
  match fuel with
  | O => None
  | S fuel' =>
      match k n with
      | KText data => Some data
      | _ => concat_map (textContent fuel' h k) (childNodes (h n))
      end
  end.

(** ** Markup *)

(** The double quote, as a string. *)
Definition dquote : string := String (Ascii.ascii_of_nat 34) EmptyString.

Definition voidElements : list string :=
  ["br"; "hr"; "img"; "input"; "meta"; "link"].

(** [el.outerHTML], given the fields of [el] and what [el.innerHTML]
    returns; [toLowerCase] is the method of the engine.  Every attribute
    is pushed as its key, [=], a double quote and its value; the template
    has no closing quote.  For a void element [innerHTML] is not read. *)
Definition outerHTML_of (toLowerCase : string → string) (el : Element.obj)
    (inner : option string) : option string :=
  let attrs :=
    (λ kv, kv.1 +:+ "=" +:+ dquote +:+ kv.2) <$> Element.attributes el in
  let attrStr :=
    match attrs with
    | [] => " "
    | _ => " " +:+ join " " attrs
    end in
  let tag := toLowerCase (Element.tagName el) in
  if decide (tag ∈ voidElements) then Some ("<" +:+ tag +:+ attrStr +:+ ">")
  else
    match inner with
    | None => None
    | Some markup =>
        Some ("<" +:+ tag +:+ attrStr +:+ ">" +:+ markup +:+
              "</" +:+ tag +:+ ">")
    end.

(** [n.innerHTML] for an Element [n]: the data of the Text children and
    the outerHTML of the Element children, joined; any other child gives
    the empty string.
    The recursion is at most [fuel] calls deep. *)
Fixpoint innerHTML (toLowerCase : string → string) (fuel : nat) (h : Heap)
    (k : Kinds) (n : node) : option string :=
  match fuel with
  | O => None
  | S fuel' =>
      concat_map
        (λ child,
           match k child with
           | KText data => Some data
           | KElement el =>
               outerHTML_of toLowerCase el
                 (innerHTML toLowerCase fuel' h k child)
           | _ => Some EmptyString
           end)
        (childNodes (h n))
  end.

(** [this.outerHTML] for an Element [this] with the fields [el]. *)
Definition outerHTML (toLowerCase : string → string) (fuel : nat) (h : Heap)
    (k : Kinds) (el : Element.obj) (this : node) : option string :=
  outerHTML_of toLowerCase el (innerHTML toLowerCase fuel h k this).

(** ** Objects that come and go *)

(** The whole store: the tree, the classes of the nodes, and the next
    reference that [new] will hand out. *)
Record Dom : Type := {
  tree : Heap;
  kinds : Kinds;
  next : node
}.

(** What a constructor leaves in the fields of EventTarget and Node. *)
Definition blank : NodeObj :=
  {| _listeners := ∅; parentNode := None; childNodes := [] |}.

(** [new C(...)]: a new object of class [x]. *)
Definition new_object (x : Kind) (d : Dom) : node * Dom :=
  (next d,
   {| tree := <[next d := blank]> (tree d);
      kinds := <[next d := x]> (kinds d);
      next := S (next d) |}).

Definition with_tree (h : Heap) (d : Dom) : Dom :=
  {| tree := h; kinds := kinds d; next := next d |}.

(** No reference that [new] has yet to hand out occurs in the store. *)
Definition unused_above (d : Dom) : Prop :=
  ∀ m n, (next d ≤ m)%nat →
    tree d m = blank ∧
    (m ∉ childNodes (tree d n)) ∧ parentNode (tree d n) ≠ Some m.

(** [while (this.firstChild) { this.removeChild(this.firstChild); }]
    with a bound on the number of iterations. *)
Fixpoint remove_children (fuel : nat) (this : node) (h : Heap)
  : option (result unit * Heap) :=
  match firstChild h this with
  | None => Some (Ok tt, h)
  | Some child =>
      match fuel with
      | O => None
      | S fuel' =>
          match removeChild this child h with
          | (Ok _, h') => remove_children fuel' this h'
          | (Throw e, h') => Some (Throw e, h')
          end
      end
  end.

(** [this.textContent = value]: the setter of Text for a Text, the
    setter of Node for every other node.  A string is truthy unless it is
    empty. *)
Definition set_textContent (fuel : nat) (this : node) (value : string)
    (d : Dom) : option (result unit * Dom) :=
  match kinds d this with
  | KText _ =>
      Some (Ok tt, {| tree := tree d;
                      kinds := <[this := KText value]> (kinds d);
                      next := next d |})
  | _ =>
      match remove_children fuel this (tree d) with
      | None => None
      | Some (Throw e, h') => Some (Throw e, with_tree h' d)
      | Some (Ok _, h') =>
          if decide (value = EmptyString) then Some (Ok tt, with_tree h' d)
          else
            let (t, d') := new_object (KText value) (with_tree h' d) in
            match appendChild this t (tree d') with
            | (Ok _, h'') => Some (Ok tt, with_tree h'' d')
            | (Throw e, h'') => Some (Throw e, with_tree h'' d')
            end
      end
  end.
(** [this.innerHTML = html]: Element alone has this setter; on another
    object the assignment makes a property that nothing reads. *)
Definition set_innerHTML (fuel : nat) (this : node) (html : string)
    (d : Dom) : option (result unit * Dom) :=
  match kinds d this with
  | KElement _ => set_textContent fuel this html d
  | _ => Some (Ok tt, d)
  end.

(** ** cloneNode *)

(** How a call of cloneNode may end without returning: with something
    thrown by a [throw] statement, or with an error of the engine. *)
Inductive failure : Type :=
  | Raised (e : exn)
  | Fault (f : js_fault).

(** [for (const child of children) { clone.appendChild(child.cloneNode(true)); }
    return clone;] with [rec] for [child.cloneNode(true)]. *)
Fixpoint clone_children (rec : node → Dom → option ((failure + node) * Dom))
    (clone : node) (children : list node) (d : Dom)
  : option ((failure + node) * Dom) :=
  match children with
  | [] => Some (inr clone, d)
  | child :: rest =>
      match rec child d with
      | None => None
      | Some (inl e, d') => Some (inl e, d')
      | Some (inr c, d') =>
          match appendChild clone c (tree d') with
          | (Ok _, h) => clone_children rec clone rest (with_tree h d')
          | (Throw e, h) => Some (inl (Raised e), with_tree h d')
          end
      end
  end.

(** [this.cloneNode(deep)], by the class of the receiver: Text has a
    method of its own, which takes no argument; Element has one, which
    calls [clone.setAttributeNS] for every attribute, a method that no
    class defines; a Document and a plain Node use the method of Node,
    which calls the constructor of the receiver without arguments.  The
    recursion is at most [fuel] calls deep. *)
Fixpoint cloneNode (toUpperCase : string → string) (fuel : nat) (deep : bool)
    (this : node) (d : Dom) : option ((failure + node) * Dom) :=
  match fuel with
  | O => None
  | S fuel' =>
      match kinds d this with
      | KText data =>
          let (clone, d1) := new_object (KText data) d in
          Some (inr clone, d1)
      | KElement el =>
          let (clone, d1) :=
            new_object
              (KElement (Element.new toUpperCase (Element.tagName el))) d in
          match Element.attributes el with
          | _ :: _ =>
              Some (inl (Fault (TypeError_not_a_function "setAttributeNS")),
                    d1)
          | [] =>
              if deep then
                clone_children (cloneNode toUpperCase fuel' true) clone
                  (childNodes (tree d1 this)) d1
              else Some (inr clone, d1)
          end
      | KDocument _ =>
          let (clone, d1) := new_object (KDocument None) d in
          if deep then
            clone_children (cloneNode toUpperCase fuel' true) clone
              (childNodes (tree d1 this)) d1
          else Some (inr clone, d1)
      | KNode _ =>
          let (clone, d1) := new_object (KNode None) d in
          if deep then
            clone_children (cloneNode toUpperCase fuel' true) clone
              (childNodes (tree d1 this)) d1
          else Some (inr clone, d1)
      end
  end.

(** The class and the fields of a clone of an object of class [x]. *)
Definition clone_kind (toUpperCase : string → string) (x : Kind) : Kind :=
  match x with
  | KText data => KText data
  | KElement el => KElement (Element.new toUpperCase (Element.tagName el))
  | KDocument _ => KDocument None
  | KNode _ => KNode None
  end.

(** The concrete document as a store. *)
Definition demo_dom : Dom :=
  {| tree := heap_0_123; kinds := demo_kinds; next := 4%nat |}.

(** The same with a Document: node 4 is a Document whose only child, and
    whose [documentElement], is node 0. *)
Definition demo_document : Dom :=
  {| tree := snd (appendChild 4%nat 0%nat (<[4%nat := blank]> heap_0_123));
     kinds := <[4%nat := KDocument (Some 0%nat)]> demo_kinds;
     next := 5%nat |}.

(** What a call of cloneNode leaves: the objects that existed are as
    they were, and a clone that is returned is the first new object, has
    no parent and no listener, and has the class of the receiver with the
    fields of a new object of that class. *)
Definition clone_post (toUpperCase : string → string) (deep : bool)
    (this : node) (d : Dom) (r : failure + node) (d' : Dom) : Prop :=
  (next d < next d')%nat ∧
  (∀ m, (m < next d)%nat → tree d' m = tree d m ∧ kinds d' m = kinds d m) ∧
  (∀ c, r = inr c →
        c = next d ∧ parentNode (tree d' c) = None ∧
        _listeners (tree d' c) = ∅ ∧
        kinds d' c = clone_kind toUpperCase (kinds d this) ∧
        (deep = false → childNodes (tree d' c) = [])).

(** How often the code unit [c] occurs in [s]. *)
Fixpoint occurrences (c : Ascii.ascii) (s : string) : nat :=
  match s with
  | EmptyString => O
  | String a s' => (if decide (a = c) then 1 else 0) + occurrences c s'
  end.

(** Lower case for ASCII strings, where it is what [toLowerCase] does. *)
Definition ascii_lower (c : Ascii.ascii) : Ascii.ascii :=
  let n := Ascii.nat_of_ascii c in
  if ((65 <=? n)%nat && (n <=? 90)%nat) then Ascii.ascii_of_nat (n + 32) else c.
Fixpoint ascii_toLowerCase (s : string) : string :=
  match s with
  | EmptyString => EmptyString
  | String c s' => String (ascii_lower c) (ascii_toLowerCase s')
  end.

(** ** Document *)

(** [document.createElement(tagName)] and [document.createTextNode(data)] *)
Definition createElement (toUpperCase : string → string) (tagName : string)
    (d : Dom) : node * Dom :=
  new_object (KElement (Element.new toUpperCase tagName)) d.
Definition createTextNode (data : string) (d : Dom) : node * Dom :=
  new_object (KText data) d.

(** [document.querySelectorAll(selector)] and
    [document.querySelector(selector)], given [this.documentElement].
    Both call [_createMatcher] on the document element, which only an
    Element has. *)
Definition Document_querySelectorAll (toUpperCase : string → string)
    (fuel : nat) (h : Heap) (k : Kinds) (documentElement : option node)
    (selector : string) : option (js_fault + list node) :=
  match documentElement with
  | None => Some (inr [])
  | Some de =>
      match k de with
      | KElement el =>
          let matchFn := Element._createMatcher toUpperCase selector in
          let results := if matchFn el then [de] else [] in
          match querySelectorAll toUpperCase fuel h k de selector with
          | None => None
          | Some below => Some (inr (results ++ below))
          end
      | _ => Some (inl (TypeError_not_a_function "_createMatcher"))
      end
  end.

Definition Document_querySelector (toUpperCase : string → string)
    (fuel : nat) (h : Heap) (k : Kinds) (documentElement : option node)
    (selector : string) : option (js_fault + option node) :=
  match documentElement with
  | None => Some (inr None)
  | Some de =>
      match k de with
      | KElement el =>
          let matchFn := Element._createMatcher toUpperCase selector in
          if matchFn el then Some (inr (Some de))
          else
            match querySelector toUpperCase fuel h k de selector with
            | None => None
            | Some found => Some (inr found)
            end
      | _ => Some (inl (TypeError_not_a_function "_createMatcher"))
      end
  end.

(** The children that cloneNode copies: those of the receiver, except
    for a Text, whose method copies none. *)
Definition copied_children (h : Heap) (k : Kinds) (n : node) : list node :=
  match k n with
  | KText _ => []
  | _ => childNodes (h n)
  end.

(** [mirrors h0 k0 h' k' hi n c]: in the store [h'], [k'] the node [c]
    is the root of a copy of what hangs below [n] in the store [h0],
    [k0].  It has the class of [n] with the fields of a new object; its
    children are as many as the copied children of [n], each one a later
    reference below [hi] that has [c] as its parent, and the child at an
    index is in turn a copy of the child of [n] at that index. *)
Inductive mirrors (toUpperCase : string → string) (h0 : Heap) (k0 : Kinds)
    (h' : Heap) (k' : Kinds) (hi : nat) : node → node → Prop :=
  | mirrors_intro n c :
      (c < hi)%nat →
      k' c = clone_kind toUpperCase (k0 n) →
      length (childNodes (h' c)) = length (copied_children h0 k0 n) →
      (∀ y, y ∈ childNodes (h' c) →
            (c < y)%nat ∧ parentNode (h' y) = Some c) →
      (∀ i x y, copied_children h0 k0 n !! i = Some x →
                childNodes (h' c) !! i = Some y →
                mirrors toUpperCase h0 k0 h' k' hi x y) →
      mirrors toUpperCase h0 k0 h' k' hi n c.

(** Every child of an object that exists is an object that exists. *)
Definition closed (d : Dom) : Prop :=
  ∀ m c, (m < next d)%nat → c ∈ childNodes (tree d m) → (c < next d)%nat.

(** The store [dc] holds the objects of [d] as they are in [d]. *)
Definition extends (d dc : Dom) : Prop :=
  (next d ≤ next dc)%nat ∧
  ∀ m, (m < next d)%nat → tree dc m = tree d m ∧ kinds dc m = kinds d m.

(** [bare h k n]: no Element that a deep copy of [n] goes through has an
    attribute. *)
Inductive bare (h : Heap) (k : Kinds) : node → Prop :=
  | bare_intro n :
      (∀ el, k n = KElement el → Element.attributes el = []) →
      (∀ c, c ∈ copied_children h k n → bare h k c) →
      bare h k n.

(** * Properties *)

(** ** Arrays *)

Lemma indexOf_not_elem (l : list node) (x : node) :
  x ∉ l → indexOf l x = -1.
Proof.
  induction l as [|y l IH]; intros Hx; simpl; [done|].
  apply not_elem_of_cons in Hx as [Hne Hx].
  destruct (decide (y = x)); [congruence|].
  rewrite (IH Hx). done.
Qed.

Lemma indexOf_elem (l : list node) (x : node) :
  x ∈ l →
  ∃ l1 l2, l = l1 ++ x :: l2 ∧ (x ∉ l1) ∧ indexOf l x = Z.of_nat (length l1).
Proof.
  induction l as [|y l IH]; intros Hx; [by apply elem_of_nil in Hx |].
  simpl. destruct (decide (y = x)) as [->|Hne].
  - exists [], l. split_and!; [done|apply not_elem_of_nil|done].
  - apply elem_of_cons in Hx as [?|Hx]; [congruence|].
    destruct (IH Hx) as (l1 & l2 & -> & Hl1 & Hidx).
    exists (y :: l1), l2. split_and!.
    + done.
    + apply not_elem_of_cons. split; [congruence|done].
    + rewrite Hidx. simpl length.
      destruct (Z.eqb_spec (Z.of_nat (length l1)) (-1)); lia.
Qed.

Lemma indexOf_minus_one (l : list node) (x : node) :
  indexOf l x = -1 ↔ x ∉ l.
Proof.
  split; [|apply indexOf_not_elem].
  intros Hidx Hx. destruct (indexOf_elem l x Hx) as (l1 & l2 & _ & _ & Heq).
  lia.
Qed.

Lemma splice_remove_app (l1 l2 : list node) (x : node) :
  splice_remove (Z.of_nat (length l1)) (l1 ++ x :: l2) = l1 ++ l2.
Proof.
  unfold splice_remove. rewrite Nat2Z.id.
  rewrite take_app_length, drop_app_ge by lia.
  by replace (S (length l1) - length l1)%nat with 1%nat by lia.
Qed.

(** ** Failing mutations *)

Lemma removeChild_not_child (h : Heap) (this x : node) :
  x ∉ childNodes (h this) →
  removeChild this x h = (Throw (JsError "Node not found"), h).
Proof.
  intros Hx%indexOf_not_elem. unfold removeChild, bind, get; simpl.
  by rewrite Hx.
Qed.

Lemma replaceChild_not_child (h : Heap) (this n x : node) :
  x ∉ childNodes (h this) →
  replaceChild this n x h = (Throw (JsError "Node not Found"), h).
Proof.
  intros Hx%indexOf_not_elem. unfold replaceChild, bind, get; simpl.
  by rewrite Hx.
Qed.

Lemma insertBefore_not_child (h : Heap) (this n x : node) :
  x ∉ childNodes (h this) →
  insertBefore this n (Some x) h
    = (Throw (JsError "Reference node not found"), h).
Proof.
  intros Hx%indexOf_not_elem. unfold insertBefore, bind, get; simpl.
  by rewrite Hx.
Qed.

(** C6.  When [x] is not among the children of [R], removeChild(x),
    replaceChild(n, x) and insertBefore(n, x) on [R] each throw an Error
    and the store they leave is the store they were given: no children
    array and no parent reference has changed, and [n] is still attached
    where it was. *)
Theorem failing_mutation_leaves_tree_unmodified (h : Heap) (R x n : node) :
  x ∉ childNodes (h R) →
  removeChild R x h = (Throw (JsError "Node not found"), h) ∧
  replaceChild R n x h = (Throw (JsError "Node not Found"), h) ∧
  insertBefore R n (Some x) h = (Throw (JsError "Reference node not found"), h).
Proof.
  intros Hx. split_and!.
  - by apply removeChild_not_child.
  - by apply replaceChild_not_child.
  - by apply insertBefore_not_child.
Qed.

Lemma failing_mutation_leaves_tree_unmodified_witness :
  let h := snd (appendChild 0%nat 1%nat fresh_heap) in
  removeChild 0%nat 2%nat h = (Throw (JsError "Node not found"), h) ∧
  replaceChild 0%nat 3%nat 2%nat h = (Throw (JsError "Node not Found"), h) ∧
  insertBefore 0%nat 3%nat (Some 2%nat) h
    = (Throw (JsError "Reference node not found"), h).
Proof.
  apply (failing_mutation_leaves_tree_unmodified
           (snd (appendChild 0%nat 1%nat fresh_heap)) 0%nat 2%nat 3%nat).
  vm_compute. intros H. apply list_elem_of_singleton in H. discriminate H.
Defined.

(** ** Well-formed trees *)

Lemma filter_ne_id (l : list node) (x : node) :
  x ∉ l → filter (λ y, y ≠ x) l = l.
Proof.
  induction l as [|y l IH]; intros Hx; [done|].
  apply not_elem_of_cons in Hx as [Hne Hx].
  rewrite filter_cons_True by congruence. by rewrite IH.
Qed.

Lemma filter_ne_middle (l1 l2 : list node) (x : node) :
  NoDup (l1 ++ x :: l2) → filter (λ y, y ≠ x) (l1 ++ x :: l2) = l1 ++ l2.
Proof.
  intros Hnd. apply NoDup_app in Hnd as (_ & Hl1 & Hnd2).
  apply NoDup_cons in Hnd2 as [Hl2 _].
  rewrite filter_app, filter_cons_False by naive_solver.
  rewrite !filter_ne_id; [done|done|].
  intros Hin. apply (Hl1 x Hin). left.
Qed.

(** The bidirectional relation alone already excludes a second parent. *)
Lemma well_formed_intro (h : Heap) :
  (∀ p c, c ∈ childNodes (h p) ↔ parentNode (h c) = Some p) →
  (∀ p, NoDup (childNodes (h p))) →
  (∀ n, rooted h n) →
  well_formed h.
Proof.
  intros Hag Hnd Hac. split; [|done..].
  intros c p q Hp Hq. apply Hag in Hp, Hq. congruence.
Qed.

Lemma fresh_heap_well_formed : well_formed fresh_heap.
Proof.
  apply well_formed_intro; simpl.
  - intros p c. split; [by intros ?%elem_of_nil|done].
  - intros _. constructor.
  - intros n. by apply rooted_root.
Qed.

Section Detach_attach.

Variables h h' : Heap.
Variable x : node.

(** Taking [x] out of every children array and clearing its parent. *)
Lemma wf_detach :
  well_formed h →
  (∀ m, parentNode (h' m) =
        if decide (m = x) then None else parentNode (h m)) →
  (∀ m, childNodes (h' m) = filter (λ y, y ≠ x) (childNodes (h m))) →
  well_formed h'.
Proof.
  intros [_ Hag Hnd Hac] HP HC. apply well_formed_intro.
  - intros p c. rewrite HC, HP, list_elem_of_filter, Hag.
    destruct (decide (c = x)); [|tauto]. split; [tauto|done].
  - intros p. rewrite HC. by apply NoDup_filter.
  - intros n. induction (Hac n) as [n Hn|n p Hn _ IH].
    + apply rooted_root. rewrite HP, Hn. by destruct (decide (n = x)).
    + destruct (decide (n = x)) as [->|Hne].
      * apply rooted_root. rewrite HP. by rewrite decide_True.
      * apply rooted_step with p; [|done]. rewrite HP. by rewrite decide_False.
Qed.

Lemma aos_detach (a n : node) :
  (∀ m, parentNode (h' m) =
        if decide (m = x) then None else parentNode (h m)) →
  ancestor_or_self h' a n → ancestor_or_self h a n.
Proof.
  intros HP Haos. induction Haos as [|n p Hn _ IH]; [constructor|].
  rewrite HP in Hn. destruct (decide (n = x)); [done|].
  by apply aos_step with p.
Qed.

(** Putting a parentless [x] somewhere among the children of [this]. *)
Lemma wf_attach (this : node) (l1 l2 : list node) :
  well_formed h →
  parentNode (h x) = None →
  ¬ ancestor_or_self h x this →
  childNodes (h this) = l1 ++ l2 →
  (∀ m, parentNode (h' m) =
        if decide (m = x) then Some this else parentNode (h m)) →
  (∀ m, childNodes (h' m) =
        if decide (m = this) then l1 ++ x :: l2 else childNodes (h m)) →
  well_formed h'.
Proof.
  intros [_ Hag Hnd Hac] Hx Hanc Hthis HP HC.
  assert (Hfree : ∀ p, x ∉ childNodes (h p)).
  { intros p Hin. apply Hag in Hin. congruence. }
  apply well_formed_intro.
  - intros p c. rewrite HC, HP.
    destruct (decide (p = this)) as [->|Hp].
    + pose proof (Hag this c) as Hc. pose proof (Hfree this) as Hf.
      rewrite Hthis in Hc, Hf. rewrite elem_of_app in Hc, Hf.
      rewrite elem_of_app, elem_of_cons.
      destruct (decide (c = x)) as [->|Hne]; [tauto|].
      rewrite <- Hc. tauto.
    + rewrite Hag. destruct (decide (c = x)) as [->|Hc]; [|done].
      rewrite Hx. split; [done|]. intros [= ->]. done.
  - intros p. rewrite HC. destruct (decide (p = this)) as [->|Hp]; [|done].
    specialize (Hnd this). specialize (Hfree this).
    rewrite Hthis in Hnd, Hfree.
    apply NoDup_app in Hnd as (Hn1 & Hn12 & Hn2).
    apply not_elem_of_app in Hfree as [Hf1 Hf2].
    apply NoDup_app. split_and!; [done| |by apply NoDup_cons].
    intros y Hy1 [->|Hy2]%elem_of_cons; [done|]. by apply (Hn12 y).
  - assert (Hkeep : ∀ n, rooted h n → ¬ ancestor_or_self h x n → rooted h' n).
    { intros n Hn. induction Hn as [n Hn|n p Hn _ IH]; intros Hnot.
      - apply rooted_root. rewrite HP, Hn.
        destruct (decide (n = x)) as [->|]; [|done].
        destruct Hnot. constructor.
      - apply rooted_step with p.
        + rewrite HP. destruct (decide (n = x)) as [->|]; [|done].
          destruct Hnot. constructor.
        + apply IH. intros Hp. apply Hnot. by apply aos_step with p. }
    intros n. induction (Hac n) as [n Hn|n p Hn _ IH].
    + destruct (decide (n = x)) as [->|Hne].
      * apply rooted_step with this; [|by apply Hkeep].
        rewrite HP. by rewrite decide_True.
      * apply rooted_root. rewrite HP. by rewrite decide_False.
    + destruct (decide (n = x)) as [->|Hne].
      * apply rooted_step with this; [|by apply Hkeep].
        rewrite HP. by rewrite decide_True.
      * apply rooted_step with p; [|done]. rewrite HP. by rewrite decide_False.
Qed.

End Detach_attach.

(** ** The store after a field assignment *)

Lemma parentNode_set_parentNode (h : Heap) (n m : node) (p : option node) :
  parentNode ((<[n := with_parentNode p (h n)]> h) m) =
  if decide (m = n) then p else parentNode (h m).
Proof.
  unfold insert, fn_insert.
  destruct (decide (n = m)), (decide (m = n)); done || congruence.
Qed.

Lemma childNodes_set_parentNode (h : Heap) (n m : node) (p : option node) :
  childNodes ((<[n := with_parentNode p (h n)]> h) m) = childNodes (h m).
Proof. unfold insert, fn_insert. by destruct (decide (n = m)) as [->|?]. Qed.

Lemma listeners_set_parentNode (h : Heap) (n m : node) (p : option node) :
  _listeners ((<[n := with_parentNode p (h n)]> h) m) = _listeners (h m).
Proof. unfold insert, fn_insert. by destruct (decide (n = m)) as [->|?]. Qed.

Lemma parentNode_set_childNodes (h : Heap) (n m : node) (l : list node) :
  parentNode ((<[n := with_childNodes l (h n)]> h) m) = parentNode (h m).
Proof. unfold insert, fn_insert. by destruct (decide (n = m)) as [->|?]. Qed.

Lemma childNodes_set_childNodes (h : Heap) (n m : node) (l : list node) :
  childNodes ((<[n := with_childNodes l (h n)]> h) m) =
  if decide (m = n) then l else childNodes (h m).
Proof.
  unfold insert, fn_insert.
  destruct (decide (n = m)), (decide (m = n)); done || congruence.
Qed.

Lemma listeners_set_childNodes (h : Heap) (n m : node) (l : list node) :
  _listeners ((<[n := with_childNodes l (h n)]> h) m) = _listeners (h m).
Proof. unfold insert, fn_insert. by destruct (decide (n = m)) as [->|?]. Qed.

Create Rewrite HintDb store.
#[global] Hint Rewrite parentNode_set_parentNode childNodes_set_parentNode
  listeners_set_parentNode parentNode_set_childNodes
  childNodes_set_childNodes listeners_set_childNodes : store.

(** ** The mutations on a well-formed tree *)

(** A successful removeChild, field by field. *)
Lemma removeChild_ok (h : Heap) (this child : node) :
  child ∈ childNodes (h this) →
  ∃ h', removeChild this child h = (Ok child, h') ∧
    (∀ m, parentNode (h' m) =
          if decide (m = child) then None else parentNode (h m)) ∧
    (∀ m, childNodes (h' m) =
          if decide (m = this)
          then splice_remove (indexOf (childNodes (h this)) child)
                 (childNodes (h this))
          else childNodes (h m)).
Proof.
  intros Hin. unfold removeChild, bind, get, set_parentNode, set_childNodes,
    modify, ret; simpl.
  destruct (Z.eqb_spec (indexOf (childNodes (h this)) child) (-1)) as [Heq|_].
  { by apply indexOf_minus_one in Heq. }
  eexists. split; [done|].
  split; intros m; autorewrite with store; done.
Qed.

(** On a well-formed tree, detaching [x] from its parent succeeds and
    amounts to taking [x] out of every children array. *)
Lemma detach_ok (h : Heap) (x : node) :
  well_formed h →
  ∃ h', detach x h = (Ok tt, h') ∧
    (∀ m, parentNode (h' m) =
          if decide (m = x) then None else parentNode (h m)) ∧
    (∀ m, childNodes (h' m) = filter (λ y, y ≠ x) (childNodes (h m))).
Proof.
  intros Hwf. unfold detach, bind, get; simpl.
  destruct (parentNode (h x)) as [p|] eqn:Hp.
  - assert (Hin : x ∈ childNodes (h p)) by by apply (wf_agree h Hwf).
    destruct (removeChild_ok h p x Hin) as (h' & -> & HP & HC).
    exists h'. split_and!; [done..|].
    intros m. rewrite HC. destruct (decide (m = p)) as [->|Hm].
    + destruct (indexOf_elem _ _ Hin) as (l1 & l2 & Hl & _ & ->).
      pose proof (wf_distinct h Hwf p) as Hnd. rewrite Hl in Hnd |- *.
      by rewrite splice_remove_app, filter_ne_middle.
    + rewrite filter_ne_id; [done|]. intros Hin'.
      by apply Hm, (wf_single_parent h Hwf x).
  - exists h. split_and!; [done| |].
    + intros m. by destruct (decide (m = x)) as [->|].
    + intros m. rewrite filter_ne_id; [done|]. intros Hin.
      apply (wf_agree h Hwf) in Hin. congruence.
Qed.

Lemma appendChild_well_formed (h : Heap) (this child : node) :
  well_formed h →
  ¬ ancestor_or_self h child this →
  ∃ h', appendChild this child h = (Ok child, h') ∧ well_formed h'.
Proof.
  intros Hwf Hanc.
  destruct (detach_ok h child Hwf) as (h1 & Hd & HP & HC).
  assert (Hwf1 : well_formed h1) by by apply (wf_detach h h1 child).
  unfold appendChild, bind. rewrite Hd.
  unfold get, set_parentNode, set_childNodes, modify, ret; simpl.
  eexists. split; [done|].
  apply (wf_attach h1 _ child this (childNodes (h1 this)) []); try done.
  - rewrite HP. by rewrite decide_True.
  - intros Haos. by apply Hanc, (aos_detach h h1 child).
  - by rewrite app_nil_r.
  - intros m. by autorewrite with store.
  - intros m. by autorewrite with store.
Qed.

Lemma insertBefore_well_formed (h : Heap) (this newNode : node)
    (referenceNode : option node) :
  well_formed h →
  ¬ ancestor_or_self h newNode this →
  well_formed (snd (insertBefore this newNode referenceNode h)).
Proof.
  intros Hwf Hanc. destruct referenceNode as [ref|]; simpl.
  2: { by destruct (appendChild_well_formed h this newNode) as (h' & -> & ?). }
  unfold bind, get; simpl.
  destruct (Z.eqb_spec (indexOf (childNodes (h this)) ref) (-1)) as [_|_];
    [done|].
  destruct (detach_ok h newNode Hwf) as (h1 & Hd & HP & HC).
  assert (Hwf1 : well_formed h1) by by apply (wf_detach h h1 newNode).
  rewrite Hd. unfold set_parentNode, set_childNodes, modify, ret; simpl.
  set (i := Z.to_nat (indexOf (childNodes (h this)) ref)).
  apply (wf_attach h1 _ newNode this
           (take i (childNodes (h1 this))) (drop i (childNodes (h1 this))));
    try done.
  - rewrite HP. by rewrite decide_True.
  - intros Haos. by apply Hanc, (aos_detach h h1 newNode).
  - by rewrite take_drop.
  - intros m. by autorewrite with store.
  - intros m. by autorewrite with store.
Qed.

Lemma removeChild_well_formed (h : Heap) (this child : node) :
  well_formed h → well_formed (snd (removeChild this child h)).
Proof.
  intros Hwf. destruct (decide (child ∈ childNodes (h this))) as [Hin|Hout].
  - assert (Hp : parentNode (h child) = Some this)
      by by apply (wf_agree h Hwf).
    destruct (detach_ok h child Hwf) as (h1 & Hd & HP & HC).
    unfold detach, bind, get in Hd; simpl in Hd. rewrite Hp in Hd.
    destruct (removeChild this child h) as [[r|e] h'] eqn:Hr; [|done].
    injection Hd as ->. by apply (wf_detach h h1 child).
  - by rewrite removeChild_not_child.
Qed.

Lemma array_set_app (l1 l2 : list node) (x y : node) :
  array_set (Z.of_nat (length l1)) y (l1 ++ x :: l2) = l1 ++ y :: l2.
Proof.
  unfold array_set. rewrite Nat2Z.id.
  rewrite take_app_length, drop_app_ge by lia.
  by replace (S (length l1) - length l1)%nat with 1%nat by lia.
Qed.

Lemma replaceChild_well_formed (h : Heap) (this newChild oldChild : node) :
  well_formed h →
  ¬ ancestor_or_self h newChild this →
  newChild ∉ take (S (Z.to_nat (indexOf (childNodes (h this)) oldChild)))
               (childNodes (h this)) →
  well_formed (snd (replaceChild this newChild oldChild h)).
Proof.
  intros Hwf Hanc Hpos.
  destruct (decide (oldChild ∈ childNodes (h this))) as [Hin|Hout].
  2: { by rewrite replaceChild_not_child. }
  destruct (indexOf_elem _ _ Hin) as (la & lb & Hl & Hla & Hidx).
  rewrite Hidx, Hl, Nat2Z.id in Hpos.
  assert (Hpos' : (newChild ∉ la) ∧ newChild ≠ oldChild).
  { replace (take (S (length la)) (la ++ oldChild :: lb))
      with (la ++ [oldChild]) in Hpos.
    - rewrite not_elem_of_app, not_elem_of_cons in Hpos. tauto.
    - rewrite take_app_ge by lia.
      by replace (S (length la) - length la)%nat with 1%nat by lia. }
  clear Hpos. destruct Hpos' as [Hnla Hne].
  destruct (detach_ok h newChild Hwf) as (h1 & Hd & HP & HC).
  assert (Hwf1 : well_formed h1) by by apply (wf_detach h h1 newChild).
  set (lb' := filter (λ y, y ≠ newChild) lb).
  assert (H1this : childNodes (h1 this) = la ++ oldChild :: lb').
  { rewrite HC, Hl, filter_app, filter_cons_True by congruence.
    by rewrite (filter_ne_id la). }
  unfold replaceChild, bind, get; simpl.
  destruct (Z.eqb_spec (indexOf (childNodes (h this)) oldChild) (-1)) as [?|_];
    [lia|].
  rewrite Hd. unfold set_parentNode, set_childNodes, modify, ret; simpl.
  set (h2 := λ m : node,
         {| _listeners := _listeners (h1 m);
            parentNode := if decide (m = oldChild) then None
                          else parentNode (h1 m);
            childNodes := filter (λ y, y ≠ oldChild) (childNodes (h1 m)) |}).
  assert (Hwf2 : well_formed h2) by by apply (wf_detach h1 h2 oldChild).
  assert (H2this : childNodes (h2 this) = la ++ lb').
  { simpl. rewrite H1this. apply filter_ne_middle.
    rewrite <- H1this. apply (wf_distinct h1 Hwf1). }
  apply (wf_attach h2 _ newChild this la lb'); try done.
  - simpl. rewrite decide_False by done. rewrite HP. by rewrite decide_True.
  - intros Haos. apply Hanc, (aos_detach h h1 newChild); [done|].
    by apply (aos_detach h1 h2 oldChild).
  - intros m. autorewrite with store. simpl.
    by destruct (decide (m = newChild)).
  - intros m. autorewrite with store. simpl.
    destruct (decide (m = this)) as [->|Hm].
    + rewrite H1this, Hidx. apply array_set_app.
    + rewrite filter_ne_id; [done|]. intros Hin1.
      apply Hm, (wf_single_parent h1 Hwf1 oldChild); [done|].
      rewrite H1this. set_solver.
Qed.

Lemma heap_0_1_well_formed : well_formed heap_0_1.
Proof.
  destruct (appendChild_well_formed fresh_heap 0%nat 1%nat) as (h' & Hh & Hwf).
  - apply fresh_heap_well_formed.
  - intros Haos. inversion Haos; discriminate.
  - unfold heap_0_1. by rewrite Hh.
Qed.

Lemma heap_0_1_no_ancestor (a : node) :
  a ≠ 0%nat → ¬ ancestor_or_self heap_0_1 a 0%nat.
Proof. intros Ha Haos. inversion Haos; [done | discriminate]. Qed.

Lemma heap_0_12_well_formed : well_formed heap_0_12.
Proof.
  destruct (appendChild_well_formed heap_0_1 0%nat 2%nat) as (h' & Hh & Hwf).
  - apply heap_0_1_well_formed.
  - by apply heap_0_1_no_ancestor.
  - unfold heap_0_12. by rewrite Hh.
Qed.

(** C7, as amended.  On a well-formed tree removeChild keeps the tree
    well formed: no node under two parents, both sides of the parent /
    child relation in agreement, no node twice among its siblings, no
    cycle.  So do appendChild and insertBefore when the node they insert
    is neither the receiver nor one of its ancestors, and so does
    replaceChild when in addition the new child is not one of the
    receiver's children up to and including the old child. *)
Theorem mutations_preserve_tree_invariants (h : Heap) (this n x : node)
    (referenceNode : option node) :
  well_formed h →
  well_formed (snd (removeChild this x h)) ∧
  (¬ ancestor_or_self h n this →
   well_formed (snd (appendChild this n h)) ∧
   well_formed (snd (insertBefore this n referenceNode h)) ∧
   (n ∉ take (S (Z.to_nat (indexOf (childNodes (h this)) x)))
          (childNodes (h this)) →
    well_formed (snd (replaceChild this n x h)))).
Proof.
  intros Hwf. split; [by apply removeChild_well_formed|].
  intros Hanc. split_and!.
  - by destruct (appendChild_well_formed h this n) as (h' & -> & ?).
  - by apply insertBefore_well_formed.
  - by apply replaceChild_well_formed.
Qed.

Lemma mutations_preserve_tree_invariants_witness :
  well_formed (snd (removeChild 0%nat 1%nat heap_0_1)) ∧
  well_formed (snd (appendChild 0%nat 2%nat heap_0_1)) ∧
  well_formed (snd (insertBefore 0%nat 2%nat (Some 1%nat) heap_0_1)) ∧
  well_formed (snd (replaceChild 0%nat 2%nat 1%nat heap_0_1)).
Proof.
  destruct (mutations_preserve_tree_invariants heap_0_1 0%nat 2%nat 1%nat
              (Some 1%nat) heap_0_1_well_formed) as [Hrem Hins].
  destruct (Hins (heap_0_1_no_ancestor 2%nat ltac:(done)))
    as (Happ & Hbef & Hrep).
  split_and!; [done..|]. apply Hrep. vm_compute.
  intros H. apply list_elem_of_singleton in H. discriminate H.
Defined.

(** C7, as stated, fails: no mutation checks that the inserted node is
    not an ancestor of the receiver.  With 1 the only child of 0, the call
    [1.appendChild(0)] makes each of the two nodes the parent of the
    other. *)
Lemma appendChild_of_parent_makes_cycle :
  well_formed heap_0_1 ∧
  fst (appendChild 1%nat 0%nat heap_0_1) = Ok 0%nat ∧
  ¬ well_formed (snd (appendChild 1%nat 0%nat heap_0_1)).
Proof.
  split_and!; [apply heap_0_1_well_formed|done|].
  intros [_ _ _ Hac].
  set (h' := snd (appendChild 1%nat 0%nat heap_0_1)) in *.
  assert (Hloop : ∀ n, rooted h' n → n ≠ 0%nat ∧ n ≠ 1%nat).
  { intros n Hn. induction Hn as [n Hn|n p Hn _ [IH0 IH1]].
    - split; intros ->; vm_compute in Hn; discriminate.
    - split; intros ->; vm_compute in Hn; injection Hn as <-; done. }
  by destruct (Hloop 0%nat (Hac 0%nat)).
Qed.

(** The stale index of replaceChild.  With 1 and 2 the children of 0, in
    this order, [0.replaceChild(1, 2)] detaches 1 first, which moves 2 to
    index 0, and then writes 1 at index 1: node 2 stays among the children
    of 0 although its parent reference has been cleared. *)
Lemma replaceChild_by_earlier_sibling :
  let h' := snd (replaceChild 0%nat 1%nat 2%nat heap_0_12) in
  well_formed heap_0_12 ∧
  childNodes (heap_0_12 0%nat) = [1; 2]%nat ∧
  childNodes (h' 0%nat) = [2; 1]%nat ∧
  parentNode (h' 2%nat) = None.
Proof. split_and!; [apply heap_0_12_well_formed|done..]. Qed.

(** ** The event object during a dispatch *)

Lemma evolves_refl (e : Event) : evolves e e.
Proof. by split. Qed.

Lemma evolves_trans (e1 e2 e3 : Event) :
  evolves e1 e2 → evolves e2 e3 → evolves e1 e3.
Proof.
  intros H12 H23. split.
  - rewrite (ev_type _ _ H23). apply H12.
  - rewrite (ev_bubbles _ _ H23). apply H12.
  - rewrite (ev_cancelable _ _ H23). apply H12.
  - rewrite (ev_timeStamp _ _ H23). apply H12.
  - rewrite (ev_target _ _ H23). apply H12.
  - intros H. by apply H23, H12.
  - intros H. by apply H23, H12.
  - intros H. by apply H23, H12.
  - intros Hc. rewrite (ev_not_cancelable _ _ H23).
    + by apply H12.
    + by rewrite (ev_cancelable _ _ H12).
Qed.

Lemma evolves_set_currentTarget (t : option node) (e : Event) :
  evolves e (set_currentTarget t e).
Proof. by split. Qed.

Lemma evolves_set_phase (ph : Z) (e : Event) : evolves e (set_phase ph e).
Proof. by split. Qed.

Lemma apply_call_evolves (e : Event) (c : EventCall) :
  evolves e (apply_call e c) ∧
  _phase (apply_call e c) = _phase e ∧
  _currentTarget (apply_call e c) = _currentTarget e.
Proof.
  destruct c; simpl; unfold preventDefault;
    try destruct (cancelable e) eqn:Hc; split_and!; try done;
    split; simpl; congruence || done.
Qed.

Lemma apply_calls_evolves (cs : list EventCall) (e : Event) :
  evolves e (foldl apply_call e cs) ∧
  _phase (foldl apply_call e cs) = _phase e ∧
  _currentTarget (foldl apply_call e cs) = _currentTarget e.
Proof.
  revert e. induction cs as [|c cs IH]; intros e; simpl.
  - split_and!; [apply evolves_refl|done..].
  - destruct (IH (apply_call e c)) as (He & Hp & Ht).
    destruct (apply_call_evolves e c) as (He' & Hp' & Ht').
    split_and!; [by eapply evolves_trans|congruence..].
Qed.

Lemma stopped_after_calls (cs : list EventCall) (e : Event) :
  _propagationStopped (foldl apply_call e cs) = true ↔
  _propagationStopped e = true ∨
  CallStopPropagation ∈ cs ∨ CallStopImmediatePropagation ∈ cs.
Proof.
  revert e. induction cs as [|c cs IH]; intros e; simpl.
  - rewrite !elem_of_nil. tauto.
  - rewrite IH, !elem_of_cons.
    destruct c; simpl; unfold preventDefault;
      try destruct (cancelable e); simpl; intuition congruence.
Qed.

Lemma immediate_after_calls (cs : list EventCall) (e : Event) :
  _immediatePropagationStopped (foldl apply_call e cs) = true ↔
  _immediatePropagationStopped e = true ∨
  CallStopImmediatePropagation ∈ cs.
Proof.
  revert e. induction cs as [|c cs IH]; intros e; simpl.
  - rewrite !elem_of_nil. tauto.
  - rewrite IH, !elem_of_cons.
    destruct c; simpl; unfold preventDefault;
      try destruct (cancelable e); simpl; intuition congruence.
Qed.

(** ** One listener *)

Lemma listeners_at_ordinary (o : NodeObj) (ty : string) :
  ordinary ty →
  listeners_at o ty =
  match _listeners o !! ty with
  | Some l => Own l
  | None => Undefined
  end.
Proof.
  intros Hty. unfold listeners_at. destruct (_listeners o !! ty); [done|].
  by rewrite decide_False.
Qed.

Lemma listeners_at_inherited (o : NodeObj) (ty : string) :
  listeners_at o ty = Inherited ↔
  ty ∈ Object_prototype ∧ _listeners o !! ty = None.
Proof.
  unfold listeners_at. destruct (_listeners o !! ty).
  - split; [done|]. by intros [_ ?].
  - destruct (decide (ty ∈ Object_prototype)); split; try done.
    by intros [? _].
Qed.

(** Unless the type finds an inherited property, the two methods of the
    registry return. *)
Lemma removeEventListener_ok (this : node) (ty : string) (f : callback)
    (options : Options) (h : Heap) :
  listeners_at (h this) ty ≠ Inherited →
  fst (removeEventListener this ty f options h) = Ok tt.
Proof.
  unfold removeEventListener, bind, get; simpl.
  by destruct (listeners_at (h this) ty).
Qed.

Lemma removeEventListener_inherited (this : node) (ty : string)
    (f : callback) (options : Options) (h : Heap) :
  listeners_at (h this) ty = Inherited →
  removeEventListener this ty f options h = (Throw (TypeError "filter"), h).
Proof.
  intros Hin. unfold removeEventListener, bind, get; simpl. by rewrite Hin.
Qed.

Lemma ordinary_not_inherited (o : NodeObj) (ty : string) :
  ordinary ty → listeners_at o ty ≠ Inherited.
Proof. intros Hty [Hin _]%listeners_at_inherited. by apply Hty. Qed.

Section One_listener.

Variable bodies : Bodies.

(** _executeListner does not throw for an ordinary type: what the
    callback throws is caught and written to the console. *)
Lemma executeListner_fire (this : node) (en : entry) (s : State) :
  ordinary (type (event s)) →
  _executeListner bodies this en s = (Ok tt, fire bodies this en s).
Proof.
  intros Hty.
  unfold _executeListner, fire, bind, try_catch, call_listener, console_error,
    modify, get, on_heap, ret.
  destruct (once en); simpl.
  - destruct (removeEventListener this (type (event s)) (listener en)
                (OptObj (Some (capture en)) None) (heap s)) as [r h1] eqn:Hr.
    pose proof (removeEventListener_ok this (type (event s)) (listener en)
                  (OptObj (Some (capture en)) None) (heap s)
                  (ordinary_not_inherited _ _ Hty)) as Hok.
    rewrite Hr in Hok. simpl in Hok. subst r. simpl.
    destruct (out_throw _); simpl; by rewrite ?app_nil_r.
  - destruct s as [h e c t]; simpl.
    destruct (out_throw _); simpl; by rewrite ?app_nil_r.
Qed.

Lemma fire_type (this : node) (en : entry) (s : State) :
  type (event (fire bodies this en s)) = type (event s).
Proof.
  unfold fire. cbn [event].
  destruct (apply_calls_evolves
              (out_calls (bodies (listener en) this (event s)
                 (if once en
                  then snd (removeEventListener this (type (event s))
                              (listener en) (OptObj (Some (capture en)) None)
                              (heap s))
                  else heap s)))
              (event s)) as (Hev & _).
  apply Hev.
Qed.

(** The invocation recorded by [fire]. *)
Lemma fire_trace (this : node) (en : entry) (s : State) :
  ∃ i, trace (fire bodies this en s) = trace s ++ [i] ∧
       console (fire bodies this en s) = console s ++ reported [i] ∧
       inv_this i = this ∧ inv_phase i = _phase (event s) ∧
       inv_entry i = en ∧
       event (fire bodies this en s) = foldl apply_call (event s) (inv_calls i).
Proof.
  eexists. split; [done|]. unfold reported; simpl.
  destruct (out_throw _); done.
Qed.

End One_listener.

(** ** One node *)

Section One_node.

Variable bodies : Bodies.

Lemma entries_loop_cons (this : node) (sel : entry → bool) (en : entry)
    (rest : list entry) (s : State) :
  ordinary (type (event s)) →
  entries_loop bodies this sel (en :: rest) s =
  if sel en then
    if _immediatePropagationStopped (event (fire bodies this en s))
    then (Ok tt, fire bodies this en s)
    else entries_loop bodies this sel rest (fire bodies this en s)
  else entries_loop bodies this sel rest s.
Proof.
  intros Hty. unfold entries_loop; simpl. unfold bind at 1.
  destruct (sel en); simpl; [|done].
  unfold bind at 1. rewrite executeListner_fire by done.
  unfold bind, get, ret; simpl.
  by destruct (_immediatePropagationStopped _).
Qed.

Lemma run_of_nil (this : node) (s : State) : run_of this [] s s [].
Proof.
  split.
  - by rewrite app_nil_r.
  - by rewrite app_nil_r.
  - done.
  - done.
  - done.
  - intros pre i post Hnil. by destruct pre.
  - done.
  - done.
  - apply evolves_refl.
  - done.
  - done.
Qed.

(** The visit that stops after its first invocation. *)
Lemma run_of_last (this : node) (en : entry) (eligible : list entry)
    (s : State) :
  _immediatePropagationStopped (event (fire bodies this en s)) = true →
  ∃ i, run_of this (en :: eligible) s (fire bodies this en s) [i].
Proof.
  intros Himm.
  destruct (fire_trace bodies this en s) as (i & Ht & Hc & Hthis & Hph & Hen & He).
  destruct (apply_calls_evolves (inv_calls i) (event s)) as (Hev & Hp & Hct).
  exists i. split.
  - done.
  - done.
  - simpl. rewrite Hen. by apply prefix_cons, prefix_nil.
  - by repeat constructor.
  - intros Hni. congruence.
  - intros pre j post Heq _. by destruct pre as [|? [|]]; simplify_eq/=.
  - intros Hns. constructor; [|constructor]. intros Hstop.
    rewrite He in Hns. apply not_true_iff_false in Hns. apply Hns.
    apply stopped_after_calls. by right.
  - intros Hs Hni. apply Forall_inv in Hni.
    rewrite He, immediate_after_calls in Himm.
    destruct Himm as [?|?]; [congruence|done].
  - by rewrite He.
  - by rewrite He.
  - by rewrite He.
Qed.

(** A first invocation that does not stop the visit, followed by the run
    of the rest of it. *)
Lemma run_of_cons (this : node) (en : entry) (eligible : list entry)
    (s s' : State) (items : list Invocation) :
  _immediatePropagationStopped (event (fire bodies this en s)) = false →
  run_of this eligible (fire bodies this en s) s' items →
  ∃ i, run_of this (en :: eligible) s s' (i :: items).
Proof.
  intros Himm Hrun.
  destruct (fire_trace bodies this en s) as (i & Ht & Hc & Hthis & Hph & Hen & He).
  destruct (apply_calls_evolves (inv_calls i) (event s)) as (Hev & Hp & Hct).
  rewrite <- He in Hev, Hp, Hct.
  assert (Hi_imm : ¬ calls_stop_immediate i).
  { intros Hcall. apply not_true_iff_false in Himm. apply Himm.
    rewrite He. apply immediate_after_calls. by right. }
  exists i. destruct Hrun. split.
  - rewrite run_trace0, Ht. by rewrite <- app_assoc.
  - rewrite run_console0, Hc. unfold reported. simpl.
    destruct (inv_throw i); simpl; by rewrite <- app_assoc.
  - simpl. rewrite Hen. by apply prefix_cons.
  - constructor; [done|]. eapply Forall_impl; [done|].
    cbv beta. intros j [? ?]. split; congruence.
  - intros Hs'. simpl. rewrite Hen. f_equal. by apply run_all0.
  - intros pre j post Heq Hj. destruct pre as [|? pre]; simplify_eq/=; [done|].
    by eapply run_last0.
  - intros Hns. constructor; [|by apply run_not_stopped0].
    intros Hstop.
    assert (Hs1 : _propagationStopped (event (fire bodies this en s)) = true).
    { rewrite He. apply stopped_after_calls. by right. }
    apply (ev_stopped _ _ run_evolves0) in Hs1. congruence.
  - intros Hs Hni. apply run_not_immediate0; [done|].
    by apply Forall_inv_tail in Hni.
  - by eapply evolves_trans.
  - congruence.
  - congruence.
Qed.

(** The iteration over a snapshot, whatever the listeners do. *)
Lemma entries_loop_run (this : node) (sel : entry → bool)
    (snapshot : list entry) (s : State) :
  ordinary (type (event s)) →
  ∃ s' items,
    entries_loop bodies this sel snapshot s = (Ok tt, s') ∧
    run_of this (filter (λ en, sel en = true) snapshot) s s' items.
Proof.
  revert s. induction snapshot as [|en rest IH]; intros s Hty.
  - exists s, []. split; [done|]. apply run_of_nil.
  - rewrite entries_loop_cons by done. destruct (sel en) eqn:Hsel.
    + rewrite filter_cons_True by done.
      destruct (_immediatePropagationStopped (event (fire bodies this en s)))
        eqn:Himm.
      * destruct (run_of_last this en (filter (λ en, sel en = true) rest) s Himm)
          as (i & Hrun).
        by exists (fire bodies this en s), [i].
      * destruct (IH (fire bodies this en s)) as (s' & items & -> & Hrun).
        { by rewrite fire_type. }
        destruct (run_of_cons this en _ s s' items Himm Hrun) as (i & Hrun').
        by exists s', (i :: items).
    + rewrite filter_cons_False by (by rewrite Hsel).
      by apply IH.
Qed.

End One_node.

(** ** The stops of a dispatch *)

Lemma follows_nil (sched : list slot) : follows sched [].
Proof.
  induction sched as [|k sched IH]; simpl; [done|].
  exists [], []. split_and!; try done.
  intros pre i post Hnil. by destruct pre.
Qed.

Lemma follows_app (sched1 sched2 : list slot) (items1 items2 : list Invocation) :
  follows sched1 items1 →
  follows sched2 items2 →
  (Exists calls_stop items1 → items2 = []) →
  follows (sched1 ++ sched2) (items1 ++ items2).
Proof.
  revert items1. induction sched1 as [|k sched1 IH]; intros items1; simpl.
  - by intros -> ? _.
  - intros (run & rest & -> & Hslot & Hlast & Hstop & Hrest) H2 Hnone.
    exists run, (rest ++ items2). split_and!; try done.
    + by rewrite app_assoc.
    + intros Hex. rewrite (Hstop Hex), Hnone; [done|].
      apply Exists_app. by left.
    + apply IH; [done..|]. intros Hex. apply Hnone, Exists_app. by right.
Qed.

Lemma reported_app (items1 items2 : list Invocation) :
  reported (items1 ++ items2) = reported items1 ++ reported items2.
Proof. apply omap_app. Qed.

Lemma not_stopped_no_stop (items : list Invocation) :
  Forall (λ i, ¬ calls_stop i) items → ¬ Exists calls_stop items.
Proof.
  intros Hall Hex. apply Exists_exists in Hex as (i & Hi & Hstop).
  by apply (proj1 (Forall_forall _ _) Hall i Hi).
Qed.

Lemma segment_idle (sched : list slot) (s s' : State) :
  trace s' = trace s → console s' = console s →
  evolves (event s) (event s') →
  segment sched s s' [].
Proof.
  intros Ht Hc He. split; try done.
  - by rewrite app_nil_r.
  - by rewrite app_nil_r.
  - apply follows_nil.
Qed.

Lemma segment_app (sched1 sched2 : list slot) (s s1 s2 : State)
    (items1 items2 : list Invocation) :
  segment sched1 s s1 items1 →
  segment sched2 s1 s2 items2 →
  segment (sched1 ++ sched2) s s2 (items1 ++ items2).
Proof.
  intros H1 H2. split.
  - rewrite (seg_trace _ _ _ _ H2), (seg_trace _ _ _ _ H1).
    by rewrite app_assoc.
  - rewrite (seg_console _ _ _ _ H2), (seg_console _ _ _ _ H1).
    by rewrite reported_app, app_assoc.
  - apply follows_app; [apply H1|apply H2|].
    intros Hex. apply (seg_stopped _ _ _ _ H2).
    destruct (_propagationStopped (event s1)) eqn:Hs1; [done|].
    by destruct (not_stopped_no_stop items1 (seg_not_stopped _ _ _ _ H1 Hs1)).
  - intros Hs2. apply Forall_app. split.
    + apply (seg_not_stopped _ _ _ _ H1).
      destruct (_propagationStopped (event s1)) eqn:Hs1; [|done].
      apply (ev_stopped _ _ (seg_evolves _ _ _ _ H2)) in Hs1. congruence.
    + by apply (seg_not_stopped _ _ _ _ H2).
  - intros Hs. rewrite (seg_stopped _ _ _ _ H1 Hs). simpl.
    apply (seg_stopped _ _ _ _ H2).
    by apply (ev_stopped _ _ (seg_evolves _ _ _ _ H1)).
  - eapply evolves_trans; [apply H1|apply H2].
Qed.

(** ** The phases *)

Lemma filter_all_true (l : list entry) : filter (λ _ : entry, true = true) l = l.
Proof.
  induction l as [|x l IH]; [done|]. rewrite filter_cons_True by done.
  by rewrite IH.
Qed.

Lemma filter_capture_eqb (forCapture : bool) (l : list entry) :
  filter (λ en, eqb (capture en) forCapture = true) l =
  filter (λ en, capture en = forCapture) l.
Proof. apply list_filter_iff. intros en. apply eqb_true_iff. Qed.

Section Phases.

Variable bodies : Bodies.

Lemma invokeListeners_loop (this : node) (forCapture : bool) (s : State) :
  ordinary (type (event s)) →
  _invokeListeners bodies this forCapture s =
  entries_loop bodies this (λ en, eqb (capture en) forCapture)
    (regs (heap s) this (type (event s))) s.
Proof.
  intros Hty. unfold _invokeListeners, regs, bind, get; simpl.
  rewrite listeners_at_ordinary by done.
  by destruct (_listeners (heap s this) !! type (event s)).
Qed.

Lemma invokeListenersAtTarget_loop (this : node) (s : State) :
  ordinary (type (event s)) →
  _invokeListenersAtTarget bodies this s =
  entries_loop bodies this (λ _, true)
    (regs (heap s) this (type (event s))) s.
Proof.
  intros Hty. unfold _invokeListenersAtTarget, regs, bind, get; simpl.
  rewrite listeners_at_ordinary by done.
  by destruct (_listeners (heap s this) !! type (event s)).
Qed.

(** On a type that finds an inherited property both visits throw, before
    any listener is invoked. *)
Lemma invokeListeners_inherited (this : node) (forCapture : bool)
    (s : State) :
  listeners_at (heap s this) (type (event s)) = Inherited →
  _invokeListeners bodies this forCapture s = (Throw (TypeError "spread"), s) ∧
  _invokeListenersAtTarget bodies this s = (Throw (TypeError "spread"), s).
Proof.
  intros Hin. unfold _invokeListeners, _invokeListenersAtTarget, bind, get.
  simpl. by rewrite Hin.
Qed.

(** A visit outside the target phase runs over the entries of the
    snapshot whose capture flag is [forCapture]. *)
Lemma invokeListeners_run (this : node) (forCapture : bool) (s : State) :
  ordinary (type (event s)) →
  ∃ s' items,
    _invokeListeners bodies this forCapture s = (Ok tt, s') ∧
    run_of this
      (filter (λ en, capture en = forCapture)
         (regs (heap s) this (type (event s)))) s s' items.
Proof.
  intros Hty. rewrite invokeListeners_loop, <- filter_capture_eqb by done.
  by apply entries_loop_run.
Qed.

(** The visit of the target runs over the whole snapshot. *)
Lemma invokeListenersAtTarget_run (this : node) (s : State) :
  ordinary (type (event s)) →
  ∃ s' items,
    _invokeListenersAtTarget bodies this s = (Ok tt, s') ∧
    run_of this (regs (heap s) this (type (event s))) s s' items.
Proof.
  intros Hty. rewrite invokeListenersAtTarget_loop by done.
  destruct (entries_loop_run bodies this (λ _, true)
              (regs (heap s) this (type (event s))) s Hty)
    as (s' & items & Heq & Hrun).
  rewrite filter_all_true in Hrun. by exists s', items.
Qed.

(** A visit as a stretch of the dispatch. *)
Lemma run_segment (k : slot) (sched : list slot) (eligible : list entry)
    (s s' : State) (items : list Invocation) :
  _propagationStopped (event s) = false →
  slot_phase k = _phase (event s) →
  (∀ c, slot_capture k = Some c → Forall (λ en, capture en = c) eligible) →
  run_of (slot_node k) eligible s s' items →
  segment (k :: sched) s s' items.
Proof.
  intros Hs Hph Hcap Hrun. split.
  - apply Hrun.
  - apply Hrun.
  - simpl. exists items, []. split_and!.
    + by rewrite app_nil_r.
    + apply Forall_forall. intros i Hi. split_and!.
      * by apply (proj1 (Forall_forall _ _) (run_where _ _ _ _ _ Hrun) i Hi).
      * rewrite Hph.
        by apply (proj1 (Forall_forall _ _) (run_where _ _ _ _ _ Hrun) i Hi).
      * intros c Hc.
        apply (proj1 (Forall_forall _ _) (Hcap c Hc)).
        eapply elem_of_prefix; [|apply Hrun].
        by apply list_elem_of_fmap_2.
    + apply Hrun.
    + done.
    + apply follows_nil.
  - apply Hrun.
  - congruence.
  - apply Hrun.
Qed.

Lemma nodes_loop_cons (forCapture : bool) (n : node) (nodes : list node)
    (s : State) :
  nodes_loop bodies forCapture (n :: nodes) s =
  if _propagationStopped (event s) then (Ok tt, s)
  else
    match _invokeListeners bodies n forCapture
            (with_event (set_currentTarget (Some n) (event s)) s) with
    | (Ok _, s2) => nodes_loop bodies forCapture nodes s2
    | (Throw e, s2) => (Throw e, s2)
    end.
Proof.
  unfold nodes_loop; simpl. unfold bind, get, update_event, modify, ret; simpl.
  destruct (_propagationStopped (event s)); [done|].
  by destruct (_invokeListeners bodies n forCapture _) as [[[]|e] s2].
Qed.

Lemma nodes_loop_segment (forCapture : bool) (ph : Z) (nodes : list node)
    (s : State) :
  ordinary (type (event s)) →
  _phase (event s) = ph →
  ∃ s' items,
    nodes_loop bodies forCapture nodes s = (Ok tt, s') ∧
    segment
      ((λ n, {| slot_node := n; slot_phase := ph;
                 slot_capture := Some forCapture |}) <$> nodes)
      s s' items ∧
    _phase (event s') = ph.
Proof.
  revert s. induction nodes as [|n nodes IH]; intros s Hty Hph.
  - exists s, []. split_and!; [reflexivity| |done].
    apply segment_idle; [done..|apply evolves_refl].
  - rewrite nodes_loop_cons.
    destruct (_propagationStopped (event s)) eqn:Hs.
    + exists s, []. split_and!; [done| |done].
      apply segment_idle; [done..|apply evolves_refl].
    + set (s1 := with_event (set_currentTarget (Some n) (event s)) s).
      destruct (invokeListeners_run n forCapture s1 Hty)
        as (s2 & run & Hvisit & Hrun).
      rewrite Hvisit.
      destruct (IH s2) as (s' & items & Hloop & Hseg & Hph').
      { by rewrite (ev_type _ _ (run_evolves _ _ _ _ _ Hrun)). }
      { by rewrite (run_phase _ _ _ _ _ Hrun). }
      rewrite Hloop.
      exists s', (run ++ items). split_and!; [done| |done].
      rewrite fmap_cons.
      apply (segment_app [_] _ s s2 s'); [|done].
      assert (Hidle : segment [] s s1 []).
      { apply segment_idle; [done..|apply evolves_set_currentTarget]. }
      apply (segment_app [] [_] s s1 s2 [] run Hidle).
      eapply run_segment; [done|done| |done].
      intros c [= <-]. apply Forall_forall.
      by intros en [? _]%list_elem_of_filter.
Qed.

End Phases.

(** ** The whole dispatch *)

Lemma bind_ok {S A B} (m : M S A) (k : A → M S B) (s s' : S) (a : A) :
  m s = (Ok a, s') → bind m k s = k a s'.
Proof. unfold bind. by intros ->. Qed.

Section Whole_dispatch.

Variable bodies : Bodies.

Lemma dispatch_phases_loops (this : node) (path : list node) :
  dispatch_phases bodies this path =
  (update_event (set_phase CAPTURING_PHASE) ;;
   nodes_loop bodies true (take (length path - 1) path) ;;
   s <- get ;;
   (if negb (_propagationStopped (event s)) then
      update_event (set_phase AT_TARGET) ;;
      update_event (set_currentTarget (Some this)) ;;
      _invokeListenersAtTarget bodies this
    else ret tt) ;;
   s <- get ;;
   (if negb (_propagationStopped (event s)) && bubbles (event s) then
      update_event (set_phase BUBBLING_PHASE) ;;
      nodes_loop bodies false (reverse (take (length path - 1) path))
    else ret tt) ;;
   s <- get ;;
   ret (negb (defaultPrevented (event s)))).
Proof. reflexivity. Qed.

(** The target phase as a stretch of the dispatch. *)
Lemma target_phase_segment (this : node) (s : State) :
  ordinary (type (event s)) →
  ∃ s' items,
    (if negb (_propagationStopped (event s)) then
       update_event (set_phase AT_TARGET) ;;
       update_event (set_currentTarget (Some this)) ;;
       _invokeListenersAtTarget bodies this
     else ret tt) s = (Ok tt, s') ∧
    segment [{| slot_node := this; slot_phase := AT_TARGET;
                slot_capture := None |}] s s' items.
Proof.
  intros Hty. destruct (_propagationStopped (event s)) eqn:Hs; simpl.
  - exists s, []. split; [done|].
    apply segment_idle; [done..|apply evolves_refl].
  - erewrite bind_ok by reflexivity. erewrite bind_ok by reflexivity.
    set (s1 := with_event _ _).
    destruct (invokeListenersAtTarget_run bodies this s1 Hty)
      as (s' & items & Hvisit & Hrun).
    exists s', items. split; [done|].
    assert (Hidle : segment [] s s1 []).
    { apply segment_idle; [done..|].
      eapply evolves_trans;
        [apply evolves_set_phase|apply evolves_set_currentTarget]. }
    apply (segment_app [] [_] s s1 s' [] items Hidle).
    eapply run_segment; [done|done| |done]. by intros c [=].
Qed.

(** The bubbling phase as a stretch of the dispatch. *)
Lemma bubbling_phase_segment (nodes : list node) (s : State) :
  ordinary (type (event s)) →
  ∃ s' items,
    (if negb (_propagationStopped (event s)) && bubbles (event s) then
       update_event (set_phase BUBBLING_PHASE) ;;
       nodes_loop bodies false nodes
     else ret tt) s = (Ok tt, s') ∧
    segment
      (if bubbles (event s) then
         (λ n, {| slot_node := n; slot_phase := BUBBLING_PHASE;
                   slot_capture := Some false |}) <$> nodes
       else []) s s' items.
Proof.
  intros Hty. destruct (_propagationStopped (event s)) eqn:Hs; simpl.
  { exists s, []. split; [done|].
    apply segment_idle; [done..|apply evolves_refl]. }
  destruct (bubbles (event s)) eqn:Hb; simpl.
  2: { exists s, []. split; [done|].
       apply segment_idle; [done..|apply evolves_refl]. }
  erewrite bind_ok by reflexivity.
  set (s1 := with_event _ _).
  destruct (nodes_loop_segment bodies false BUBBLING_PHASE nodes s1)
    as (s' & items & Hloop & Hseg & _); [done|done|].
  exists s', items. split; [done|].
  assert (Hidle : segment [] s s1 []).
  { apply segment_idle; [done..|apply evolves_set_phase]. }
  apply (segment_app [] _ s s1 s' [] items Hidle Hseg).
Qed.

(** dispatchEvent, once the path is known: it returns the negation of
    [defaultPrevented], and its invocations follow the schedule. *)
Lemma dispatch_phases_segment (this : node) (path : list node) (s : State) :
  ordinary (type (event s)) →
  ∃ s' items,
    dispatch_phases bodies this path s =
      (Ok (negb (defaultPrevented (event s'))), s') ∧
    segment (schedule this path (bubbles (event s))) s s' items.
Proof.
  intros Hty. rewrite dispatch_phases_loops.
  erewrite bind_ok by reflexivity.
  set (s0 := with_event _ _).
  destruct (nodes_loop_segment bodies true CAPTURING_PHASE
              (take (length path - 1) path) s0)
    as (s1 & items1 & Hloop & Hseg1 & _); [done|done|].
  erewrite bind_ok by exact Hloop.
  assert (Hty1 : ordinary (type (event s1))).
  { by rewrite (ev_type _ _ (seg_evolves _ _ _ _ Hseg1)). }
  destruct (target_phase_segment this s1 Hty1)
    as (s2 & items2 & Htgt & Hseg2).
  erewrite bind_ok by reflexivity. cbv beta.
  erewrite bind_ok by exact Htgt.
  assert (Hty2 : ordinary (type (event s2))).
  { by rewrite (ev_type _ _ (seg_evolves _ _ _ _ Hseg2)). }
  destruct (bubbling_phase_segment (reverse (take (length path - 1) path)) s2
              Hty2)
    as (s3 & items3 & Hbub & Hseg3).
  erewrite bind_ok by reflexivity. cbv beta.
  erewrite bind_ok by exact Hbub.
  exists s3, (items1 ++ items2 ++ items3). split; [done|].
  assert (Hidle : segment [] s s0 []).
  { apply segment_idle; [done..|apply evolves_set_phase]. }
  unfold schedule.
  apply (segment_app [] _ s s0 s3 [] _ Hidle).
  apply (segment_app _ _ s0 s1 s3 _ _ Hseg1).
  apply (segment_app _ _ s1 s2 s3 _ _ Hseg2).
  replace (bubbles (event s)) with (bubbles (event s2)); [done|].
  rewrite (ev_bubbles _ _ (seg_evolves _ _ _ _ Hseg2)).
  rewrite (ev_bubbles _ _ (seg_evolves _ _ _ _ Hseg1)). done.
Qed.

End Whole_dispatch.

(** ** The path *)

Lemma height_functional (h : Heap) (n : node) (d1 d2 : nat) :
  height h n d1 → height h n d2 → d1 = d2.
Proof.
  intros H1. revert d2. induction H1 as [n Hn|n p d Hn _ IH]; intros d2 H2.
  - inversion H2; congruence.
  - inversion H2 as [|? p' d' Hn' Hp']; [congruence|]. subst.
    f_equal. apply IH. congruence.
Qed.

(** A path loop that ends has collected the proper ancestors of the node
    it started from, outermost first, in front of that node; no node
    occurs twice. *)
Lemma path_loop_shape (fuel : nat) (h : Heap) (c : node) (acc path : list node) :
  path_loop fuel h (Some c) acc = Some path →
  ∃ l d, path = l ++ c :: acc ∧ height h c d ∧
         Forall (λ m, ∃ d', height h m d' ∧ (d' < d)%nat) l ∧ NoDup l.
Proof.
  revert c acc. induction fuel as [|fuel IH]; intros c acc; simpl; [done|].
  destruct (parentNode (h c)) as [q|] eqn:Hc.
  - intros (l & d & -> & Hq & Hlow & Hnd)%IH.
    exists (l ++ [q]), (S d). split_and!.
    + by rewrite <- app_assoc.
    + by apply height_step with q.
    + apply Forall_app. split.
      * eapply Forall_impl; [done|]. intros m (d' & ? & ?). exists d'.
        split; [done|lia].
      * constructor; [|done]. exists d. split; [done|lia].
    + apply NoDup_app. split_and!; [done| |apply NoDup_singleton].
      intros m Hm ->%list_elem_of_singleton.
      destruct (proj1 (Forall_forall _ _) Hlow q Hm) as (d' & Hd' & Hlt).
      pose proof (height_functional h q d d' Hq Hd'). lia.
  - destruct fuel; simpl; intros [= <-]; exists [], 0%nat;
      (split_and!; [done|by apply height_root|done|constructor]).
Qed.

Lemma path_loop_ancestors (fuel : nat) (h : Heap) (this : node)
    (path : list node) :
  path_loop fuel h (Some this) [] = Some path →
  path = take (length path - 1) path ++ [this] ∧
  NoDup (take (length path - 1) path) ∧
  this ∉ take (length path - 1) path.
Proof.
  intros (l & d & -> & Hd & Hlow & Hnd)%path_loop_shape.
  rewrite length_app; simpl.
  replace (length l + 1 - 1)%nat with (length l) by lia.
  rewrite take_app_length. split_and!; [done..|].
  intros Hin.
  destruct (proj1 (Forall_forall _ _) Hlow this Hin) as (d' & Hd' & Hlt).
  pose proof (height_functional h this d d' Hd Hd'). lia.
Qed.

(** The path of the innermost node of a chain root, A, B. *)
Lemma path_loop_chain (fuel : nat) (h : Heap) (root A B : node) :
  parentNode (h B) = Some A →
  parentNode (h A) = Some root →
  parentNode (h root) = None →
  path_loop (3 + fuel) h (Some B) [] = Some [root; A; B].
Proof. intros HB HA Hroot. simpl. rewrite HB, HA, Hroot. by destruct fuel. Qed.

Lemma path_loop_root (fuel : nat) (h : Heap) (n : node) :
  parentNode (h n) = None → path_loop (S fuel) h (Some n) [] = Some [n].
Proof. intros Hn. simpl. rewrite Hn. by destruct fuel. Qed.

(** On a finite parent chain the loop ends, given enough iterations. *)
Lemma rooted_path_loop (h : Heap) (n : node) :
  rooted h n →
  ∃ fuel0, ∀ fuel acc, (fuel0 ≤ fuel)%nat →
    is_Some (path_loop fuel h (Some n) acc).
Proof.
  induction 1 as [n Hn|n p Hn _ (fuel0 & IH)].
  - exists 1%nat. intros [|fuel] acc Hle; [lia|]. simpl. rewrite Hn.
    by destruct fuel.
  - exists (S fuel0). intros [|fuel] acc Hle; [lia|]. simpl. rewrite Hn.
    apply IH. lia.
Qed.

Lemma path_loop_more_fuel (fuel fuel' : nat) (h : Heap)
    (current : option node) (acc path : list node) :
  path_loop fuel h current acc = Some path → (fuel ≤ fuel')%nat →
  path_loop fuel' h current acc = Some path.
Proof.
  revert fuel' current acc.
  induction fuel as [|fuel IH]; intros fuel' current acc.
  - destruct current; [done|]. intros [= <-] _. by destruct fuel'.
  - destruct current as [c|]; [|intros [= <-] _; by destruct fuel'].
    destruct fuel' as [|fuel']; [lia|]. simpl. intros Hpath Hle.
    apply IH; [done|lia].
Qed.

(** On a finite parent chain the path is the same for every bound that
    is large enough. *)
Lemma rooted_path (h : Heap) (n : node) :
  rooted h n →
  ∃ fuel0 path, ∀ fuel, (fuel0 ≤ fuel)%nat →
    path_loop fuel h (Some n) [] = Some path.
Proof.
  intros Hn. destruct (rooted_path_loop h n Hn) as (fuel0 & Hfuel).
  destruct (Hfuel fuel0 [] (le_n _)) as (path & Hpath).
  exists fuel0, path. intros fuel Hle.
  by apply (path_loop_more_fuel fuel0).
Qed.

(** On the cycle of two nodes the path loop ends for no bound. *)
Lemma path_loop_cycle (fuel : nat) (c : node) (acc : list node) :
  c = 0%nat ∨ c = 1%nat → path_loop fuel heap_cycle (Some c) acc = None.
Proof.
  revert c acc. induction fuel as [|fuel IH]; intros c acc Hc; [done|].
  simpl. destruct Hc as [-> | ->].
  - change (parentNode (heap_cycle 0%nat)) with (Some 1%nat).
    apply IH. by right.
  - change (parentNode (heap_cycle 1%nat)) with (Some 0%nat).
    apply IH. by left.
Qed.

Lemma dispatch_on_cycle (bodies : Bodies) (fuel : nat) (e : Event) :
  dispatch bodies fuel 0%nat e heap_cycle = None.
Proof.
  unfold dispatch, dispatchEvent. cbn [heap event with_event].
  rewrite path_loop_cycle; [done|by left].
Qed.

(** ** The structure of every dispatch *)


Lemma dispatch_structure (bodies : Bodies) (fuel : nat) (this : node)
    (e : Event) (h : Heap) (path : list node) :
  ordinary (type e) →
  path_loop fuel h (Some this) [] = Some path →
  ∃ s',
    dispatch bodies fuel this e h =
      Some (Ok (negb (defaultPrevented (event s'))), s') ∧
    follows (schedule this path (bubbles e)) (trace s') ∧
    console s' = reported (trace s') ∧
    evolves (set_target (Some this) e) (event s') ∧
    (_propagationStopped e = true → trace s' = []).
Proof.
  intros Hty Hpath. unfold dispatch, dispatchEvent; simpl. rewrite Hpath.
  set (s1 := with_event _ _).
  destruct (dispatch_phases_segment bodies this path s1 Hty)
    as (s' & items & -> & Hseg).
  exists s'. destruct Hseg as [Ht Hc Hf _ Hs He]. simpl in Ht, Hc.
  rewrite Ht, Hc. done.
Qed.

(** ** What a schedule implies *)

Lemma app_eq_app_cons {A} (l1 l2 pre post : list A) (x : A) :
  l1 ++ l2 = pre ++ x :: post →
  (∃ mid, l1 = pre ++ x :: mid ∧ post = mid ++ l2) ∨
  (∃ mid, pre = l1 ++ mid ∧ l2 = mid ++ x :: post).
Proof.
  revert pre. induction l1 as [|y l1 IH]; intros pre Heq; simpl in *.
  - right. by exists pre.
  - destruct pre as [|z pre]; simpl in Heq.
    + injection Heq as -> <-. left. by exists l1.
    + injection Heq as -> Heq.
      destruct (IH pre Heq) as [(mid & -> & ->)|(mid & -> & ->)].
      * left. by exists mid.
      * right. by exists mid.
Qed.

Lemma follows_cons (k : slot) (sched : list slot) (items : list Invocation) :
  follows (k :: sched) items →
  ∃ run rest,
    items = run ++ rest ∧
    Forall (in_slot k) run ∧
    (∀ pre i post, run = pre ++ i :: post →
                   calls_stop_immediate i → post = []) ∧
    (Exists calls_stop run → rest = []) ∧
    follows sched rest.
Proof. done. Qed.

Lemma follows_in_slot (sched : list slot) (items : list Invocation)
    (i : Invocation) :
  follows sched items → i ∈ items → ∃ k, k ∈ sched ∧ in_slot k i.
Proof.
  revert items. induction sched as [|k sched IH]; intros items; simpl.
  - intros -> Hi. by apply elem_of_nil in Hi.
  - intros (run & rest & -> & Hslot & _ & _ & Hrest) Hi.
    apply elem_of_app in Hi as [Hi|Hi].
    + exists k. split; [left|].
      by apply (proj1 (Forall_forall _ _) Hslot).
    + destruct (IH rest Hrest Hi) as (k' & Hk' & Hin).
      exists k'. split; [by right|done].
Qed.

(** After an invocation that stopped the propagation, only the node and
    the phase of that invocation are still served. *)
Lemma follows_after_stop (sched : list slot) (pre post : list Invocation)
    (i : Invocation) :
  follows sched (pre ++ i :: post) →
  calls_stop i →
  Forall (λ j, inv_this j = inv_this i ∧ inv_phase j = inv_phase i) post.
Proof.
  revert pre. induction sched as [|k sched IH]; intros pre; simpl.
  - intros Heq. by destruct pre.
  - intros (run & rest & Heq & Hslot & _ & Hstop & Hrest) Hi.
    symmetry in Heq.
    apply app_eq_app_cons in Heq as [(mid & -> & ->)|(mid & -> & ->)].
    + rewrite Hstop, app_nil_r.
      2: { apply Exists_app. right. by left. }
      apply Forall_app in Hslot as [_ Hslot].
      apply Forall_cons in Hslot as [(Hn & Hp & _) Hmid].
      eapply Forall_impl; [done|]. intros j (Hn' & Hp' & _).
      split; congruence.
    + by apply (IH mid).
Qed.

(** After an invocation that called stopImmediatePropagation there is no
    further invocation. *)
Lemma follows_after_stop_immediate (sched : list slot)
    (pre post : list Invocation) (i : Invocation) :
  follows sched (pre ++ i :: post) →
  calls_stop_immediate i →
  post = [].
Proof.
  revert pre. induction sched as [|k sched IH]; intros pre; simpl.
  - intros Heq. by destruct pre.
  - intros (run & rest & Heq & _ & Hlast & Hstop & Hrest) Hi.
    symmetry in Heq.
    apply app_eq_app_cons in Heq as [(mid & -> & ->)|(mid & -> & ->)].
    + rewrite Hstop.
      2: { apply Exists_app. right. left. by right. }
      rewrite (Hlast pre i mid); done.
    + by apply (IH mid).
Qed.

(** ** C5: stopImmediatePropagation *)

(** C5.  In every dispatch of an event of an ordinary type, an
    invocation in which the listener called stopImmediatePropagation is
    the last one: no later registration of the same node fires, and no
    listener of any other node of the path. *)
Theorem stopImmediatePropagation_ends_dispatch (bodies : Bodies) (fuel : nat)
    (this : node) (e : Event) (h : Heap) (path : list node) :
  ordinary (type e) →
  path_loop fuel h (Some this) [] = Some path →
  ∃ s',
    dispatch bodies fuel this e h =
      Some (Ok (negb (defaultPrevented (event s'))), s') ∧
    ∀ pre i post,
      trace s' = pre ++ i :: post →
      CallStopImmediatePropagation ∈ inv_calls i →
      post = [].
Proof.
  intros Hty Hpath.
  destruct (dispatch_structure bodies fuel this e h path Hty Hpath)
    as (s' & Hd & Hf & _).
  exists s'. split; [done|]. intros pre i post Ht Hi. rewrite Ht in Hf.
  by apply (follows_after_stop_immediate _ pre post i Hf).
Qed.

(** ** The target phase on its own *)

Section Target_phase.

Variable bodies : Bodies.

Lemma target_phase_run (this : node) (s : State) :
  ordinary (type (event s)) →
  _propagationStopped (event s) = false →
  ∃ s' items,
    (if negb (_propagationStopped (event s)) then
       update_event (set_phase AT_TARGET) ;;
       update_event (set_currentTarget (Some this)) ;;
       _invokeListenersAtTarget bodies this
     else ret tt) s = (Ok tt, s') ∧
    run_of this (regs (heap s) this (type (event s)))
      (with_event
         (set_currentTarget (Some this) (set_phase AT_TARGET (event s))) s)
      s' items.
Proof.
  intros Hty ->. simpl.
  erewrite bind_ok by reflexivity. erewrite bind_ok by reflexivity.
  exact (invokeListenersAtTarget_run bodies this
           (with_event
              (set_currentTarget (Some this) (set_phase AT_TARGET (event s)))
              s) Hty).
Qed.

(** A dispatch along a path made of the target alone. *)
Lemma dispatch_phases_alone (this : node) (s : State) :
  ordinary (type (event s)) →
  _propagationStopped (event s) = false →
  ∃ s2 s' items,
    dispatch_phases bodies this [this] s =
      (Ok (negb (defaultPrevented (event s'))), s') ∧
    run_of this (regs (heap s) this (type (event s)))
      (with_event
         (set_currentTarget (Some this)
            (set_phase AT_TARGET (set_phase CAPTURING_PHASE (event s)))) s)
      s2 items ∧
    trace s' = trace s2 ∧ console s' = console s2 ∧ heap s' = heap s2 ∧
    evolves (event s2) (event s').
Proof.
  intros Hty Hs. rewrite dispatch_phases_loops.
  erewrite bind_ok by reflexivity. erewrite bind_ok by reflexivity.
  erewrite bind_ok by reflexivity. cbv beta.
  set (s0 := with_event _ _).
  destruct (target_phase_run this s0 Hty Hs) as (s2 & items & Htgt & Hrun).
  erewrite bind_ok by exact Htgt.
  erewrite bind_ok by reflexivity. cbv beta.
  exists s2. simpl.
  destruct (negb (_propagationStopped (event s2)) && bubbles (event s2)).
  - erewrite bind_ok by reflexivity. eexists _, items.
    split; [reflexivity|]. split_and!; try done.
  - erewrite bind_ok by reflexivity. eexists _, items.
    split; [reflexivity|]. split_and!; try done.
Qed.

End Target_phase.

(** ** C10: dispatch on a node without parent *)

(** C10.  On a node whose parent reference is null the path is the node
    alone.  Whether the event, of an ordinary type, bubbles or not, every
    invocation of the dispatch is made on that node in the target phase;
    the entries
    invoked are an initial part of the node's registrations for the event
    type, in registration order, and all of them when the event comes in
    unstopped and no listener calls stopImmediatePropagation. *)
Theorem dispatch_on_parentless_node (bodies : Bodies) (fuel : nat) (n : node)
    (e : Event) (h : Heap) :
  ordinary (type e) →
  parentNode (h n) = None →
  path_loop (S fuel) h (Some n) [] = Some [n] ∧
  ∃ s',
    dispatch bodies (S fuel) n e h =
      Some (Ok (negb (defaultPrevented (event s'))), s') ∧
    Forall (λ i, inv_this i = n ∧ inv_phase i = AT_TARGET) (trace s') ∧
    (inv_entry <$> trace s') `prefix_of` regs h n (type e) ∧
    (_propagationStopped e = false →
     _immediatePropagationStopped e = false →
     Forall (λ i, ¬ calls_stop_immediate i) (trace s') →
     inv_entry <$> trace s' = regs h n (type e)).
Proof.
  intros Hty Hn. pose proof (path_loop_root fuel h n Hn) as Hpath.
  split; [done|].
  destruct (_propagationStopped e) eqn:Hs.
  - destruct (dispatch_structure bodies (S fuel) n e h [n] Hty Hpath)
      as (s' & Hd & _ & _ & _ & Hnil).
    exists s'. rewrite (Hnil Hs). split_and!; try done. apply prefix_nil.
  - unfold dispatch, dispatchEvent. cbn [heap event with_event].
    rewrite Hpath.
    set (s1 := with_event _ _).
    destruct (dispatch_phases_alone bodies n s1 Hty Hs)
      as (s2 & s' & items & -> & Hrun & Ht & _ & _ & _).
    exists s'. rewrite Ht, (run_trace _ _ _ _ _ Hrun). simpl.
    split_and!; [done| | |].
    + eapply Forall_impl; [apply Hrun|]. by intros i [? ?].
    + apply Hrun.
    + intros _ Himm Hnone. apply (run_all _ _ _ _ _ Hrun).
      by apply (run_not_immediate _ _ _ _ _ Hrun).
Qed.

(** ** C9: preventDefault on an event that is not cancelable *)

Lemma preventDefault_not_cancelable (e : Event) (k : nat) :
  cancelable e = false → Nat.iter k preventDefault e = e.
Proof.
  intros Hc. induction k as [|k IH]; simpl; [done|].
  rewrite IH. unfold preventDefault. by rewrite Hc.
Qed.

(** C9, as amended.  On a finite parent chain a dispatch of an event of
    an ordinary type returns, given enough iterations for the path loop,
    and what it returns is the negation of [defaultPrevented].  On an
    event that is not cancelable, preventDefault changes nothing, however
    often it is called; if the flag was false before the dispatch (as it
    is on a newly constructed event) it is false afterwards, whatever the
    listeners call, and the dispatch returns true. *)
Theorem preventDefault_ignored_when_not_cancelable (bodies : Bodies)
    (this : node) (e : Event) (h : Heap) :
  ordinary (type e) →
  rooted h this →
  ∃ fuel0, ∀ fuel, (fuel0 ≤ fuel)%nat →
    ∃ r s',
      dispatch bodies fuel this e h = Some (Ok r, s') ∧
      r = negb (defaultPrevented (event s')) ∧
      (cancelable e = false →
       (∀ k, Nat.iter k preventDefault e = e) ∧
       (defaultPrevented e = false →
        defaultPrevented (event s') = false ∧ r = true)).
Proof.
  intros Hty Hrooted.
  destruct (rooted_path h this Hrooted) as (fuel0 & path & Hpaths).
  exists fuel0. intros fuel Hle. pose proof (Hpaths fuel Hle) as Hpath.
  destruct (dispatch_structure bodies fuel this e h path Hty Hpath)
    as (s' & Hd & _ & _ & Hev & _).
  exists (negb (defaultPrevented (event s'))), s'. split_and!; [done..|].
  intros Hc. split; [intros k; by apply preventDefault_not_cancelable|].
  intros Hdp. rewrite (ev_not_cancelable _ _ Hev) by done. simpl.
  by rewrite Hdp.
Qed.

(** C9, as stated, fails: the dispatch of an event that is not cancelable
    need not return true.  On the store left by
    [0.appendChild(1); 1.appendChild(0)] the path loop of a dispatch on
    node 0 ends for no bound, so that the call does not return; and on a
    new node an event of type "valueOf" makes the dispatcher throw a
    TypeError. *)
Lemma dispatch_of_event_that_is_not_cancelable :
  cancelable (plain_event "click") = false ∧
  cancelable (plain_event "valueOf") = false ∧
  fst (appendChild 0%nat 1%nat fresh_heap) = Ok 1%nat ∧
  fst (appendChild 1%nat 0%nat heap_0_1) = Ok 0%nat ∧
  (∀ fuel,
     dispatch calm_bodies fuel 0%nat (plain_event "click") heap_cycle = None) ∧
  returned (dispatch calm_bodies 1 0%nat (plain_event "valueOf") fresh_heap)
    = Throw (TypeError "spread").
Proof.
  split_and!; [done..| |vm_compute; reflexivity].
  intros fuel. apply dispatch_on_cycle.
Qed.

(** ** C2: iteration over a snapshot *)

(** C2.  A visit of a node takes the registrations the node has for the
    event type, an ordinary one, when the visit starts.  Whatever the listeners do to the
    registries meanwhile, the visit invokes an initial part of the
    entries of that snapshot that the phase selects (those whose capture
    flag is [forCapture]; all of them at the target), in order, each
    occurrence once; and it invokes all of them when no listener calls
    stopImmediatePropagation.  Nothing else is invoked: an entry added
    during the visit does not fire in it. *)
Theorem visit_iterates_over_snapshot (bodies : Bodies) (this : node)
    (forCapture : bool) (s : State) :
  ordinary (type (event s)) →
  let snapshot := regs (heap s) this (type (event s)) in
  (∃ s' items,
     _invokeListeners bodies this forCapture s = (Ok tt, s') ∧
     trace s' = trace s ++ items ∧
     (inv_entry <$> items) `prefix_of`
       filter (λ en, capture en = forCapture) snapshot ∧
     (_immediatePropagationStopped (event s) = false →
      Forall (λ i, ¬ calls_stop_immediate i) items →
      inv_entry <$> items =
        filter (λ en, capture en = forCapture) snapshot)) ∧
  (∃ s' items,
     _invokeListenersAtTarget bodies this s = (Ok tt, s') ∧
     trace s' = trace s ++ items ∧
     (inv_entry <$> items) `prefix_of` snapshot ∧
     (_immediatePropagationStopped (event s) = false →
      Forall (λ i, ¬ calls_stop_immediate i) items →
      inv_entry <$> items = snapshot)).
Proof.
  intros Hty snapshot. split.
  - destruct (invokeListeners_run bodies this forCapture s Hty)
      as (s' & items & Heq & Hrun).
    exists s', items. split_and!; [done|apply Hrun..|].
    intros Himm Hnone. apply (run_all _ _ _ _ _ Hrun).
    by apply (run_not_immediate _ _ _ _ _ Hrun).
  - destruct (invokeListenersAtTarget_run bodies this s Hty)
      as (s' & items & Heq & Hrun).
    exists s', items. split_and!; [done|apply Hrun..|].
    intros Himm Hnone. apply (run_all _ _ _ _ _ Hrun).
    by apply (run_not_immediate _ _ _ _ _ Hrun).
Qed.

(** ** C4: stopPropagation *)

(** C4.  In every dispatch of an event of an ordinary type, once a
    listener has called stopPropagation
    every later invocation is made on the same node in the same phase: no
    listener of a node further along the path fires, in this phase or in
    a later one.  The rest of the visit of the current node is not cut
    short: a visit in which no listener calls stopImmediatePropagation
    invokes every entry of its snapshot that the phase selects.  In
    particular, on the path root, A, target, a capturing listener of the
    root that calls stopPropagation leaves every invocation of the
    dispatch on the root. *)
Theorem stopPropagation_halts_path_traversal (bodies : Bodies) (fuel : nat)
    (this : node) (e : Event) (h : Heap) (path : list node) :
  ordinary (type e) →
  path_loop fuel h (Some this) [] = Some path →
  (∃ s',
     dispatch bodies fuel this e h =
       Some (Ok (negb (defaultPrevented (event s'))), s') ∧
     (∀ pre i post,
        trace s' = pre ++ i :: post →
        CallStopPropagation ∈ inv_calls i →
        Forall (λ j, inv_this j = inv_this i ∧ inv_phase j = inv_phase i)
          post) ∧
     (∀ root A i,
        path = [root; A; this] →
        i ∈ trace s' →
        inv_this i = root → inv_phase i = CAPTURING_PHASE →
        CallStopPropagation ∈ inv_calls i →
        root ≠ A ∧ root ≠ this ∧
        Forall (λ j, inv_this j = root) (trace s'))) ∧
  (∀ n forCapture s,
     ordinary (type (event s)) →
     _immediatePropagationStopped (event s) = false →
     ∃ s1 items,
       _invokeListeners bodies n forCapture s = (Ok tt, s1) ∧
       trace s1 = trace s ++ items ∧
       (Forall (λ i, ¬ calls_stop_immediate i) items →
        inv_entry <$> items =
          filter (λ en, capture en = forCapture)
            (regs (heap s) n (type (event s))))) ∧
  (∀ n s,
     ordinary (type (event s)) →
     _immediatePropagationStopped (event s) = false →
     ∃ s1 items,
       _invokeListenersAtTarget bodies n s = (Ok tt, s1) ∧
       trace s1 = trace s ++ items ∧
       (Forall (λ i, ¬ calls_stop_immediate i) items →
        inv_entry <$> items = regs (heap s) n (type (event s)))).
Proof.
  intros Hty Hpath. split_and!.
  - destruct (dispatch_structure bodies fuel this e h path Hty Hpath)
      as (s' & Hd & Hf & _).
    exists s'. split_and!; [done| |].
    + intros pre i post Ht Hi. rewrite Ht in Hf.
      apply (follows_after_stop _ pre post i Hf). by left.
    + intros root A i -> Hin Hroot Hphase Hi.
      destruct (path_loop_ancestors fuel h this _ Hpath) as (_ & Hnd & Hthis).
      simpl in Hnd, Hthis.
      apply NoDup_cons in Hnd as [HA _].
      rewrite list_elem_of_singleton in HA.
      rewrite !not_elem_of_cons in Hthis. destruct Hthis as (Hr & _ & _).
      split_and!; [done|congruence|].
      apply follows_cons in Hf
        as (run & rest & Ht & Hslot & _ & Hstop & Hrest).
      rewrite Ht in Hin |- *. apply elem_of_app in Hin as [Hin|Hin].
      * rewrite Hstop, app_nil_r.
        -- eapply Forall_impl; [done|]. by intros j (? & _).
        -- apply Exists_exists. exists i. split; [done|]. by left.
      * destruct (follows_in_slot _ _ i Hrest Hin) as (k & Hk & Hn & Hp & _).
        rewrite Hroot in Hn. rewrite Hphase in Hp.
        apply elem_of_cons in Hk as [->|Hk]; [by simpl in Hn|].
        apply elem_of_cons in Hk as [->|Hk]; [by simpl in Hp|].
        destruct (bubbles e); simpl in Hk.
        -- apply elem_of_cons in Hk as [->|Hk]; [by simpl in Hp|].
           apply elem_of_cons in Hk as [->|Hk]; [by simpl in Hp|].
           by apply elem_of_nil in Hk.
        -- by apply elem_of_nil in Hk.
  - intros n forCapture s Hs Himm.
    destruct (invokeListeners_run bodies n forCapture s Hs)
      as (s1 & items & Heq & Hrun).
    exists s1, items. split_and!; [done|apply Hrun|].
    intros Hnone. apply (run_all _ _ _ _ _ Hrun).
    by apply (run_not_immediate _ _ _ _ _ Hrun).
  - intros n s Hs Himm.
    destruct (invokeListenersAtTarget_run bodies n s Hs)
      as (s1 & items & Heq & Hrun).
    exists s1, items. split_and!; [done|apply Hrun|].
    intros Hnone. apply (run_all _ _ _ _ _ Hrun).
    by apply (run_not_immediate _ _ _ _ _ Hrun).
Qed.

(** ** Registries during a dispatch *)

Lemma regs_removeEventListener (this m : node) (ty ty' : string)
    (f : callback) (options : Options) (h : Heap) :
  regs (snd (removeEventListener this ty f options h)) m ty' =
  if decide (m = this ∧ ty' = ty)
  then filter (λ x, ¬ (listener x = f ∧ capture x = options_capture options))
         (regs h this ty)
  else regs h m ty'.
Proof.
  unfold removeEventListener, listeners_at, regs, bind, get, set_listeners,
    modify, ret, throw.
  simpl. destruct (_listeners (h this) !! ty) as [l|] eqn:Hl; simpl.
  - unfold insert at 1, fn_insert.
    destruct (decide (this = m)) as [<-|Hm]; simpl.
    + destruct (decide (ty = ty')) as [<-|Hty].
      * by rewrite lookup_insert_eq, decide_True.
      * rewrite lookup_insert_ne, decide_False by (try intros [_ ?]; congruence).
        done.
    + by rewrite decide_False by (intros [? _]; congruence).
  - assert (Hsame : default [] (_listeners (h m) !! ty') =
              if decide (m = this ∧ ty' = ty)
              then filter (λ x, ¬ (listener x = f ∧
                                   capture x = options_capture options)) []
              else default [] (_listeners (h m) !! ty')).
    { destruct (decide (m = this ∧ ty' = ty)) as [[-> ->]|]; [|done].
      by rewrite Hl. }
    by destruct (decide (ty ∈ Object_prototype)).
Qed.



(** Executing entries of one capture flag leaves the registrations of
    the other flag as they are. *)
Lemma prune_other_flag (c : bool) (fired l : list entry) :
  Forall (λ en, capture en = c) fired →
  filter (λ en, capture en = negb c) (prune fired l) =
  filter (λ en, capture en = negb c) l.
Proof.
  revert l. induction fired as [|en fired IH]; intros l Hall; simpl; [done|].
  apply Forall_cons in Hall as [Hen Hall]. rewrite IH by done.
  destruct (once en); [|done].
  rewrite list_filter_filter. apply list_filter_iff. intros x.
  split; [tauto|]. intros Hx. split; [done|]. intros [_ Hcap].
  rewrite Hx, Hen in Hcap. by destruct c.
Qed.

(** ** Passive listeners *)

Lemma keys_of_run (n : node) (ph : Z) (items : list Invocation) :
  Forall (λ i, inv_this i = n ∧ inv_phase i = ph) items →
  key_of <$> items = (λ en, (n, ph, en)) <$> (inv_entry <$> items).
Proof.
  induction 1 as [|i items [Hn Hp] _ IH]; [done|].
  rewrite !fmap_cons, IH. unfold key_of. by rewrite Hn, Hp.
Qed.

Section Passive.

Variable bodies : Bodies.
Hypothesis bodies_passive : passive bodies.

Lemma fire_passive (this : node) (en : entry) (s : State) :
  (∀ m, regs (heap (fire bodies this en s)) m (type (event s)) =
        if decide (m = this)
        then prune [en] (regs (heap s) this (type (event s)))
        else regs (heap s) m (type (event s))) ∧
  _propagationStopped (event (fire bodies this en s)) =
    _propagationStopped (event s) ∧
  _immediatePropagationStopped (event (fire bodies this en s)) =
    _immediatePropagationStopped (event s) ∧
  type (event (fire bodies this en s)) = type (event s).
Proof.
  unfold fire. cbn [heap event].
  set (h1 := if once en then _ else _).
  destruct (bodies_passive (listener en) this (event s) h1)
    as (Hkeep & Hstop & Himm).
  split_and!.
  - intros m. unfold regs at 1. rewrite Hkeep. fold (regs h1 m (type (event s))).
    subst h1. simpl. destruct (once en).
    + rewrite regs_removeEventListener. simpl.
      destruct (decide (m = this)) as [->|Hm].
      * by rewrite decide_True.
      * by rewrite decide_False by (intros [? _]; congruence).
    + by destruct (decide (m = this)) as [->|].
  - pose proof (stopped_after_calls
                  (out_calls (bodies (listener en) this (event s) h1))
                  (event s)) as Hiff.
    destruct (_propagationStopped (foldl _ _ _)),
      (_propagationStopped (event s)); try done; exfalso;
      intuition congruence.
  - pose proof (immediate_after_calls
                  (out_calls (bodies (listener en) this (event s) h1))
                  (event s)) as Hiff.
    destruct (_immediatePropagationStopped (foldl _ _ _)),
      (_immediatePropagationStopped (event s)); try done; exfalso;
      intuition congruence.
  - destruct (apply_calls_evolves
                (out_calls (bodies (listener en) this (event s) h1))
                (event s)) as (Hev & _).
    apply Hev.
Qed.

(** With passive listeners a visit is never cut short, and what it
    leaves of the registrations is what the one-shot entries took. *)
Lemma entries_loop_passive (this : node) (sel : entry → bool)
    (snapshot : list entry) (s : State) :
  ordinary (type (event s)) →
  _immediatePropagationStopped (event s) = false →
  ∃ s',
    entries_loop bodies this sel snapshot s = (Ok tt, s') ∧
    (∀ m, regs (heap s') m (type (event s)) =
          if decide (m = this)
          then prune (filter (λ en, sel en = true) snapshot)
                 (regs (heap s) this (type (event s)))
          else regs (heap s) m (type (event s))) ∧
    _propagationStopped (event s') = _propagationStopped (event s) ∧
    _immediatePropagationStopped (event s') = false.
Proof.
  revert s. induction snapshot as [|en rest IH]; intros s Hord Himm.
  - exists s. split_and!; [done| |done..].
    intros m. by destruct (decide (m = this)) as [->|].
  - rewrite entries_loop_cons by done. destruct (sel en) eqn:Hsel.
    + destruct (fire_passive this en s) as (Hregs & Hstop & Himm' & Hty).
      rewrite Himm', Himm.
      destruct (IH (fire bodies this en s)) as (s' & -> & Hregs' & Hstop' & ?).
      { by rewrite Hty. }
      { congruence. }
      exists s'. split_and!; [done| |congruence|done].
      intros m. rewrite filter_cons_True by done.
      rewrite Hty in Hregs'. rewrite Hregs', !Hregs.
      destruct (decide (m = this)) as [->|]; [|done].
      by rewrite decide_True.
    + rewrite filter_cons_False by (by rewrite Hsel). by apply IH.
Qed.

End Passive.

Section Passive_dispatch.

Variable bodies : Bodies.
Hypothesis bodies_passive : passive bodies.

Lemma invokeListeners_passive (this : node) (forCapture : bool) (s : State) :
  ordinary (type (event s)) →
  _immediatePropagationStopped (event s) = false →
  ∃ s' items,
    _invokeListeners bodies this forCapture s = (Ok tt, s') ∧
    trace s' = trace s ++ items ∧
    key_of <$> items =
      (λ en, (this, _phase (event s), en)) <$>
        filter (λ en, capture en = forCapture)
          (regs (heap s) this (type (event s))) ∧
    (∀ m, regs (heap s') m (type (event s)) =
          if decide (m = this)
          then prune (filter (λ en, capture en = forCapture)
                        (regs (heap s) this (type (event s))))
                 (regs (heap s) this (type (event s)))
          else regs (heap s) m (type (event s))) ∧
    _propagationStopped (event s') = _propagationStopped (event s) ∧
    _immediatePropagationStopped (event s') = false ∧
    evolves (event s) (event s') ∧
    _phase (event s') = _phase (event s).
Proof.
  intros Hord Himm.
  destruct (invokeListeners_run bodies this forCapture s Hord)
    as (s' & items & Heq & Hrun).
  destruct (entries_loop_passive bodies bodies_passive this
              (λ en, eqb (capture en) forCapture)
              (regs (heap s) this (type (event s))) s Hord Himm)
    as (s'' & Heq' & Hregs & Hstop & Himm').
  rewrite invokeListeners_loop in Heq by done. rewrite Heq in Heq'.
  injection Heq' as <-. rewrite filter_capture_eqb in Hregs.
  exists s', items. rewrite invokeListeners_loop by done.
  split_and!; [done|apply Hrun| |done..|apply Hrun|apply Hrun].
  rewrite (keys_of_run this (_phase (event s))) by apply Hrun.
  by rewrite (run_all _ _ _ _ _ Hrun).
Qed.

Lemma invokeListenersAtTarget_passive (this : node) (s : State) :
  ordinary (type (event s)) →
  _immediatePropagationStopped (event s) = false →
  ∃ s' items,
    _invokeListenersAtTarget bodies this s = (Ok tt, s') ∧
    trace s' = trace s ++ items ∧
    key_of <$> items =
      (λ en, (this, _phase (event s), en)) <$>
        regs (heap s) this (type (event s)) ∧
    (∀ m, regs (heap s') m (type (event s)) =
          if decide (m = this)
          then prune (regs (heap s) this (type (event s)))
                 (regs (heap s) this (type (event s)))
          else regs (heap s) m (type (event s))) ∧
    _propagationStopped (event s') = _propagationStopped (event s) ∧
    _immediatePropagationStopped (event s') = false ∧
    evolves (event s) (event s') ∧
    _phase (event s') = _phase (event s).
Proof.
  intros Hord Himm.
  destruct (invokeListenersAtTarget_run bodies this s Hord)
    as (s' & items & Heq & Hrun).
  destruct (entries_loop_passive bodies bodies_passive this (λ _, true)
              (regs (heap s) this (type (event s))) s Hord Himm)
    as (s'' & Heq' & Hregs & Hstop & Himm').
  rewrite invokeListenersAtTarget_loop in Heq by done. rewrite Heq in Heq'.
  injection Heq' as <-. rewrite filter_all_true in Hregs.
  exists s', items. rewrite invokeListenersAtTarget_loop by done.
  split_and!; [done|apply Hrun| |done..|apply Hrun|apply Hrun].
  rewrite (keys_of_run this (_phase (event s))) by apply Hrun.
  by rewrite (run_all _ _ _ _ _ Hrun).
Qed.

Lemma visit_keys_cons (h : Heap) (ty : string) (ph : Z) (forCapture : bool)
    (n : node) (nodes : list node) :
  visit_keys h ty ph forCapture (n :: nodes) =
  ((λ en, (n, ph, en)) <$>
     filter (λ en, capture en = forCapture) (regs h n ty)) ++
  visit_keys h ty ph forCapture nodes.
Proof. done. Qed.

(** The keys of a visit depend on the selected registrations only. *)
Lemma visit_keys_ext (h h' : Heap) (ty : string) (ph : Z) (forCapture : bool)
    (nodes : list node) :
  (∀ n, n ∈ nodes →
        filter (λ en, capture en = forCapture) (regs h' n ty) =
        filter (λ en, capture en = forCapture) (regs h n ty)) →
  visit_keys h' ty ph forCapture nodes = visit_keys h ty ph forCapture nodes.
Proof.
  induction nodes as [|n nodes IH]; intros Hext; [done|].
  rewrite !visit_keys_cons, Hext by left. f_equal.
  apply IH. intros m Hm. apply Hext. by right.
Qed.

(** One of the two loops over the proper ancestors. *)
Lemma nodes_loop_passive (forCapture : bool) (nodes : list node) (s : State) :
  ordinary (type (event s)) →
  NoDup nodes →
  _propagationStopped (event s) = false →
  _immediatePropagationStopped (event s) = false →
  ∃ s' items,
    nodes_loop bodies forCapture nodes s = (Ok tt, s') ∧
    trace s' = trace s ++ items ∧
    key_of <$> items =
      visit_keys (heap s) (type (event s)) (_phase (event s)) forCapture
        nodes ∧
    (∀ m, regs (heap s') m (type (event s)) =
          if decide (m ∈ nodes)
          then prune (filter (λ en, capture en = forCapture)
                        (regs (heap s) m (type (event s))))
                 (regs (heap s) m (type (event s)))
          else regs (heap s) m (type (event s))) ∧
    _propagationStopped (event s') = false ∧
    _immediatePropagationStopped (event s') = false ∧
    evolves (event s) (event s').
Proof.
  revert s. induction nodes as [|n nodes IH]; intros s Hord Hnd Hs Himm.
  - exists s, []. split_and!; try done. by rewrite app_nil_r.
  - apply NoDup_cons in Hnd as [Hn Hnd].
    rewrite nodes_loop_cons, Hs.
    set (s1 := with_event (set_currentTarget (Some n) (event s)) s).
    destruct (invokeListeners_passive n forCapture s1 Hord Himm)
      as (s2 & run & -> & Ht & Hkeys & Hregs & Hs2 & Himm2 & Hev & Hph).
    cbn [s1 with_event heap event set_currentTarget type _phase] in *.
    simpl in Hs2, Ht.
    assert (Hty : type (event s2) = type (event s)) by apply Hev.
    destruct (IH s2) as (s' & items & -> & Ht' & Hkeys' & Hregs' & ? & ? & Hev');
      [by rewrite Hty|done|congruence|done|].
    rewrite Hty, Hph in *.
    exists s', (run ++ items). split_and!; [done| | | |done|done|].
    + rewrite Ht', Ht. by rewrite app_assoc.
    + rewrite fmap_app, Hkeys, Hkeys', visit_keys_cons. f_equal.
      apply visit_keys_ext. intros m Hm. rewrite Hregs.
      rewrite decide_False; [done|]. by intros ->.
    + intros m. rewrite Hregs', !Hregs.
      destruct (decide (m = n)) as [->|Hm].
      * rewrite decide_False by done. rewrite decide_True by left. done.
      * destruct (decide (m ∈ nodes)) as [Hin|Hout].
        -- rewrite decide_True by by right. done.
        -- rewrite decide_False; [done|].
           by intros [?|?]%elem_of_cons.
    + eapply evolves_trans; [|done].
      eapply evolves_trans; [apply evolves_set_currentTarget|done].
Qed.

End Passive_dispatch.

(** With passive listeners and an event that comes in unstopped, the
    invocations of a dispatch are those the specification lists, in its
    order; the one-shot entries of the target are gone afterwards. *)
Lemma dispatch_passive (bodies : Bodies) (fuel : nat) (this : node)
    (e : Event) (h : Heap) (path : list node) :
  passive bodies →
  ordinary (type e) →
  path_loop fuel h (Some this) [] = Some path →
  _propagationStopped e = false →
  _immediatePropagationStopped e = false →
  ∃ s',
    dispatch bodies fuel this e h =
      Some (Ok (negb (defaultPrevented (event s'))), s') ∧
    key_of <$> trace s' = expected_keys h this path e ∧
    regs (heap s') this (type e) =
      prune (regs h this (type e)) (regs h this (type e)) ∧
    console s' = reported (trace s').
Proof.
  intros Hpassive Hord Hpath Hs Himm.
  destruct (path_loop_ancestors fuel h this path Hpath) as (_ & Hnd & Hthis).
  destruct (dispatch_structure bodies fuel this e h path Hord Hpath)
    as (sf & Hd & _ & Hconsole & _).
  cut (∃ s', dispatch bodies fuel this e h =
               Some (Ok (negb (defaultPrevented (event s'))), s') ∧
             key_of <$> trace s' = expected_keys h this path e ∧
             regs (heap s') this (type e) =
               prune (regs h this (type e)) (regs h this (type e))).
  { intros (s' & Hd' & Hk & Hr). exists s'. split_and!; [done..|].
    rewrite Hd in Hd'. by injection Hd' as _ <-. }
  clear sf Hd Hconsole.
  unfold dispatch, dispatchEvent, expected_keys. cbn [heap event with_event].
  rewrite Hpath, dispatch_phases_loops.
  set (anc := take (length path - 1) path) in *.
  (* capture phase *)
  erewrite bind_ok by reflexivity.
  match goal with
  | |- context [bind (nodes_loop _ _ _) _ ?s] => set (s0 := s)
  end.
  destruct (nodes_loop_passive bodies Hpassive true anc s0 Hord Hnd Hs Himm)
    as (s1 & items1 & Hloop1 & Ht1 & Hk1 & Hr1 & Hs1 & Hi1 & Hev1).
  simpl in Ht1, Hk1, Hr1, Hev1.
  erewrite bind_ok by exact Hloop1.
  (* target phase *)
  erewrite bind_ok by reflexivity. cbv beta. rewrite Hs1. cbn [negb].
  set (s1' := with_event
                (set_currentTarget (Some this)
                   (set_phase AT_TARGET (event s1))) s1).
  assert (Hty1 : type (event s1) = type e) by apply Hev1.
  destruct (invokeListenersAtTarget_passive bodies Hpassive this s1')
    as (s2 & items2 & Htgt & Ht2 & Hk2 & Hr2 & Hs2 & Hi2 & Hev2 & _);
    [by (simpl; rewrite Hty1)|done|].
  simpl in Ht2, Hk2, Hr2, Hs2, Hev2.
  rewrite Hty1 in Hk2, Hr2.
  assert (Hthis1 : regs (heap s1) this (type e) = regs h this (type e)).
  { rewrite Hr1. by rewrite decide_False. }
  rewrite Hthis1 in Hk2, Hr2.
  erewrite (bind_ok (bind _ _)).
  2: { erewrite bind_ok by reflexivity. erewrite bind_ok by reflexivity.
       exact Htgt. }
  (* bubble phase *)
  erewrite bind_ok by reflexivity. cbv beta. rewrite Hs2, Hs1. cbn [negb andb].
  assert (Hb : bubbles (event s2) = bubbles e).
  { rewrite (ev_bubbles _ _ Hev2). simpl. apply Hev1. }
  assert (Hty2 : type (event s2) = type e).
  { rewrite (ev_type _ _ Hev2). simpl. apply Hev1. }
  rewrite Hb. destruct (bubbles e).
  - set (s2' := with_event (set_phase BUBBLING_PHASE (event s2)) s2).
    assert (Hnd' : NoDup (reverse anc)) by by rewrite reverse_Permutation.
    destruct (nodes_loop_passive bodies Hpassive false (reverse anc) s2')
      as (s3 & items3 & Hloop3 & Ht3 & Hk3 & Hr3 & _ & _ & _).
    { simpl. by rewrite Hty2. }
    { done. }
    { simpl. congruence. }
    { done. }
    simpl in Ht3, Hk3, Hr3. rewrite Hty2 in Hk3, Hr3.
    erewrite (bind_ok (bind _ _)).
    2: { erewrite bind_ok by reflexivity. exact Hloop3. }
    erewrite bind_ok by reflexivity. cbv beta.
    exists s3. split; [done|]. split.
    + rewrite Ht3, Ht2, Ht1. simpl. rewrite !fmap_app, Hk1, Hk2, Hk3.
      rewrite <- app_assoc. do 2 f_equal. apply visit_keys_ext.
      intros m Hm. rewrite elem_of_reverse in Hm.
      assert (Hne : m ≠ this) by (intros ->; by apply Hthis).
      rewrite Hr2, decide_False by done.
      rewrite Hr1, decide_True by done.
      apply (prune_other_flag true).
      apply Forall_forall. by intros en [? _]%list_elem_of_filter.
    + rewrite Hr3, decide_False by by rewrite elem_of_reverse.
      by rewrite Hr2, decide_True.
  - erewrite bind_ok by reflexivity. erewrite bind_ok by reflexivity. cbv beta.
    exists s2. split; [done|]. split.
    + rewrite Ht2, Ht1. simpl. rewrite !fmap_app, Hk1, Hk2.
      by rewrite app_nil_r.
    + by rewrite Hr2, decide_True.
Qed.

(** ** C1: the order of a dispatch *)

(** C1.  The invocations of every dispatch of an event of an ordinary
    type follow its schedule: first
    the path members from the root down to the target, the target
    excluded, in the capturing phase and with capture registrations only;
    then the target in the target phase, whatever the capture flag; then,
    only if the event bubbles, the path members from the target up to the
    root, the target excluded, in the bubbling phase and with non-capture
    registrations only.  With listeners that leave the registries alone
    and do not stop the propagation, and an event that comes in
    unstopped, the invocations are exactly those registrations, each node
    in registration order.  On the path root, A, target, with one capture
    listener on the root, a capture and a non-capture listener on the
    target and a non-capture listener on A, a bubbling event gives the
    order root, target (capture), target (non-capture), A. *)
Theorem dispatch_order (bodies : Bodies) (fuel : nat) (this : node)
    (e : Event) (h : Heap) (path : list node) :
  ordinary (type e) →
  path_loop fuel h (Some this) [] = Some path →
  ∃ s',
    dispatch bodies fuel this e h =
      Some (Ok (negb (defaultPrevented (event s'))), s') ∧
    follows (schedule this path (bubbles e)) (trace s') ∧
    (passive bodies →
     _propagationStopped e = false →
     _immediatePropagationStopped e = false →
     key_of <$> trace s' = expected_keys h this path e ∧
     (∀ root A rc bc bn ac,
        path = [root; A; this] →
        bubbles e = true →
        regs h root (type e) = [rc] → capture rc = true →
        regs h this (type e) = [bc; bn] →
        capture bc = true → capture bn = false →
        regs h A (type e) = [ac] → capture ac = false →
        key_of <$> trace s' =
          [(root, CAPTURING_PHASE, rc); (this, AT_TARGET, bc);
           (this, AT_TARGET, bn); (A, BUBBLING_PHASE, ac)])).
Proof.
  intros Hty Hpath.
  destruct (dispatch_structure bodies fuel this e h path Hty Hpath)
    as (s' & Hd & Hf & _).
  exists s'. split_and!; [done..|]. intros Hpassive Hs Himm.
  destruct (dispatch_passive bodies fuel this e h path Hpassive Hty Hpath Hs
              Himm)
    as (s'' & Hd' & Hkeys & _).
  rewrite Hd in Hd'. injection Hd' as _ <-. split; [done|].
  intros root A rc bc bn ac -> Hb Hroot Hrc Hthis Hbc Hbn HA Hac.
  rewrite Hkeys. unfold expected_keys, visit_keys. simpl.
  rewrite Hb, Hroot, Hthis, HA. simpl.
  rewrite !filter_cons, !filter_nil, Hrc, Hac. simpl.
  repeat case_decide; done.
Qed.

(** ** C3: one-shot registrations *)







(** ** Failure isolation *)

Lemma sim_ret {A} (R : A → A → Prop) (a am : A) :
  R a am → sim R (ret a) (ret am).
Proof. intros HR s sm Hs Hty. by exists a, am, s, sm. Qed.

Lemma sim_bind {A B} (R : A → A → Prop) (Q : B → B → Prop)
    (m mm : M State A) (k km : A → M State B) :
  sim R m mm →
  (∀ a am, R a am → sim Q (k a) (km am)) →
  sim Q (bind m k) (bind mm km).
Proof.
  intros Hm Hk s sm Hs Hty.
  destruct (Hm s sm Hs Hty)
    as (a & am & s1 & sm1 & Heq & Heqm & HR & Hs1 & Hty1).
  destruct (Hk a am HR s1 sm1 Hs1) as (b & bm & s2 & sm2 & ? & ? & ? & ? & ?).
  { by rewrite Hty1. }
  exists b, bm, s2, sm2. unfold bind. rewrite Heq, Heqm.
  split_and!; [done..|congruence].
Qed.

Lemma sim_get : sim alike get get.
Proof. intros s sm Hs Hty. by exists s, sm, s, sm. Qed.

Lemma sim_update_event (f : Event → Event) :
  (∀ e, type (f e) = type e) →
  sim eq (update_event f) (update_event f).
Proof.
  intros Hf s sm (Hh & He & Ht) Hty. eexists tt, tt, _, _.
  split_and!; [reflexivity..| |apply Hf]. split_and!; simpl; congruence.
Qed.

Lemma sim_for_of {A} (l : list A) (body bodym : A → M State ctl) :
  (∀ x, sim eq (body x) (bodym x)) →
  sim eq (for_of l body) (for_of l bodym).
Proof.
  intros Hbody. induction l as [|x l IH]; simpl.
  - by apply sim_ret.
  - eapply sim_bind; [apply Hbody|]. intros c ? <-.
    destruct c; [done|]. by apply sim_ret.
Qed.

Section Muted.

Variable bodies : Bodies.

Lemma fire_muted (this : node) (en : entry) (s sm : State) :
  alike s sm →
  alike (fire bodies this en s) (fire (muted bodies) this en sm).
Proof.
  intros (Hh & He & Ht). unfold alike, fire, muted; simpl.
  rewrite Hh, He, Ht. split_and!; [done..|].
  by rewrite fmap_app.
Qed.

Lemma sim_executeListner (this : node) (en : entry) :
  sim eq (_executeListner bodies this en)
    (_executeListner (muted bodies) this en).
Proof.
  intros s sm Hs Hty. eexists tt, tt, _, _.
  split_and!; [by apply executeListner_fire| |done|by apply fire_muted|
               apply fire_type].
  apply executeListner_fire. destruct Hs as (_ & -> & _). done.
Qed.

Lemma sim_entries_loop (this : node) (sel : entry → bool)
    (snapshot : list entry) :
  sim eq (entries_loop bodies this sel snapshot)
    (entries_loop (muted bodies) this sel snapshot).
Proof.
  apply sim_for_of. intros en.
  destruct (negb (sel en)); [by apply sim_ret|].
  eapply sim_bind; [apply sim_executeListner|]. intros _ _ _.
  eapply sim_bind; [apply sim_get|]. intros s1 sm1 (_ & He1 & _).
  rewrite He1. destruct (_immediatePropagationStopped (event s1));
    by apply sim_ret.
Qed.

Lemma sim_invokeListeners (this : node) (forCapture : bool) :
  sim eq (_invokeListeners bodies this forCapture)
    (_invokeListeners (muted bodies) this forCapture).
Proof.
  intros s sm Hs Hty. pose proof Hs as (Hh & He & _).
  rewrite !invokeListeners_loop by (by rewrite ?He).
  rewrite Hh, He. by apply sim_entries_loop.
Qed.

Lemma sim_invokeListenersAtTarget (this : node) :
  sim eq (_invokeListenersAtTarget bodies this)
    (_invokeListenersAtTarget (muted bodies) this).
Proof.
  intros s sm Hs Hty. pose proof Hs as (Hh & He & _).
  rewrite !invokeListenersAtTarget_loop by (by rewrite ?He).
  rewrite Hh, He. by apply sim_entries_loop.
Qed.

Lemma sim_ancestors (forCapture : bool) (nodes : list node) :
  sim eq
    (for_of nodes (λ n,
       s <- get ;;
       if _propagationStopped (event s) then ret Break
       else
         update_event (set_currentTarget (Some n)) ;;
         _invokeListeners bodies n forCapture ;;
         ret Continue))
    (for_of nodes (λ n,
       s <- get ;;
       if _propagationStopped (event s) then ret Break
       else
         update_event (set_currentTarget (Some n)) ;;
         _invokeListeners (muted bodies) n forCapture ;;
         ret Continue)).
Proof.
  apply sim_for_of. intros n.
  eapply sim_bind; [apply sim_get|]. intros s sm (_ & He & _). rewrite He.
  destruct (_propagationStopped (event s)); [by apply sim_ret|].
  eapply sim_bind; [by apply sim_update_event|]. intros _ _ _.
  eapply sim_bind; [apply sim_invokeListeners|]. intros _ _ _.
  by apply sim_ret.
Qed.

Lemma sim_dispatch_phases (this : node) (path : list node) :
  sim eq (dispatch_phases bodies this path)
    (dispatch_phases (muted bodies) this path).
Proof.
  unfold dispatch_phases.
  eapply sim_bind; [by apply sim_update_event|]. intros _ _ _.
  eapply sim_bind; [apply sim_ancestors|]. intros _ _ _.
  eapply sim_bind; [apply sim_get|]. intros s1 sm1 (_ & He1 & _).
  eapply sim_bind.
  { rewrite He1. destruct (negb (_propagationStopped (event s1)));
      [|by apply (sim_ret eq)].
    eapply sim_bind; [by apply sim_update_event|]. intros _ _ _.
    eapply sim_bind; [by apply sim_update_event|]. intros _ _ _.
    apply sim_invokeListenersAtTarget. }
  intros _ _ _.
  eapply sim_bind; [apply sim_get|]. intros s2 sm2 (_ & He2 & _).
  eapply sim_bind.
  { rewrite He2.
    destruct (negb (_propagationStopped (event s2)) && bubbles (event s2));
      [|by apply (sim_ret eq)].
    eapply sim_bind; [by apply sim_update_event|]. intros _ _ _.
    apply sim_ancestors. }
  intros _ _ _.
  eapply sim_bind; [apply sim_get|]. intros s3 sm3 (_ & He3 & _).
  rewrite He3. by apply sim_ret.
Qed.

End Muted.

(** C8, as amended.  On an event of an ordinary type _executeListner
    does not throw: it records the invocation and, if the callback threw,
    one line on the console.  Every dispatch of such an event on a finite
    parent chain returns a boolean, the negation of [defaultPrevented],
    and does not throw, given enough iterations for the path loop; the
    console holds exactly one line per invocation that threw, in order.
    What the callbacks throw has no other effect: with every throw left
    out of the listeners the dispatch returns the same boolean and leaves
    the same store and the same event, after the same invocations in the
    same order. *)
Theorem listener_failures_are_isolated (bodies : Bodies) (this : node)
    (e : Event) (h : Heap) :
  ordinary (type e) →
  rooted h this →
  (∀ n en s,
     ordinary (type (event s)) →
     ∃ s1 i,
       _executeListner bodies n en s = (Ok tt, s1) ∧
       trace s1 = trace s ++ [i] ∧
       console s1 = console s ++ reported [i]) ∧
  ∃ fuel0, ∀ fuel, (fuel0 ≤ fuel)%nat →
    ∃ s' sm,
      dispatch bodies fuel this e h =
        Some (Ok (negb (defaultPrevented (event s'))), s') ∧
      console s' = reported (trace s') ∧
      dispatch (muted bodies) fuel this e h =
        Some (Ok (negb (defaultPrevented (event s'))), sm) ∧
      heap sm = heap s' ∧ event sm = event s' ∧
      trace sm = silent <$> trace s'.
Proof.
  intros Hty Hrooted. split.
  { intros n en s Hs.
    destruct (fire_trace bodies n en s) as (i & Ht & Hc & _).
    exists (fire bodies n en s), i. split_and!; [|done..].
    by apply executeListner_fire. }
  destruct (rooted_path h this Hrooted) as (fuel0 & path & Hpaths).
  exists fuel0. intros fuel Hle. pose proof (Hpaths fuel Hle) as Hpath.
  destruct (dispatch_structure bodies fuel this e h path Hty Hpath)
    as (s' & Hd & _ & Hconsole & _).
  pose proof Hd as Hd'.
  unfold dispatch, dispatchEvent in Hd' |- *. cbn [heap event with_event] in *.
  rewrite Hpath in Hd' |- *.
  set (s0 := with_event _ _) in *.
  destruct (sim_dispatch_phases bodies this path s0 s0)
    as (b & bm & s1 & sm & Heq & Heqm & <- & (Hh & He & Ht) & _).
  { by split_and!. }
  { done. }
  rewrite Heq in Hd'. injection Hd' as -> <-.
  exists s1, sm. rewrite Heq, Heqm. done.
Qed.

(** C8, as stated, fails: a dispatch does not always complete.  On the
    store left by [0.appendChild(1); 1.appendChild(0)] the path loop of a
    dispatch on node 0 ends for no bound, so that the call does not
    return; and on a new node an event of type "toString" makes the
    dispatcher throw a TypeError to its caller, no listener being
    involved. *)
Lemma dispatch_does_not_always_complete :
  fst (appendChild 0%nat 1%nat fresh_heap) = Ok 1%nat ∧
  fst (appendChild 1%nat 0%nat heap_0_1) = Ok 0%nat ∧
  (∀ fuel,
     dispatch lively_bodies fuel 0%nat (bubbling "fail") heap_cycle = None) ∧
  returned (dispatch lively_bodies 1 0%nat (bubbling "toString") fresh_heap)
    = Throw (TypeError "spread").
Proof.
  split_and!; [done..| |vm_compute; reflexivity].
  intros fuel. apply dispatch_on_cycle.
Qed.

(** ** The properties at work on the concrete document *)

Lemma calm_bodies_passive : passive calm_bodies.
Proof.
  intros f this e h. unfold calm_bodies.
  destruct f as [|[|[|[|[|f]]]]]; simpl; split_and!; try done;
    rewrite ?not_elem_of_cons; split_and?; try done; apply not_elem_of_nil.
Qed.

(** [known Hd]: from [Hd : dispatch ... = Some (_, s')], replace [s'] by
    the state that the dispatch computes. *)
Ltac known Hd :=
  match type of Hd with
  | ?d = Some (_, ?s) =>
      let Hs := fresh "Hs" in
      assert (Hs : s = final d) by (rewrite Hd; reflexivity);
      rewrite Hs in *; clear Hs Hd; try clear s
  end.

(** Decide a closed statement by evaluation. *)
Ltac by_evaluation :=
  unfold calls_stop_immediate, calls_stop;
  apply (bool_decide_unpack _); vm_compute; exact I.

Lemma demo_heap_rooted : rooted demo_heap 2%nat.
Proof.
  apply rooted_step with 1%nat; [vm_compute; reflexivity|].
  apply rooted_step with 0%nat; [vm_compute; reflexivity|].
  apply rooted_root. vm_compute. reflexivity.
Qed.

Lemma dispatch_order_witness :
  key_of <$> trace (final (dispatch calm_bodies 3 2%nat (bubbling "click")
                             demo_heap)) =
  [(0%nat, CAPTURING_PHASE, Entry 10%nat true false);
   (2%nat, AT_TARGET, Entry 11%nat true false);
   (2%nat, AT_TARGET, Entry 12%nat false false);
   (1%nat, BUBBLING_PHASE, Entry 13%nat false false)].
Proof.
  assert (Hpath : path_loop 3 demo_heap (Some 2%nat) [] = Some [0; 1; 2]%nat)
    by (vm_compute; reflexivity).
  assert (Hty : ordinary (type (bubbling "click"))) by by_evaluation.
  destruct (dispatch_order calm_bodies 3 2%nat (bubbling "click") demo_heap
              [0; 1; 2]%nat Hty Hpath)
    as (s' & Hd & _ & Horder).
  destruct (Horder calm_bodies_passive eq_refl eq_refl) as [_ Hchain].
  rewrite Hd. cbn [final].
  apply (Hchain 0%nat 1%nat); vm_compute; reflexivity.
Defined.

Lemma stopImmediatePropagation_ends_dispatch_witness :
  let s' := final (dispatch lively_bodies 3 2%nat (bubbling "halt")
                     demo_heap) in
  inv_entry <$> trace s' = [Entry 2%nat false false] ∧
  regs demo_heap 2%nat "halt" =
    [Entry 2%nat false false; Entry 10%nat false false] ∧
  drop 1 (trace s') = [].
Proof.
  assert (Hty : ordinary (type (bubbling "halt"))) by by_evaluation.
  destruct (stopImmediatePropagation_ends_dispatch lively_bodies 3 2%nat
              (bubbling "halt") demo_heap [0; 1; 2]%nat Hty eq_refl)
    as (s' & Hd & Hlast).
  known Hd. intros s'.
  set (i1 := {| inv_this := 2%nat; inv_phase := AT_TARGET;
                inv_entry := Entry 2%nat false false;
                inv_calls := [CallStopImmediatePropagation];
                inv_throw := None |}).
  assert (Ht : trace s' = [] ++ i1 :: drop 1 (trace s'))
    by (vm_compute; reflexivity).
  split_and!; [vm_compute; reflexivity..|].
  apply (Hlast [] i1 (drop 1 (trace s')) Ht). left.
Defined.

Lemma stopPropagation_halts_path_traversal_witness :
  let s' := final (dispatch lively_bodies 3 2%nat (bubbling "stop")
                     demo_heap) in
  inv_entry <$> trace s' = [Entry 1%nat true false; Entry 10%nat true false] ∧
  Forall (λ j, inv_this j = 0%nat ∧ inv_phase j = CAPTURING_PHASE)
    (drop 1 (trace s')) ∧
  Forall (λ j, inv_this j = 0%nat) (trace s').
Proof.
  assert (Hty : ordinary (type (bubbling "stop"))) by by_evaluation.
  destruct (stopPropagation_halts_path_traversal lively_bodies 3 2%nat
              (bubbling "stop") demo_heap [0; 1; 2]%nat Hty eq_refl)
    as ((s' & Hd & Hafter & Hroot) & _ & _).
  known Hd. intros s'.
  set (i1 := {| inv_this := 0%nat; inv_phase := CAPTURING_PHASE;
                inv_entry := Entry 1%nat true false;
                inv_calls := [CallStopPropagation]; inv_throw := None |}).
  assert (Ht : trace s' = [] ++ i1 :: drop 1 (trace s'))
    by (vm_compute; reflexivity).
  split_and!.
  - vm_compute. reflexivity.
  - apply (Hafter [] i1 (drop 1 (trace s')) Ht). left.
  - apply (Hroot 0%nat 1%nat i1 eq_refl); [|reflexivity|reflexivity|left].
    change (i1 ∈ trace s'). rewrite Ht. left.
Defined.

Lemma preventDefault_ignored_when_not_cancelable_witness :
  Nat.iter 5 preventDefault (bubbling "veto") = bubbling "veto" ∧
  ∃ fuel0, ∀ fuel, (fuel0 ≤ fuel)%nat →
    let r := dispatch lively_bodies fuel 2%nat (bubbling "veto") demo_heap in
    returned r = Ok true ∧
    defaultPrevented (event (final r)) = false.
Proof.
  assert (Hty : ordinary (type (bubbling "veto"))) by by_evaluation.
  destruct (preventDefault_ignored_when_not_cancelable lively_bodies 2%nat
              (bubbling "veto") demo_heap Hty demo_heap_rooted)
    as (fuel0 & Hreturns).
  split.
  - destruct (Hreturns fuel0 (le_n _)) as (r & s' & _ & _ & Hnc).
    destruct (Hnc eq_refl) as [Hiter _]. apply Hiter.
  - exists fuel0. intros fuel Hle.
    destruct (Hreturns fuel Hle) as (r & s' & Hd & Hr & Hnc).
    destruct (Hnc eq_refl) as [_ Hfalse].
    destruct (Hfalse eq_refl) as [Hdp ->].
    cbv zeta. rewrite Hd. cbn [final returned]. by split.
Defined.

Lemma listener_failures_are_isolated_witness :
  ∃ fuel0, ∀ fuel, (fuel0 ≤ fuel)%nat →
    let r := dispatch lively_bodies fuel 2%nat (bubbling "fail") demo_heap in
    let rm := dispatch (muted lively_bodies) fuel 2%nat (bubbling "fail")
                demo_heap in
    returned r = Ok (negb (defaultPrevented (event (final r)))) ∧
    console (final r) = reported (trace (final r)) ∧
    returned rm = returned r ∧
    trace (final rm) = silent <$> trace (final r).
Proof.
  assert (Hty : ordinary (type (bubbling "fail"))) by by_evaluation.
  destruct (listener_failures_are_isolated lively_bodies 2%nat
              (bubbling "fail") demo_heap Hty demo_heap_rooted)
    as (_ & fuel0 & Hreturns).
  exists fuel0. intros fuel Hle.
  destruct (Hreturns fuel Hle) as (s' & sm & Hd & Hc & Hdm & _ & _ & Ht).
  cbv zeta. rewrite Hd, Hdm. cbn [final returned]. by split_and!.
Defined.

(** The dispatch of the witness, evaluated: the two invocations of
    callback 4 throw, each one is reported, and the listener in between
    runs all the same. *)
Lemma listener_failures_on_the_concrete_document :
  let r := dispatch lively_bodies 3 2%nat (bubbling "fail") demo_heap in
  returned r = Ok true ∧
  inv_throw <$> trace (final r) = [Some (Thrown 7); None; Some (Thrown 7)] ∧
  console (final r) =
    [("Error in event listener:", Thrown 7);
     ("Error in event listener:", Thrown 7)].
Proof. split_and!; vm_compute; reflexivity. Qed.

Lemma dispatch_on_parentless_node_witness :
  let s' := final (dispatch lively_bodies 1 0%nat (bubbling "stop")
                     demo_heap) in
  Forall (λ i, inv_this i = 0%nat ∧ inv_phase i = AT_TARGET) (trace s') ∧
  inv_entry <$> trace s' = regs demo_heap 0%nat "stop" ∧
  regs demo_heap 0%nat "stop" =
    [Entry 1%nat true false; Entry 10%nat true false].
Proof.
  assert (Hroot : parentNode (demo_heap 0%nat) = None)
    by (vm_compute; reflexivity).
  assert (Hty : ordinary (type (bubbling "stop"))) by by_evaluation.
  destruct (dispatch_on_parentless_node lively_bodies 0 0%nat
              (bubbling "stop") demo_heap Hty Hroot)
    as (_ & s' & Hd & Hwhere & _ & Hall).
  known Hd. intros s'. split_and!; [done| |vm_compute; reflexivity].
  apply Hall; [reflexivity|reflexivity|by_evaluation].
Defined.


(** An event that comes in stopped reaches no listener: dispatched
    twice, such an event leaves the one-shot callback of node 2 without
    any invocation. *)
Lemma once_listener_and_stopped_event :
  let e := stopPropagation (bubbling "once") in
  let s1 := final (dispatch calm_bodies 3 2%nat e demo_heap) in
  let s2 := final (dispatch calm_bodies 3 2%nat (event s1) (heap s1)) in
  regs demo_heap 2%nat "once" = [Entry 14%nat false true] ∧
  fired_on 2%nat 14%nat (trace s1 ++ trace s2) = 0%nat.
Proof. split; vm_compute; reflexivity. Qed.

(** The two dispatches of the witness, evaluated. *)
Lemma once_listener_on_the_concrete_document :
  let s1 := final (dispatch calm_bodies 3 2%nat (bubbling "once")
                     demo_heap) in
  let s2 := final (dispatch calm_bodies 3 2%nat (bubbling "once")
                     (heap s1)) in
  fired_on 2%nat 14%nat (trace s1) = 1%nat ∧
  fired_on 2%nat 14%nat (trace s2) = 0%nat.
Proof. split; vm_compute; reflexivity. Qed.

Lemma visit_iterates_over_snapshot_witness :
  let s := {| heap := demo_heap; event := bubbling "grow"; console := [];
              trace := [] |} in
  ∃ s' items,
    _invokeListenersAtTarget lively_bodies 2%nat s = (Ok tt, s') ∧
    trace s' = trace s ++ items ∧
    (inv_entry <$> items) `prefix_of` regs (heap s) 2%nat (type (event s)).
Proof.
  intros s.
  assert (Hty : ordinary (type (event s))) by by_evaluation.
  destruct (visit_iterates_over_snapshot lively_bodies 2%nat false s Hty)
    as (_ & s' & items & Heq & Ht & Hprefix & _).
  exists s', items. exact (conj Heq (conj Ht Hprefix)).
Defined.


(** A visit whose first listener changes the registry it is iterating:
    callback 5 removes the registration of callback 8 and registers
    callback 9.  The visit still invokes 5, 8 and 10, the snapshot, and
    not 9; the live registry holds 5, 10 and 9 afterwards. *)
Lemma visit_with_interfering_listener :
  let s' := final (dispatch lively_bodies 3 2%nat (bubbling "grow")
                     demo_heap) in
  regs demo_heap 2%nat "grow" =
    [Entry 5%nat false false; Entry 8%nat false false; Entry 10%nat false false] ∧
  inv_entry <$> trace s' =
    [Entry 5%nat false false; Entry 8%nat false false; Entry 10%nat false false] ∧
  regs (heap s') 2%nat "grow" =
    [Entry 5%nat false false; Entry 10%nat false false; Entry 9%nat false false].
Proof. split_and!; vm_compute; reflexivity. Qed.

(** * Further properties of the program *)

(** ** The store after an assignment to a registry *)

Lemma listeners_set_listeners (h : Heap) (n m : node)
    (r : gmap string (list entry)) :
  _listeners ((<[n := with_listeners r (h n)]> h) m) =
  if decide (m = n) then r else _listeners (h m).
Proof.
  unfold insert, fn_insert.
  destruct (decide (n = m)), (decide (m = n)); done || congruence.
Qed.

Lemma parentNode_set_listeners (h : Heap) (n m : node)
    (r : gmap string (list entry)) :
  parentNode ((<[n := with_listeners r (h n)]> h) m) = parentNode (h m).
Proof. unfold insert, fn_insert. by destruct (decide (n = m)) as [->|?]. Qed.

Lemma childNodes_set_listeners (h : Heap) (n m : node)
    (r : gmap string (list entry)) :
  childNodes ((<[n := with_listeners r (h n)]> h) m) = childNodes (h m).
Proof. unfold insert, fn_insert. by destruct (decide (n = m)) as [->|?]. Qed.

#[global] Hint Rewrite listeners_set_listeners parentNode_set_listeners
  childNodes_set_listeners : store.

(** ** The listener registry *)

Lemma not_inherited (o : NodeObj) (ty : string) :
  ordinary ty ∨ is_Some (_listeners o !! ty) → listeners_at o ty ≠ Inherited.
Proof.
  intros [Hty|[l Hl]].
  - by apply ordinary_not_inherited.
  - unfold listeners_at. by rewrite Hl.
Qed.

Lemma addEventListener_inherited (this : node) (ty : string) (f : callback)
    (options : Options) (h : Heap) :
  listeners_at (h this) ty = Inherited →
  addEventListener this ty f options h = (Throw (TypeError "push"), h).
Proof.
  intros Hin. unfold addEventListener, bind, get, ret, throw. simpl.
  rewrite Hin. simpl. by rewrite Hin.
Qed.

Lemma addEventListener_ok (this : node) (ty : string) (f : callback)
    (options : Options) (h : Heap) :
  listeners_at (h this) ty ≠ Inherited →
  fst (addEventListener this ty f options h) = Ok tt.
Proof.
  unfold addEventListener, listeners_at, bind, get, set_listeners, modify,
    ret, throw.
  simpl. destruct (_listeners (h this) !! ty) as [l|] eqn:Hl; simpl.
  - by rewrite Hl.
  - destruct (decide (ty ∈ Object_prototype)); [done|]. simpl.
    autorewrite with store.
    destruct (decide (this = this)) as [_|?]; [|done].
    by rewrite lookup_insert_eq.
Qed.

Lemma regs_addEventListener (this m : node) (ty ty' : string)
    (f : callback) (options : Options) (h : Heap) :
  listeners_at (h this) ty ≠ Inherited →
  regs (snd (addEventListener this ty f options h)) m ty' =
  if decide (m = this ∧ ty' = ty)
  then regs h this ty ++
         [Entry f (options_capture options) (options_once options)]
  else regs h m ty'.
Proof.
  unfold addEventListener, listeners_at, regs, bind, get, set_listeners,
    modify, ret, throw.
  simpl. destruct (_listeners (h this) !! ty) as [l|] eqn:Hl; simpl.
  - intros _. rewrite Hl. simpl. autorewrite with store.
    destruct (decide (m = this)) as [->|Hm].
    + destruct (decide (ty' = ty)) as [->|Hty].
      * by rewrite lookup_insert_eq, decide_True.
      * by rewrite lookup_insert_ne, decide_False by (try intros [_ ?]; congruence).
    + by rewrite decide_False by (intros [? _]; congruence).
  - destruct (decide (ty ∈ Object_prototype)); [done|]. intros _. simpl.
    autorewrite with store.
    destruct (decide (this = this)) as [_|?]; [|done].
    rewrite lookup_insert_eq. simpl. autorewrite with store.
    destruct (decide (m = this)) as [->|Hm].
    + destruct (decide (this = this)) as [_|?]; [|done].
      destruct (decide (ty' = ty)) as [->|Hty].
      * by rewrite lookup_insert_eq, decide_True.
      * by rewrite !lookup_insert_ne, decide_False
          by (try intros [_ ?]; congruence).
    + by rewrite decide_False by (intros [? _]; congruence).
Qed.

Lemma tree_addEventListener (this : node) (ty : string) (f : callback)
    (options : Options) (h : Heap) :
  same_tree h (snd (addEventListener this ty f options h)).
Proof.
  unfold addEventListener, listeners_at, same_tree, bind, get, set_listeners,
    modify, ret, throw.
  simpl. destruct (_listeners (h this) !! ty) as [l|] eqn:Hl; simpl.
  - rewrite Hl. simpl. intros m. by autorewrite with store.
  - destruct (decide (ty ∈ Object_prototype)); simpl.
    + rewrite Hl. by intros m.
    + autorewrite with store.
      destruct (decide (this = this)) as [_|?]; [|done].
      rewrite lookup_insert_eq. simpl. intros m. by autorewrite with store.
Qed.

Lemma tree_removeEventListener (this : node) (ty : string) (f : callback)
    (options : Options) (h : Heap) :
  same_tree h (snd (removeEventListener this ty f options h)).
Proof.
  unfold removeEventListener, listeners_at, same_tree, bind, get,
    set_listeners, modify, ret, throw.
  simpl. destruct (_listeners (h this) !! ty) as [l|] eqn:Hl; simpl.
  - intros m. by autorewrite with store.
  - by destruct (decide (ty ∈ Object_prototype)).
Qed.

(** X1.  For a type that names no property of [Object.prototype], or
    for which the registry holds an array of its own, addEventListener
    returns normally and appends one registration to those of the
    receiver for the type, after all the others and whether or not the
    same callback is registered there already with the same options; the
    registrations of the other types and nodes and the tree stay as they
    are.  For a type that names a property of [Object.prototype], on a
    registry without an array of its own for it, addEventListener ends
    with a TypeError, the inherited property having no [push], and leaves
    the store as it is. *)
Theorem addEventListener_appends_registration (this : node) (ty : string)
    (f : callback) (options : Options) (h : Heap) :
  (ordinary ty ∨ is_Some (_listeners (h this) !! ty) →
   ∃ h',
     addEventListener this ty f options h = (Ok tt, h') ∧
     regs h' this ty =
       regs h this ty ++
         [Entry f (options_capture options) (options_once options)] ∧
     (∀ m ty', ¬ (m = this ∧ ty' = ty) → regs h' m ty' = regs h m ty') ∧
     same_tree h h' ∧
     length (filter (λ x, listener x = f) (regs h' this ty)) =
       S (length (filter (λ x, listener x = f) (regs h this ty)))) ∧
  (ty ∈ Object_prototype → _listeners (h this) !! ty = None →
   addEventListener this ty f options h = (Throw (TypeError "push"), h)).
Proof.
  split.
  - intros Hnot%not_inherited.
    destruct (addEventListener this ty f options h) as [r h'] eqn:Heq.
    pose proof (addEventListener_ok this ty f options h Hnot) as Hok.
    pose proof (tree_addEventListener this ty f options h) as Htree.
    pose proof (regs_addEventListener this) as Hregs.
    rewrite Heq in Hok, Htree. simpl in Hok, Htree. subst r.
    assert (Hthis : regs h' this ty =
              regs h this ty ++
                [Entry f (options_capture options) (options_once options)]).
    { specialize (Hregs this ty ty f options h Hnot). rewrite Heq in Hregs.
      simpl in Hregs. by rewrite decide_True in Hregs. }
    exists h'. split_and!; [done|done| |done|].
    + intros m ty' Hne. specialize (Hregs m ty ty' f options h Hnot).
      rewrite Heq in Hregs. simpl in Hregs. by rewrite decide_False in Hregs.
    + rewrite Hthis, filter_app, length_app. simpl.
      rewrite filter_cons_True by done. simpl. lia.
  - intros Hin Hnone. apply addEventListener_inherited.
    by apply listeners_at_inherited.
Qed.

(** X2.  For a type that names no property of [Object.prototype], or
    for which the registry holds an array of its own, removeEventListener
    returns normally.  Of the registrations of the receiver for the type
    it takes away those of the given callback with the given capture flag,
    all of them and whatever their [once] flag, and keeps the others in
    their order; nothing else changes, and for a type that was never
    registered the store is left untouched.  For a type that names a
    property of [Object.prototype], on a registry without an array of its
    own for it, removeEventListener ends with a TypeError, the inherited
    property having no [filter], and leaves the store as it is. *)
Theorem removeEventListener_removes_matching (this : node) (ty : string)
    (f : callback) (options : Options) (h : Heap) :
  (ordinary ty ∨ is_Some (_listeners (h this) !! ty) →
   ∃ h',
     removeEventListener this ty f options h = (Ok tt, h') ∧
     regs h' this ty =
       filter (λ x, ¬ (listener x = f ∧ capture x = options_capture options))
         (regs h this ty) ∧
     regs h' this ty `sublist_of` regs h this ty ∧
     (∀ x, x ∈ regs h' this ty →
           ¬ (listener x = f ∧ capture x = options_capture options)) ∧
     (∀ m ty', ¬ (m = this ∧ ty' = ty) → regs h' m ty' = regs h m ty') ∧
     same_tree h h' ∧
     (_listeners (h this) !! ty = None → h' = h)) ∧
  (ty ∈ Object_prototype → _listeners (h this) !! ty = None →
   removeEventListener this ty f options h = (Throw (TypeError "filter"), h)).
Proof.
  split.
  - intros Hnot%not_inherited.
    destruct (removeEventListener this ty f options h) as [r h'] eqn:Heq.
    pose proof (removeEventListener_ok this ty f options h Hnot) as Hok.
    pose proof (tree_removeEventListener this ty f options h) as Htree.
    pose proof (regs_removeEventListener this) as Hregs.
    rewrite Heq in Hok, Htree. simpl in Hok, Htree. subst r.
    assert (Hthis : regs h' this ty =
              filter (λ x, ¬ (listener x = f ∧
                              capture x = options_capture options))
                (regs h this ty)).
    { specialize (Hregs this ty ty f options h). rewrite Heq in Hregs.
      simpl in Hregs. by rewrite decide_True in Hregs. }
    exists h'. split_and!; [done|done| | | |done|].
    + rewrite Hthis. apply sublist_filter.
    + intros x. rewrite Hthis. by intros [? _]%list_elem_of_filter.
    + intros m ty' Hne. specialize (Hregs m ty ty' f options h).
      rewrite Heq in Hregs. simpl in Hregs. by rewrite decide_False in Hregs.
    + intros Hnone.
      unfold removeEventListener, listeners_at, bind, get in Heq, Hnot.
      simpl in Heq. rewrite Hnone in Heq, Hnot.
      destruct (decide (ty ∈ Object_prototype)); [done|].
      by injection Heq as <-.
  - intros Hin Hnone. apply removeEventListener_inherited.
    by apply listeners_at_inherited.
Qed.

(** X3.  Removing a registration right after adding it, with the same
    capture flag, leaves the registrations that the removal alone would
    leave; when the receiver had no registration of the callback with that
    flag for the type, they are the registrations from before the two
    calls. *)
Theorem addEventListener_then_removeEventListener (this : node)
    (ty : string) (f : callback) (options options' : Options) (h : Heap) :
  options_capture options' = options_capture options →
  let h2 := exec (removeEventListener this ty f options')
              (exec (addEventListener this ty f options) h) in
  (∀ m ty', regs h2 m ty' =
            regs (exec (removeEventListener this ty f options') h) m ty') ∧
  ((∀ x, x ∈ regs h this ty →
         ¬ (listener x = f ∧ capture x = options_capture options)) →
   ∀ m ty', regs h2 m ty' = regs h m ty').
Proof.
  intros Hcap h2.
  assert (Hboth : ∀ m ty', regs h2 m ty' =
            regs (exec (removeEventListener this ty f options') h) m ty').
  { intros m ty'. unfold h2, exec.
    destruct (listeners_at (h this) ty) eqn:Hat.
    3: { rewrite !regs_removeEventListener, !regs_addEventListener
           by by rewrite Hat.
         destruct (decide (m = this ∧ ty' = ty)) as [_|Hne]; [|done].
         rewrite decide_True by done.
         rewrite filter_app, filter_cons_False, filter_nil, app_nil_r; [done|].
         simpl. intros Hn. apply Hn. by rewrite Hcap. }
    2: { by rewrite (addEventListener_inherited this ty f options h Hat). }
    rewrite !regs_removeEventListener, !regs_addEventListener
      by by rewrite Hat.
    destruct (decide (m = this ∧ ty' = ty)) as [_|Hne]; [|done].
    rewrite decide_True by done.
    rewrite filter_app, filter_cons_False, filter_nil, app_nil_r; [done|].
    simpl. intros Hn. apply Hn. by rewrite Hcap. }
  split; [done|]. intros Hnone m ty'. rewrite Hboth. unfold exec.
  rewrite regs_removeEventListener.
  destruct (decide (m = this ∧ ty' = ty)) as [[-> ->]|Hne]; [|done].
  clear Hboth. induction (regs h this ty) as [|x l IH]; [done|].
  rewrite filter_cons_True.
  - f_equal. apply IH. intros y Hy. apply Hnone. by right.
  - rewrite Hcap. apply Hnone. left.
Qed.

(** ** Invariants of a dispatch *)

Lemma keeps_ret {A} (P : State → Prop) (a : A) : keeps P (ret a).
Proof. intros s Hs. by exists a, s. Qed.

Lemma keeps_get (P : State → Prop) : keeps P get.
Proof. intros s Hs. by exists s, s. Qed.

Lemma keeps_bind {A B} (P : State → Prop) (m : M State A)
    (k : A → M State B) :
  keeps P m → (∀ a, keeps P (k a)) → keeps P (bind m k).
Proof.
  intros Hm Hk s Hs. destruct (Hm s Hs) as (a & s1 & Heq & Hs1).
  destruct (Hk a s1 Hs1) as (b & s2 & Heq2 & Hs2).
  exists b, s2. unfold bind. by rewrite Heq.
Qed.

Lemma keeps_for_of {A} (P : State → Prop) (l : list A)
    (body : A → M State ctl) :
  (∀ x, x ∈ l → keeps P (body x)) → keeps P (for_of l body).
Proof.
  induction l as [|x l IH]; intros Hbody; simpl.
  - apply keeps_ret.
  - apply keeps_bind; [apply Hbody; left|].
    intros [|]; [|apply keeps_ret]. apply IH. intros y Hy. apply Hbody.
    by right.
Qed.

Lemma keeps_update_event (P : State → Prop) (f : Event → Event) :
  (∀ s, P s → P (with_event (f (event s)) s)) → keeps P (update_event f).
Proof. intros Hf s Hs. exists tt, (with_event (f (event s)) s). auto. Qed.

Section Keeps.

Variable bodies : Bodies.
Variable P : State → Prop.
(** What is known of an entry found in a registry while [P] holds. *)
Variable Q : node → entry → Prop.

Hypothesis fire_keeps : ∀ n en s, Q n en → P s → P (fire bodies n en s).
Hypothesis snapshot_known :
  ∀ n en s, P s → en ∈ regs (heap s) n (type (event s)) → Q n en.
Hypothesis currentTarget_keeps :
  ∀ n s, P s → P (with_event (set_currentTarget (Some n) (event s)) s).
Hypothesis phase_keeps :
  ∀ ph s, ph ∈ [CAPTURING_PHASE; AT_TARGET; BUBBLING_PHASE] → P s →
          P (with_event (set_phase ph (event s)) s).

Lemma keeps_entries_loop (this : node) (sel : entry → bool)
    (snapshot : list entry) :
  Forall (Q this) snapshot →
  keeps (λ s, P s ∧ ordinary (type (event s)))
    (entries_loop bodies this sel snapshot).
Proof.
  induction 1 as [|en rest Hen _ IH]; intros s [Hs Hty].
  - by exists tt, s.
  - rewrite entries_loop_cons by done.
    destruct (sel en); [|by apply IH].
    assert (Hfired : P (fire bodies this en s) ∧
                     ordinary (type (event (fire bodies this en s)))).
    { split; [by apply fire_keeps|by rewrite fire_type]. }
    destruct (_immediatePropagationStopped _).
    + by exists tt, (fire bodies this en s).
    + by apply IH.
Qed.

Lemma keeps_invokeListeners (this : node) (forCapture : bool) :
  keeps (λ s, P s ∧ ordinary (type (event s)))
    (_invokeListeners bodies this forCapture).
Proof.
  intros s [Hs Hty]. rewrite invokeListeners_loop by done.
  apply keeps_entries_loop; [|done]. apply Forall_forall.
  intros en Hen. by apply (snapshot_known this en s).
Qed.

Lemma keeps_invokeListenersAtTarget (this : node) :
  keeps (λ s, P s ∧ ordinary (type (event s)))
    (_invokeListenersAtTarget bodies this).
Proof.
  intros s [Hs Hty]. rewrite invokeListenersAtTarget_loop by done.
  apply keeps_entries_loop; [|done]. apply Forall_forall.
  intros en Hen. by apply (snapshot_known this en s).
Qed.

Lemma keeps_dispatch_phases (this : node) (path : list node) :
  keeps (λ s, P s ∧ ordinary (type (event s)))
    (dispatch_phases bodies this path).
Proof.
  set (PO := λ s, P s ∧ ordinary (type (event s))).
  assert (Hphase : ∀ ph,
            ph ∈ [CAPTURING_PHASE; AT_TARGET; BUBBLING_PHASE] →
            keeps PO (update_event (set_phase ph))).
  { intros ph Hph. apply keeps_update_event. intros s [Hs Hty].
    split; [by apply phase_keeps|done]. }
  assert (Hcur : ∀ n, keeps PO (update_event (set_currentTarget (Some n)))).
  { intros n. apply keeps_update_event. intros s [Hs Hty].
    split; [by apply currentTarget_keeps|done]. }
  assert (Hloop : ∀ forCapture nodes,
            keeps PO
              (for_of nodes (λ n,
                 s <- get ;;
                 if _propagationStopped (event s) then ret Break
                 else
                   update_event (set_currentTarget (Some n)) ;;
                   _invokeListeners bodies n forCapture ;;
                   ret Continue))).
  { intros forCapture nodes. apply keeps_for_of. intros n _.
    apply keeps_bind; [apply keeps_get|]. intros s.
    destruct (_propagationStopped (event s)); [apply keeps_ret|].
    apply keeps_bind; [apply Hcur|]. intros _.
    apply keeps_bind; [apply keeps_invokeListeners|]. intros _.
    apply keeps_ret. }
  unfold dispatch_phases.
  apply keeps_bind; [apply Hphase; set_solver|]. intros _.
  apply keeps_bind; [apply Hloop|]. intros _.
  apply keeps_bind; [apply keeps_get|]. intros s1.
  apply keeps_bind.
  { destruct (negb (_propagationStopped (event s1))); [|apply keeps_ret].
    apply keeps_bind; [apply Hphase; set_solver|]. intros _.
    apply keeps_bind; [apply Hcur|]. intros _.
    apply keeps_invokeListenersAtTarget. }
  intros _. apply keeps_bind; [apply keeps_get|]. intros s2.
  apply keeps_bind.
  { destruct (negb (_propagationStopped (event s2)) && bubbles (event s2));
      [|apply keeps_ret].
    apply keeps_bind; [apply Hphase; set_solver|]. intros _. apply Hloop. }
  intros _. apply keeps_bind; [apply keeps_get|]. intros s3. apply keeps_ret.
Qed.

(** An invariant of the listeners and of the bookkeeping of the
    dispatcher holds when dispatchEvent returns. *)
Lemma dispatch_keeps (fuel : nat) (this : node) (e : Event) (h : Heap)
    (path : list node) :
  ordinary (type e) →
  path_loop fuel h (Some this) [] = Some path →
  P {| heap := h; event := set_target (Some this) e; console := [];
       trace := [] |} →
  ∃ s', dispatch bodies fuel this e h =
          Some (Ok (negb (defaultPrevented (event s'))), s') ∧
        P s'.
Proof.
  intros Hty Hpath Hinit.
  destruct (dispatch_structure bodies fuel this e h path Hty Hpath)
    as (s' & Hd & _).
  exists s'. split; [done|].
  unfold dispatch, dispatchEvent in Hd. cbn [heap event with_event] in Hd.
  rewrite Hpath in Hd.
  destruct (keeps_dispatch_phases this path _ (conj Hinit Hty))
    as (b & s'' & Heq & Hs & _).
  unfold with_event in Hd. cbn [heap event console trace] in Hd.
  rewrite Heq in Hd. by injection Hd as _ <-.
Qed.

End Keeps.

(** ** What a dispatch does to the event, the tree and the registries *)

Lemma apply_calls_cancelable (cs : list EventCall) (e : Event) :
  cancelable (foldl apply_call e cs) = cancelable e.
Proof. destruct (apply_calls_evolves cs e) as (He & _). apply He. Qed.

Lemma prevented_after_calls (cs : list EventCall) (e : Event) :
  cancelable e = true →
  defaultPrevented (foldl apply_call e cs) = true ↔
  defaultPrevented e = true ∨ CallPreventDefault ∈ cs.
Proof.
  revert e. induction cs as [|c cs IH]; intros e Hc; simpl.
  - rewrite elem_of_nil. tauto.
  - rewrite IH, elem_of_cons.
    + destruct c; simpl; unfold preventDefault; rewrite ?Hc; simpl;
        intuition congruence.
    + destruct c; simpl; unfold preventDefault; rewrite ?Hc; done.
Qed.

(** X4.  On a finite parent chain, dispatchEvent of a cancelable event
    of an ordinary type returns, given enough iterations for the path
    loop, and it returns false exactly when the event came in with
    [defaultPrevented] set or one of the listeners it invoked called
    preventDefault; the flag of the event is the negation of the
    result. *)
Theorem dispatch_reports_preventDefault (bodies : Bodies)
    (this : node) (e : Event) (h : Heap) :
  ordinary (type e) →
  rooted h this →
  cancelable e = true →
  ∃ fuel0, ∀ fuel, (fuel0 ≤ fuel)%nat →
    ∃ b s',
      dispatch bodies fuel this e h = Some (Ok b, s') ∧
      defaultPrevented (event s') = negb b ∧
      (b = false ↔
       defaultPrevented e = true ∨
       ∃ i, i ∈ trace s' ∧ CallPreventDefault ∈ inv_calls i).
Proof.
  intros Hty Hrooted Hc.
  destruct (rooted_path h this Hrooted) as (fuel0 & path & Hpaths).
  exists fuel0. intros fuel Hle. pose proof (Hpaths fuel Hle) as Hpath.
  set (P := λ s : State,
         cancelable (event s) = true ∧
         (defaultPrevented (event s) = true ↔
          defaultPrevented e = true ∨
          ∃ i, i ∈ trace s ∧ CallPreventDefault ∈ inv_calls i)).
  assert (Hfire : ∀ n en s, True → P s → P (fire bodies n en s)).
  { intros n en s _ [Hcs Hs].
    destruct (fire_trace bodies n en s) as (i & Ht & _ & _ & _ & _ & He).
    split.
    - by rewrite He, apply_calls_cancelable.
    - rewrite He, prevented_after_calls, Hs by done. split.
      + intros [[?|(j & Hj & ?)]|?]; [by left| |].
        * right. exists j. rewrite Ht, elem_of_app. tauto.
        * right. exists i. rewrite Ht, elem_of_app, list_elem_of_singleton.
          tauto.
      + intros [?|(j & Hj & Hcall)]; [by left; left|].
        rewrite Ht in Hj. apply elem_of_app in Hj as [Hj|Hj].
        * left. right. by exists j.
        * apply list_elem_of_singleton in Hj as ->. by right. }
  assert (Hinit : P {| heap := h; event := set_target (Some this) e;
                       console := []; trace := [] |}).
  { split; [done|]. simpl. split; [by left|].
    intros [?|(i & Hi & _)]; [done|]. by apply elem_of_nil in Hi. }
  destruct (dispatch_keeps bodies P (λ _ _, True) Hfire
              ltac:(done) ltac:(done) ltac:(done)
              fuel this e h path Hty Hpath Hinit) as (s' & Hd & _ & Hiff).
  exists (negb (defaultPrevented (event s'))), s'.
  split_and!; [done|by rewrite negb_involutive|].
  rewrite <- Hiff. by destruct (defaultPrevented (event s')).
Qed.

Lemma same_tree_refl (h : Heap) : same_tree h h.
Proof. by intros m. Qed.

Lemma same_tree_trans (h1 h2 h3 : Heap) :
  same_tree h1 h2 → same_tree h2 h3 → same_tree h1 h3.
Proof.
  intros H12 H23 m. destruct (H12 m), (H23 m). split; congruence.
Qed.

(** X5.  The dispatcher itself never changes the tree: when the
    listeners leave the parent references and the children arrays alone,
    every node has the same parent and the same children after
    dispatchEvent of an event of an ordinary type as before. *)
Theorem dispatch_leaves_the_tree_alone (bodies : Bodies) (fuel : nat)
    (this : node) (e : Event) (h : Heap) (path : list node) :
  tree_keeping bodies →
  ordinary (type e) →
  path_loop fuel h (Some this) [] = Some path →
  ∃ b s',
    dispatch bodies fuel this e h = Some (Ok b, s') ∧
    same_tree h (heap s').
Proof.
  intros Hkeep Hty Hpath.
  set (P := λ s : State, same_tree h (heap s)).
  assert (Hfire : ∀ n en s, True → P s → P (fire bodies n en s)).
  { intros n en s _ Hs. unfold P, fire. cbn [heap].
    set (h1 := if once en then _ else _).
    assert (H1 : same_tree h h1).
    { subst h1. destruct (once en); [|done].
      eapply same_tree_trans; [done|apply tree_removeEventListener]. }
    eapply same_tree_trans; [done|]. intros m. apply Hkeep. }
  destruct (dispatch_keeps bodies P (λ _ _, True) Hfire
              ltac:(done) ltac:(done) ltac:(done)
              fuel this e h path Hty Hpath (same_tree_refl h))
    as (s' & Hd & Hs).
  by eexists _, s'.
Qed.

(** With listeners that leave the registries alone, what a dispatch
    invokes and what it removes is read from the registries it was given:
    only entries registered at the start are invoked, no registration
    appears, and a registration disappears only when a one-shot entry of
    the same node with the same callback and capture flag was invoked. *)
Lemma dispatch_registries (bodies : Bodies) (fuel : nat) (this : node)
    (e : Event) (h : Heap) (path : list node) :
  registry_keeping bodies →
  ordinary (type e) →
  path_loop fuel h (Some this) [] = Some path →
  ∃ s',
    dispatch bodies fuel this e h =
      Some (Ok (negb (defaultPrevented (event s'))), s') ∧
    (∀ i, i ∈ trace s' → inv_entry i ∈ regs h (inv_this i) (type e)) ∧
    (∀ m ty x, x ∈ regs (heap s') m ty → x ∈ regs h m ty) ∧
    (∀ m ty x, x ∈ regs h m ty → x ∉ regs (heap s') m ty →
       ty = type e ∧
       ∃ i, i ∈ trace s' ∧ inv_this i = m ∧ once (inv_entry i) = true ∧
            listener (inv_entry i) = listener x ∧
            capture (inv_entry i) = capture x).
Proof.
  intros Hkeep Hord Hpath.
  set (P := λ s : State,
         type (event s) = type e ∧
         (∀ i, i ∈ trace s → inv_entry i ∈ regs h (inv_this i) (type e)) ∧
         (∀ m ty x, x ∈ regs (heap s) m ty → x ∈ regs h m ty) ∧
         (∀ m ty x, x ∈ regs h m ty → x ∉ regs (heap s) m ty →
            ty = type e ∧
            ∃ i, i ∈ trace s ∧ inv_this i = m ∧ once (inv_entry i) = true ∧
                 listener (inv_entry i) = listener x ∧
                 capture (inv_entry i) = capture x)).
  set (Q := λ (n : node) (en : entry), en ∈ regs h n (type e)).
  assert (Hfire : ∀ n en s, Q n en → P s → P (fire bodies n en s)).
  { intros n en s Hen (Hty & Hinv & Hsub & Hgone).
    destruct (fire_trace bodies n en s) as (i & Ht & _ & Hn & _ & Hi & He).
    assert (Hregs : ∀ m ty,
              regs (heap (fire bodies n en s)) m ty =
              if decide (once en = true ∧ m = n ∧ ty = type e)
              then filter (λ x, ¬ (listener x = listener en ∧
                                   capture x = capture en))
                     (regs (heap s) n (type e))
              else regs (heap s) m ty).
    { intros m ty. unfold fire. cbn [heap]. unfold regs at 1.
      rewrite Hkeep. rewrite Hty.
      match goal with
      | |- default [] (_listeners (?h1 m) !! ty) = _ =>
          change (default [] (_listeners (h1 m) !! ty)) with (regs h1 m ty)
      end.
      destruct (once en).
      - rewrite regs_removeEventListener. simpl.
        destruct (decide (m = n ∧ ty = type e)) as [[-> ->]|Hne].
        + by rewrite decide_True.
        + by rewrite decide_False by tauto.
      - by rewrite decide_False by (by intros [? _]). }
    split_and!.
    - rewrite He, <- Hty. apply apply_calls_evolves.
    - intros j. rewrite Ht, elem_of_app, list_elem_of_singleton.
      intros [Hj| ->]; [by apply Hinv|]. by rewrite Hi, Hn.
    - intros m ty x. rewrite Hregs.
      destruct (decide (once en = true ∧ m = n ∧ ty = type e))
        as [(_ & -> & ->)|_]; [|apply Hsub].
      intros [_ Hx]%list_elem_of_filter. by apply Hsub.
    - intros m ty x Hx Hnot.
      destruct (decide (x ∈ regs (heap s) m ty)) as [Hin|Hout].
      + rewrite Hregs in Hnot.
        destruct (decide (once en = true ∧ m = n ∧ ty = type e))
          as [(Honce & -> & ->)|_]; [|done].
        split; [done|].
        exists i. rewrite Ht, elem_of_app, list_elem_of_singleton, Hi, Hn.
        split_and!; [by right|done..| |].
        * destruct (decide (listener en = listener x)); [done|].
          destruct Hnot. apply list_elem_of_filter. split; [|done].
          intros [? _]. congruence.
        * destruct (decide (capture en = capture x)); [done|].
          destruct Hnot. apply list_elem_of_filter. split; [|done].
          intros [_ ?]. congruence.
      + destruct (Hgone m ty x Hx Hout) as (-> & j & Hj & ?).
        split; [done|]. exists j. rewrite Ht, elem_of_app. tauto. }
  assert (Hsnap : ∀ n en s,
            P s → en ∈ regs (heap s) n (type (event s)) → Q n en).
  { intros n en s (Hty & _ & Hsub & _) Hen. rewrite Hty in Hen.
    by apply Hsub. }
  assert (Hinit : P {| heap := h; event := set_target (Some this) e;
                       console := []; trace := [] |}).
  { split_and!; simpl; [done| |done|done].
    intros i Hi. by apply elem_of_nil in Hi. }
  destruct (dispatch_keeps bodies P Q Hfire Hsnap
              ltac:(done) ltac:(done)
              fuel this e h path Hord Hpath Hinit)
    as (s' & Hd & _ & Hinv & Hsub & Hgone).
  by exists s'.
Qed.

(** X6.  With listeners that leave the registries alone, a dispatch of
    an event of an ordinary type invokes only entries that were registered for the type of the event
    when it started, adds no registration, and takes a registration away
    only when a one-shot entry of the same node with the same callback and
    capture flag was invoked. *)
Theorem dispatch_changes_registries_by_once_only (bodies : Bodies)
    (fuel : nat) (this : node) (e : Event) (h : Heap) (path : list node) :
  registry_keeping bodies →
  ordinary (type e) →
  path_loop fuel h (Some this) [] = Some path →
  ∃ b s',
    dispatch bodies fuel this e h = Some (Ok b, s') ∧
    (∀ i, i ∈ trace s' → inv_entry i ∈ regs h (inv_this i) (type e)) ∧
    (∀ m ty x, x ∈ regs (heap s') m ty → x ∈ regs h m ty) ∧
    (∀ m ty x, x ∈ regs h m ty → x ∉ regs (heap s') m ty →
       ty = type e ∧
       ∃ i, i ∈ trace s' ∧ inv_this i = m ∧ once (inv_entry i) = true ∧
            listener (inv_entry i) = listener x ∧
            capture (inv_entry i) = capture x).
Proof.
  intros Hkeep Hty Hpath.
  destruct (dispatch_registries bodies fuel this e h path Hkeep Hty Hpath)
    as (s' & Hd & ?).
  by eexists _, s'.
Qed.


Lemma nodes_loop_stopped (bodies : Bodies) (forCapture : bool)
    (nodes : list node) (s : State) :
  _propagationStopped (event s) = true →
  nodes_loop bodies forCapture nodes s = (Ok tt, s).
Proof.
  intros Hs. destruct nodes as [|n nodes]; [done|].
  by rewrite nodes_loop_cons, Hs.
Qed.

(** X8.  On a finite parent chain, dispatching an event whose
    propagation has been stopped already (an event object that is used
    again, for one) returns, given enough iterations for the path loop;
    it invokes no listener on any node and leaves the store as it is: the
    event gets its target and the capturing phase, and the call returns
    the negation of [defaultPrevented].  No registry is read, so that
    this holds for every event type. *)
Theorem dispatch_of_stopped_event (bodies : Bodies) (this : node)
    (e : Event) (h : Heap) :
  rooted h this →
  _propagationStopped e = true →
  ∃ fuel0, ∀ fuel, (fuel0 ≤ fuel)%nat →
    dispatch bodies fuel this e h =
      Some (Ok (negb (defaultPrevented e)),
            {| heap := h;
               event := set_phase CAPTURING_PHASE (set_target (Some this) e);
               console := []; trace := [] |}).
Proof.
  intros Hrooted Hs.
  destruct (rooted_path h this Hrooted) as (fuel0 & path & Hpaths).
  exists fuel0. intros fuel Hle. pose proof (Hpaths fuel Hle) as Hpath.
  unfold dispatch, dispatchEvent.
  cbn [heap event with_event]. rewrite Hpath, dispatch_phases_loops.
  erewrite bind_ok by reflexivity.
  erewrite bind_ok by (by apply nodes_loop_stopped).
  erewrite bind_ok by reflexivity. cbv beta. cbn [event with_event].
  unfold set_phase at 1 2. cbn [_propagationStopped set_target].
  rewrite Hs. cbn [negb andb].
  erewrite bind_ok by reflexivity.
  erewrite bind_ok by reflexivity. cbv beta. cbn [event with_event].
  unfold set_phase at 1 2. cbn [_propagationStopped set_target].
  rewrite Hs. cbn [negb andb].
  erewrite bind_ok by reflexivity.
  erewrite bind_ok by reflexivity. reflexivity.
Qed.

(** X9.  An event of an ordinary type that does not bubble reaches no
    listener in the bubbling phase: every invocation of its dispatch is either made on
    the target in the target phase, or on a proper ancestor in the
    capturing phase and then of a capture registration. *)
Theorem dispatch_without_bubbling (bodies : Bodies) (fuel : nat)
    (this : node) (e : Event) (h : Heap) (path : list node) :
  ordinary (type e) →
  path_loop fuel h (Some this) [] = Some path →
  bubbles e = false →
  ∃ b s',
    dispatch bodies fuel this e h = Some (Ok b, s') ∧
    ∀ i, i ∈ trace s' →
      (inv_this i = this ∧ inv_phase i = AT_TARGET) ∨
      (inv_this i ∈ take (length path - 1) path ∧ inv_this i ≠ this ∧
       inv_phase i = CAPTURING_PHASE ∧ capture (inv_entry i) = true).
Proof.
  intros Hty Hpath Hb.
  destruct (path_loop_ancestors fuel h this path Hpath) as (_ & _ & Hthis).
  destruct (dispatch_structure bodies fuel this e h path Hty Hpath)
    as (s' & Hd & Hf & _).
  eexists _, s'. split; [done|]. intros i Hi.
  destruct (follows_in_slot _ _ i Hf Hi) as (k & Hk & Hn & Hph & Hcap).
  rewrite Hb in Hk. unfold schedule in Hk. rewrite app_nil_r in Hk.
  apply elem_of_app in Hk as [Hk|Hk].
  - apply list_elem_of_fmap in Hk as (m & -> & Hm). simpl in *. right.
    split_and!; [by rewrite Hn| |done|by apply Hcap].
    rewrite Hn. by intros ->.
  - apply list_elem_of_singleton in Hk as ->. simpl in *. by left.
Qed.


(** ** What the mutations leave behind *)

Lemma removeChild_listeners (h : Heap) (this child m : node) :
  _listeners (snd (removeChild this child h) m) = _listeners (h m).
Proof.
  unfold removeChild, bind, get, set_parentNode, set_childNodes, modify, ret.
  simpl. destruct (indexOf (childNodes (h this)) child =? -1); simpl; [done|].
  by autorewrite with store.
Qed.

Lemma detach_listeners (h : Heap) (x m : node) :
  _listeners (snd (detach x h) m) = _listeners (h m).
Proof.
  unfold detach, bind, get; simpl.
  destruct (parentNode (h x)) as [p|]; [|done].
  pose proof (removeChild_listeners h p x m) as Hl.
  by destruct (removeChild p x h) as [[r|err] h'].
Qed.

Lemma indexOf_middle (l1 l2 : list node) (x : node) :
  x ∉ l1 → indexOf (l1 ++ x :: l2) x = Z.of_nat (length l1).
Proof.
  induction l1 as [|y l1 IH]; intros Hx; simpl.
  - by rewrite decide_True.
  - apply not_elem_of_cons in Hx as [Hne Hx].
    rewrite decide_False by congruence. rewrite IH by done.
    destruct (Z.eqb_spec (Z.of_nat (length l1)) (-1)); lia.
Qed.

(** A successful appendChild, field by field. *)
Lemma appendChild_ok (h : Heap) (this child : node) :
  well_formed h →
  ∃ h',
    appendChild this child h = (Ok child, h') ∧
    (∀ m, parentNode (h' m) =
          if decide (m = child) then Some this else parentNode (h m)) ∧
    (∀ m, childNodes (h' m) =
          if decide (m = this)
          then filter (λ y, y ≠ child) (childNodes (h this)) ++ [child]
          else filter (λ y, y ≠ child) (childNodes (h m))) ∧
    (∀ m, _listeners (h' m) = _listeners (h m)).
Proof.
  intros Hwf.
  destruct (detach_ok h child Hwf) as (h1 & Hd & HP & HC).
  pose proof (detach_listeners h child) as HL. rewrite Hd in HL. simpl in HL.
  unfold appendChild, bind. rewrite Hd.
  unfold get, set_parentNode, set_childNodes, modify, ret; simpl.
  eexists. split; [done|]. split_and!; intros m; autorewrite with store.
  - rewrite HP. by destruct (decide (m = child)).
  - rewrite !HC. by destruct (decide (m = this)).
  - apply HL.
Qed.

(** X11.  On a well-formed tree appendChild returns the child, which then
    has the receiver as its parent and is the last of the receiver's
    children; it stands nowhere else, neither among the children of the
    parent it had nor earlier among those of the receiver.  No other
    parent reference, no other entry of a children array and no registry
    changes. *)
Theorem appendChild_moves_child_to_the_end (h : Heap) (this child : node) :
  well_formed h →
  ∃ h',
    appendChild this child h = (Ok child, h') ∧
    parentNode (h' child) = Some this ∧
    childNodes (h' this) =
      filter (λ y, y ≠ child) (childNodes (h this)) ++ [child] ∧
    (∀ m, m ≠ this → child ∉ childNodes (h' m)) ∧
    (∀ m, m ≠ this → parentNode (h child) ≠ Some m →
          childNodes (h' m) = childNodes (h m)) ∧
    (∀ m, m ≠ this → parentNode (h child) = Some m →
          childNodes (h' m) = filter (λ y, y ≠ child) (childNodes (h m))) ∧
    (∀ m, m ≠ child → parentNode (h' m) = parentNode (h m)) ∧
    (∀ m, _listeners (h' m) = _listeners (h m)).
Proof.
  intros Hwf.
  destruct (appendChild_ok h this child Hwf) as (h' & Heq & HP & HC & HL).
  exists h'. split_and!; [done| | | | | | |done].
  - by rewrite HP, decide_True.
  - by rewrite HC, decide_True.
  - intros m Hm. rewrite HC, decide_False by done.
    by intros [Hne _]%list_elem_of_filter.
  - intros m Hm Hp. rewrite HC, decide_False by done. apply filter_ne_id.
    intros Hin. by apply (wf_agree h Hwf) in Hin.
  - intros m Hm _. by rewrite HC, decide_False.
  - intros m Hm. by rewrite HP, decide_False.
Qed.

(** X12.  removeChild of a child returns it, clears its parent reference
    and takes its first occurrence out of the children of the receiver,
    the other children keeping their order; nothing else changes.  When
    the children were distinct, the child is among them no more. *)
Theorem removeChild_detaches_child (h : Heap) (this child : node) :
  child ∈ childNodes (h this) →
  ∃ h' l1 l2,
    removeChild this child h = (Ok child, h') ∧
    childNodes (h this) = l1 ++ child :: l2 ∧ (child ∉ l1) ∧
    childNodes (h' this) = l1 ++ l2 ∧
    parentNode (h' child) = None ∧
    (∀ m, m ≠ this → childNodes (h' m) = childNodes (h m)) ∧
    (∀ m, m ≠ child → parentNode (h' m) = parentNode (h m)) ∧
    (∀ m, _listeners (h' m) = _listeners (h m)) ∧
    (NoDup (childNodes (h this)) → child ∉ childNodes (h' this)).
Proof.
  intros Hin.
  destruct (removeChild_ok h this child Hin) as (h' & Heq & HP & HC).
  pose proof (removeChild_listeners h this child) as HL.
  rewrite Heq in HL. simpl in HL.
  destruct (indexOf_elem _ _ Hin) as (l1 & l2 & Hl & Hl1 & Hidx).
  assert (Hthis : childNodes (h' this) = l1 ++ l2).
  { by rewrite HC, decide_True, Hidx, Hl, splice_remove_app. }
  exists h', l1, l2. split_and!; [done..| | | |done|].
  - by rewrite HP, decide_True.
  - intros m Hm. by rewrite HC, decide_False.
  - intros m Hm. by rewrite HP, decide_False.
  - rewrite Hthis, Hl. intros Hnd Hc.
    apply NoDup_app in Hnd as (_ & Hdisj & Hnd2).
    apply NoDup_cons in Hnd2 as [Hl2 _].
    apply elem_of_app in Hc as [Hc|Hc]; done.
Qed.

(** A successful insertBefore, field by field. *)
Lemma insertBefore_ok (h : Heap) (this newNode ref : node)
    (l1 l2 : list node) :
  well_formed h →
  childNodes (h this) = l1 ++ ref :: l2 →
  ∃ h',
    insertBefore this newNode (Some ref) h = (Ok newNode, h') ∧
    (∀ m, parentNode (h' m) =
          if decide (m = newNode) then Some this else parentNode (h m)) ∧
    (∀ m, childNodes (h' m) =
          if decide (m = this)
          then splice_insert (Z.of_nat (length l1)) newNode
                 (filter (λ y, y ≠ newNode) (l1 ++ ref :: l2))
          else filter (λ y, y ≠ newNode) (childNodes (h m))) ∧
    (∀ m, _listeners (h' m) = _listeners (h m)).
Proof.
  intros Hwf Hl.
  assert (Hidx : indexOf (childNodes (h this)) ref = Z.of_nat (length l1)).
  { rewrite Hl. apply indexOf_middle.
    pose proof (wf_distinct h Hwf this) as Hnd. rewrite Hl in Hnd.
    apply NoDup_app in Hnd as (_ & Hdisj & _). intros Hin.
    apply (Hdisj ref Hin). left. }
  destruct (detach_ok h newNode Hwf) as (h1 & Hd & HP & HC).
  pose proof (detach_listeners h newNode) as HL. rewrite Hd in HL.
  simpl in HL.
  unfold insertBefore, bind, get; simpl. rewrite Hidx.
  destruct (Z.eqb_spec (Z.of_nat (length l1)) (-1)) as [?|_]; [lia|].
  rewrite Hd. unfold set_parentNode, set_childNodes, modify, ret; simpl.
  eexists. split; [done|]. split_and!; intros m; autorewrite with store.
  - rewrite HP. by destruct (decide (m = newNode)).
  - rewrite !HC, Hl. by destruct (decide (m = this)).
  - apply HL.
Qed.

(** X13.  insertBefore with a reference node that is a child of the
    receiver, on a well-formed tree: the new node gets the receiver as
    parent and leaves the place it had.  It comes to stand right before
    the reference node, unless it was itself a child of the receiver
    standing before the reference node: the index of the reference node
    is taken before the new node is detached, so the new node then comes
    to stand right after the reference node. *)
Theorem insertBefore_position (h : Heap) (this newNode ref : node)
    (l1 l2 : list node) :
  well_formed h →
  childNodes (h this) = l1 ++ ref :: l2 →
  ∃ h',
    insertBefore this newNode (Some ref) h = (Ok newNode, h') ∧
    parentNode (h' newNode) = Some this ∧
    (∀ m, m ≠ newNode → parentNode (h' m) = parentNode (h m)) ∧
    (∀ m, m ≠ this →
          childNodes (h' m) = filter (λ y, y ≠ newNode) (childNodes (h m))) ∧
    (newNode ∉ l1 →
     childNodes (h' this) =
       l1 ++ newNode :: filter (λ y, y ≠ newNode) (ref :: l2)) ∧
    (newNode ∈ l1 →
     childNodes (h' this) =
       filter (λ y, y ≠ newNode) l1 ++ ref :: newNode :: l2).
Proof.
  intros Hwf Hl.
  destruct (insertBefore_ok h this newNode ref l1 l2 Hwf Hl)
    as (h' & Heq & HP & HC & _).
  pose proof (wf_distinct h Hwf this) as Hnd. rewrite Hl in Hnd.
  exists h'. split_and!; [done| | | | |].
  - by rewrite HP, decide_True.
  - intros m Hm. by rewrite HP, decide_False.
  - intros m Hm. by rewrite HC, decide_False.
  - intros Hout. rewrite HC, decide_True by done.
    rewrite filter_app, (filter_ne_id l1) by done.
    unfold splice_insert. rewrite Nat2Z.id.
    by rewrite take_app_length, drop_app_length.
  - intros Hin. rewrite HC, decide_True by done.
    apply NoDup_app in Hnd as (Hnd1 & Hdisj & Hnd2).
    assert (Hne : ref ≠ newNode).
    { intros ->. apply (Hdisj newNode Hin). left. }
    assert (Hl2 : newNode ∉ l2).
    { intros Hin2. apply (Hdisj newNode Hin). by right. }
    rewrite filter_app, filter_cons_True, (filter_ne_id l2) by done.
    apply list_elem_of_split in Hin as (la & lb & ->).
    rewrite filter_ne_middle by done.
    unfold splice_insert. rewrite Nat2Z.id.
    replace (length (la ++ newNode :: lb)) with (length ((la ++ lb) ++ [ref]))
      by (rewrite !length_app; simpl; lia).
    rewrite (app_assoc (la ++ lb) [ref] l2 : (la ++ lb) ++ ref :: l2 = _).
    rewrite take_app_length, drop_app_length.
    by rewrite <- !app_assoc.
Qed.

(** A successful replaceChild, field by field. *)
Lemma replaceChild_ok (h : Heap) (this newChild oldChild : node)
    (l1 l2 : list node) :
  well_formed h →
  childNodes (h this) = l1 ++ oldChild :: l2 →
  ∃ h',
    replaceChild this newChild oldChild h = (Ok oldChild, h') ∧
    (∀ m, parentNode (h' m) =
          if decide (m = newChild) then Some this
          else if decide (m = oldChild) then None else parentNode (h m)) ∧
    (∀ m, childNodes (h' m) =
          if decide (m = this)
          then array_set (Z.of_nat (length l1)) newChild
                 (filter (λ y, y ≠ newChild) (l1 ++ oldChild :: l2))
          else filter (λ y, y ≠ newChild) (childNodes (h m))) ∧
    (∀ m, _listeners (h' m) = _listeners (h m)).
Proof.
  intros Hwf Hl.
  assert (Hidx : indexOf (childNodes (h this)) oldChild
                 = Z.of_nat (length l1)).
  { rewrite Hl. apply indexOf_middle.
    pose proof (wf_distinct h Hwf this) as Hnd. rewrite Hl in Hnd.
    apply NoDup_app in Hnd as (_ & Hdisj & _). intros Hin.
    apply (Hdisj oldChild Hin). left. }
  destruct (detach_ok h newChild Hwf) as (h1 & Hd & HP & HC).
  pose proof (detach_listeners h newChild) as HL. rewrite Hd in HL.
  simpl in HL.
  unfold replaceChild, bind, get; simpl. rewrite Hidx.
  destruct (Z.eqb_spec (Z.of_nat (length l1)) (-1)) as [?|_]; [lia|].
  rewrite Hd. unfold set_parentNode, set_childNodes, modify, ret; simpl.
  eexists. split; [done|]. split_and!; intros m; autorewrite with store.
  - rewrite HP. destruct (decide (m = newChild)) as [->|]; [done|].
    by destruct (decide (m = oldChild)).
  - rewrite !HC, Hl. by destruct (decide (m = this)).
  - apply HL.
Qed.

(** X14.  replaceChild with an old child that is a child of the
    receiver, on a well-formed tree, returns the old child.  When the new
    child is neither the old child nor a child of the receiver standing
    before it, the new child takes the place of the old one, which is
    left without parent and out of the children.  Otherwise the index of
    the old child, taken before the new child is detached, is one too
    far: a new child that stood before the old one is written after it,
    the old child stays among the children although its parent reference
    is cleared, and the child that followed it is overwritten; a child
    replaced by itself overwrites its next sibling. *)
Theorem replaceChild_position (h : Heap) (this newChild oldChild : node)
    (l1 l2 : list node) :
  well_formed h →
  childNodes (h this) = l1 ++ oldChild :: l2 →
  ∃ h',
    replaceChild this newChild oldChild h = (Ok oldChild, h') ∧
    parentNode (h' newChild) = Some this ∧
    (newChild ∉ l1 → newChild ≠ oldChild →
     childNodes (h' this) =
       l1 ++ newChild :: filter (λ y, y ≠ newChild) l2 ∧
     parentNode (h' oldChild) = None ∧
     (oldChild ∉ childNodes (h' this))) ∧
    (newChild ∈ l1 →
     childNodes (h' this) =
       filter (λ y, y ≠ newChild) l1 ++ oldChild :: newChild :: drop 1 l2 ∧
     parentNode (h' oldChild) = None ∧
     ∀ z, head l2 = Some z →
          parentNode (h' z) = Some this ∧ (z ∉ childNodes (h' this))) ∧
    (newChild = oldChild →
     childNodes (h' this) = l1 ++ oldChild :: drop 1 l2).
Proof.
  intros Hwf Hl.
  destruct (replaceChild_ok h this newChild oldChild l1 l2 Hwf Hl)
    as (h' & Heq & HP & HC & _).
  pose proof (wf_distinct h Hwf this) as Hnd. rewrite Hl in Hnd.
  pose proof Hnd as Hnd'.
  apply NoDup_app in Hnd' as (Hnd1 & Hdisj & Hnd2).
  apply NoDup_cons in Hnd2 as [Hold2 Hnd2].
  assert (Hold1 : oldChild ∉ l1).
  { intros Hin. apply (Hdisj oldChild Hin). left. }
  exists h'. split_and!; [done| | | |].
  - by rewrite HP, decide_True.
  - intros Hout Hne.
    assert (Hthis : childNodes (h' this) =
              l1 ++ newChild :: filter (λ y, y ≠ newChild) l2).
    { rewrite HC, decide_True by done.
      rewrite filter_app, (filter_ne_id l1), filter_cons_True by done.
      apply array_set_app. }
    split_and!; [done| |].
    + by rewrite HP, decide_False, decide_True.
    + rewrite Hthis, not_elem_of_app, not_elem_of_cons.
      split_and!; [done|done|].
      by intros [_ ?]%list_elem_of_filter.
  - intros Hin.
    assert (Hne : oldChild ≠ newChild).
    { intros ->. apply (Hdisj newChild Hin). left. }
    assert (Hl2 : newChild ∉ l2).
    { intros Hin2. apply (Hdisj newChild Hin). by right. }
    assert (Hthis : childNodes (h' this) =
              filter (λ y, y ≠ newChild) l1 ++
                oldChild :: newChild :: drop 1 l2).
    { rewrite HC, decide_True by done.
      rewrite filter_app, filter_cons_True, (filter_ne_id l2) by done.
      pose proof Hin as Hin'.
      apply list_elem_of_split in Hin' as (la & lb & ->).
      rewrite filter_ne_middle by done.
      unfold array_set. rewrite Nat2Z.id.
      replace (length (la ++ newChild :: lb))
        with (length ((la ++ lb) ++ [oldChild]))
        by (rewrite !length_app; simpl; lia).
      rewrite (app_assoc (la ++ lb) [oldChild] l2
                 : (la ++ lb) ++ oldChild :: l2 = _).
      rewrite take_app_length.
      replace (S (length ((la ++ lb) ++ [oldChild])))
        with (length ((la ++ lb) ++ [oldChild]) + 1)%nat by lia.
      rewrite <- drop_drop, drop_app_length.
      by rewrite <- !app_assoc. }
    split_and!; [done| |].
    + by rewrite HP, decide_False, decide_True.
    + intros z Hz. destruct l2 as [|z' l2']; [done|].
      injection Hz as ->. apply NoDup_cons in Hnd2 as [Hz Hnd2].
      assert (Hz1 : z ∉ l1).
      { intros Hz1. apply (Hdisj z Hz1). right. left. }
      split.
      * rewrite HP, !decide_False.
        -- apply (wf_agree h Hwf). rewrite Hl. set_solver.
        -- intros ->. apply Hold2. left.
        -- intros ->. apply Hl2. left.
      * rewrite Hthis. simpl. rewrite drop_0.
        rewrite !not_elem_of_app, !not_elem_of_cons.
        split_and!.
        -- by intros [_ ?]%list_elem_of_filter.
        -- intros ->. apply Hold2. left.
        -- intros ->. apply Hl2. left.
        -- done.
  - intros ->. rewrite HC, decide_True by done.
    rewrite filter_ne_middle by done.
    unfold array_set. rewrite Nat2Z.id.
    rewrite take_app_length.
    replace (S (length l1)) with (length l1 + 1)%nat by lia.
    by rewrite <- drop_drop, drop_app_length.
Qed.

(** X15.  Appending a node that has no parent and removing it again
    gives back the store as it was: every node has the parent, the
    children and the registrations it had. *)
Theorem appendChild_then_removeChild (h : Heap) (this child : node) :
  well_formed h →
  parentNode (h child) = None →
  ∃ h1 h2,
    appendChild this child h = (Ok child, h1) ∧
    removeChild this child h1 = (Ok child, h2) ∧
    same_store h h2.
Proof.
  intros Hwf Hfree.
  assert (Hout : ∀ m, child ∉ childNodes (h m)).
  { intros m Hin. apply (wf_agree h Hwf) in Hin. congruence. }
  destruct (appendChild_ok h this child Hwf) as (h1 & Heq1 & HP1 & HC1 & HL1).
  assert (Hthis : childNodes (h1 this) = childNodes (h this) ++ [child]).
  { by rewrite HC1, decide_True, filter_ne_id. }
  destruct (removeChild_ok h1 this child) as (h2 & Heq2 & HP2 & HC2).
  { rewrite Hthis, elem_of_app, list_elem_of_singleton. by right. }
  pose proof (removeChild_listeners h1 this child) as HL2.
  rewrite Heq2 in HL2. simpl in HL2.
  exists h1, h2. split_and!; [done..|]. intros m. split_and!.
  - by rewrite HL2, HL1.
  - rewrite HP2, HP1. by destruct (decide (m = child)) as [->|].
  - rewrite HC2. destruct (decide (m = this)) as [->|Hm].
    + rewrite Hthis, indexOf_middle by done.
      rewrite splice_remove_app. by rewrite app_nil_r.
    + by rewrite HC1, decide_False, filter_ne_id.
Qed.

(** ** Navigation *)

(** The neighbours of the node at a given index among the children of
    its parent. *)
Lemma siblings_at (h : Heap) (p c : node) (l1 l2 : list node) :
  parentNode (h c) = Some p →
  childNodes (h p) = l1 ++ c :: l2 →
  (c ∉ l1) →
  nextSibling h c = head l2 ∧ previousSibling h c = last l1.
Proof.
  intros Hp Hl Hc. unfold nextSibling, previousSibling.
  rewrite Hp. simpl. rewrite Hl, indexOf_middle by done. split.
  - replace (Z.to_nat (Z.of_nat (length l1) + 1)) with (length l1 + 1)%nat
      by lia.
    rewrite lookup_app_r by lia.
    replace (length l1 + 1 - length l1)%nat with 1%nat by lia.
    by destruct l2.
  - destruct (Z.ltb_spec (Z.of_nat (length l1) - 1) 0) as [Hlt|Hge].
    + destruct l1; [done|]. simpl in Hlt. lia.
    + destruct l1 as [|a l1] using rev_ind; [simpl in Hge; lia|].
      rewrite last_snoc. rewrite length_app in *. simpl in *.
      rewrite <- app_assoc. simpl.
      replace (Z.to_nat (Z.of_nat (length l1 + 1) - 1)) with (length l1)
        by lia.
      by rewrite list_lookup_middle.
Qed.

Lemma nextSibling_inverse (h : Heap) (a b : node) :
  well_formed h →
  nextSibling h a = Some b ↔ previousSibling h b = Some a.
Proof.
  intros Hwf.
  assert (Hat : ∀ p c, parentNode (h c) = Some p →
            ∃ l1 l2, childNodes (h p) = l1 ++ c :: l2 ∧ (c ∉ l1) ∧
                     NoDup (l1 ++ c :: l2) ∧
                     nextSibling h c = head l2 ∧
                     previousSibling h c = last l1).
  { intros p c Hp.
    assert (Hin : c ∈ childNodes (h p)) by by apply (wf_agree h Hwf).
    destruct (indexOf_elem _ _ Hin) as (l1 & l2 & Hl & Hc & _).
    pose proof (wf_distinct h Hwf p) as Hnd. rewrite Hl in Hnd.
    destruct (siblings_at h p c l1 l2 Hp Hl Hc) as [Hn Hpv].
    by exists l1, l2. }
  split.
  - intros Hnext.
    destruct (parentNode (h a)) as [p|] eqn:Hp.
    2: { unfold nextSibling in Hnext. by rewrite Hp in Hnext. }
    destruct (Hat p a Hp) as (l1 & l2 & Hl & Ha & Hnd & Hn & _).
    rewrite Hn in Hnext. destruct l2 as [|b' l2]; [done|].
    injection Hnext as ->.
    assert (Hpb : parentNode (h b) = Some p).
    { apply (wf_agree h Hwf). rewrite Hl. set_solver. }
    assert (Hb : b ∉ l1 ++ [a]).
    { rewrite (app_assoc l1 [a] (b :: l2) : l1 ++ a :: b :: l2 = _) in Hnd.
      apply NoDup_app in Hnd as (_ & Hdisj & _). intros Hin.
      apply (Hdisj b Hin). left. }
    destruct (siblings_at h p b (l1 ++ [a]) l2 Hpb) as [_ Hprev];
      [by rewrite <- app_assoc|done|].
    by rewrite Hprev, last_snoc.
  - intros Hprev.
    destruct (parentNode (h b)) as [p|] eqn:Hp.
    2: { unfold previousSibling in Hprev. by rewrite Hp in Hprev. }
    destruct (Hat p b Hp) as (l1 & l2 & Hl & Hb & Hnd & _ & Hpv).
    rewrite Hpv in Hprev.
    destruct l1 as [|a' l1] using rev_ind; [done|].
    rewrite last_snoc in Hprev. injection Hprev as ->.
    rewrite <- app_assoc in Hl, Hnd. simpl in Hl, Hnd.
    assert (Hpa : parentNode (h a) = Some p).
    { apply (wf_agree h Hwf). rewrite Hl. set_solver. }
    assert (Ha : a ∉ l1).
    { apply NoDup_app in Hnd as (_ & Hdisj & _). intros Hin.
      apply (Hdisj a Hin). left. }
    by destruct (siblings_at h p a l1 (b :: l2) Hpa Hl Ha) as [-> _].
Qed.

(** X16.  On a well-formed tree the node at index [i] among the children
    of [p] has [p] as parent, the node at index [i + 1] as next sibling
    and the node at index [i - 1] as previous sibling, [null] standing
    for an index outside the array: the first child has no previous
    sibling and the last child no next sibling.  nextSibling and
    previousSibling are inverse to each other: a node is the next sibling
    of [c] exactly when [c] is its previous sibling. *)
Theorem siblings_follow_the_children_array (h : Heap) (p c : node)
    (i : nat) :
  well_formed h →
  childNodes (h p) !! i = Some c →
  parentNode (h c) = Some p ∧
  nextSibling h c = childNodes (h p) !! S i ∧
  previousSibling h c =
    match i with O => None | S j => childNodes (h p) !! j end ∧
  (firstChild h p = Some c → previousSibling h c = None) ∧
  (lastChild h p = Some c → nextSibling h c = None) ∧
  (∀ b, nextSibling h c = Some b ↔ previousSibling h b = Some c).
Proof.
  intros Hwf Hi.
  assert (Hp : parentNode (h c) = Some p).
  { apply (wf_agree h Hwf). by eapply list_elem_of_lookup_2. }
  pose proof (wf_distinct h Hwf p) as Hnd.
  apply list_elem_of_split_length in Hi as (l1 & l2 & Hl & Hlen).
  rewrite Hl in Hnd.
  assert (Hc1 : c ∉ l1).
  { apply NoDup_app in Hnd as (_ & Hdisj & _). intros Hin.
    apply (Hdisj c Hin). left. }
  assert (Hc2 : c ∉ l2).
  { apply NoDup_app in Hnd as (_ & _ & Hnd2).
    by apply NoDup_cons in Hnd2 as [? _]. }
  destruct (siblings_at h p c l1 l2 Hp Hl Hc1) as [Hnext Hprev].
  assert (Hnext' : nextSibling h c = childNodes (h p) !! S i).
  { rewrite Hnext, Hl, Hlen. rewrite lookup_app_r by lia.
    replace (S (length l1) - length l1)%nat with 1%nat by lia.
    by destruct l2. }
  assert (Hprev' : previousSibling h c =
            match i with O => None | S j => childNodes (h p) !! j end).
  { rewrite Hprev, Hl, Hlen.
    destruct l1 as [|a l1] using rev_ind; [done|].
    rewrite last_snoc, length_app. simpl.
    replace (length l1 + 1)%nat with (S (length l1)) by lia.
    rewrite <- app_assoc. simpl. by rewrite list_lookup_middle. }
  split_and!; [done..| | |by intros b; apply nextSibling_inverse].
  - unfold firstChild. rewrite Hl, Hprev.
    destruct l1 as [|a l1]; [done|]. simpl. intros [= ->].
    destruct Hc1. left.
  - unfold lastChild. rewrite Hl, Hnext.
    destruct l2 as [|b l2]; [done|].
    rewrite (app_assoc l1 [c] (b :: l2) : l1 ++ c :: b :: l2 = _).
    rewrite last_app. simpl last at 1.
    destruct (last (b :: l2)) as [z|] eqn:Hz.
    + intros [= ->]. destruct Hc2. by apply last_Some_elem_of.
    + by apply last_None in Hz.
Qed.

(** X17.  After appendChild on a well-formed tree the child is the last
    child of the receiver and has no next sibling; its previous sibling is
    the last of the other children.  After insertBefore of a node that is
    not a child of the receiver before a child [ref], the next sibling of
    the node is [ref] and the previous sibling of [ref] is the node. *)
Theorem navigation_after_insertion (h : Heap) (this n ref : node) :
  well_formed h →
  (∃ h', appendChild this n h = (Ok n, h') ∧
         lastChild h' this = Some n ∧
         nextSibling h' n = None ∧
         previousSibling h' n =
           last (filter (λ y, y ≠ n) (childNodes (h this)))) ∧
  (ref ∈ childNodes (h this) → n ∉ childNodes (h this) →
   ∃ h', insertBefore this n (Some ref) h = (Ok n, h') ∧
         nextSibling h' n = Some ref ∧
         previousSibling h' ref = Some n).
Proof.
  intros Hwf. split.
  - destruct (appendChild_ok h this n Hwf) as (h' & Heq & HP & HC & _).
    exists h'. split; [done|].
    assert (Hp : parentNode (h' n) = Some this) by by rewrite HP, decide_True.
    assert (Hl : childNodes (h' this) =
              filter (λ y, y ≠ n) (childNodes (h this)) ++ [n])
      by by rewrite HC, decide_True.
    destruct (siblings_at h' this n _ [] Hp Hl) as [Hnext Hprev].
    { by intros [? _]%list_elem_of_filter. }
    split_and!; [|done..]. unfold lastChild. by rewrite Hl, last_snoc.
  - intros Href Hn.
    destruct (indexOf_elem _ _ Href) as (l1 & l2 & Hl & Hr1 & _).
    destruct (insertBefore_ok h this n ref l1 l2 Hwf Hl)
      as (h' & Heq & HP & HC & _).
    exists h'. split; [done|].
    rewrite Hl in Hn. apply not_elem_of_app in Hn as [Hn1 Hn2].
    apply not_elem_of_cons in Hn2 as [Hne Hn2].
    assert (Hthis : childNodes (h' this) = l1 ++ n :: ref :: l2).
    { rewrite HC, decide_True by done. rewrite filter_ne_id.
      - unfold splice_insert. rewrite Nat2Z.id.
        by rewrite take_app_length, drop_app_length.
      - rewrite not_elem_of_app, not_elem_of_cons. done. }
    assert (Hp : parentNode (h' n) = Some this) by by rewrite HP, decide_True.
    assert (Hpr : parentNode (h' ref) = Some this).
    { rewrite HP, decide_False by done.
      apply (wf_agree h Hwf). rewrite Hl. set_solver. }
    destruct (siblings_at h' this n l1 (ref :: l2) Hp Hthis Hn1) as [-> _].
    split; [done|].
    destruct (siblings_at h' this ref (l1 ++ [n]) l2 Hpr) as [_ ->].
    + by rewrite <- app_assoc.
    + rewrite not_elem_of_app, list_elem_of_singleton. done.
    + by rewrite last_snoc.
Qed.

(** ** contains *)

Lemma any_child_true (test : node → option bool) (l : list node) :
  any_child test l = Some true → ∃ c, c ∈ l ∧ test c = Some true.
Proof.
  induction l as [|c l IH]; simpl; [done|].
  destruct (test c) as [[|]|] eqn:Hc; [| |done].
  - intros _. exists c. split; [left|done].
  - intros (c' & Hin & Ht)%IH. exists c'. split; [by right|done].
Qed.

Lemma any_child_false (test : node → option bool) (l : list node) :
  any_child test l = Some false → ∀ c, c ∈ l → test c = Some false.
Proof.
  induction l as [|c l IH]; simpl; [by intros _ c' ?%elem_of_nil|].
  destruct (test c) as [[|]|] eqn:Hc; [done| |done].
  intros Hrest c' [->|Hin]%elem_of_cons; [done|]. by apply IH.
Qed.

Lemma any_child_is_Some (test : node → option bool) (l : list node) :
  (∀ c, c ∈ l → is_Some (test c)) → is_Some (any_child test l).
Proof.
  induction l as [|c l IH]; intros Hall; simpl; [done|].
  destruct (Hall c) as [[|] ->]; [left|done|].
  apply IH. intros c' Hc'. apply Hall. by right.
Qed.

Lemma any_child_mono (test test' : node → option bool) (l : list node)
    (b : bool) :
  (∀ c b', c ∈ l → test c = Some b' → test' c = Some b') →
  any_child test l = Some b → any_child test' l = Some b.
Proof.
  induction l as [|c l IH]; intros Hle; simpl; [done|].
  destruct (test c) as [[|]|] eqn:Hc; [| |done].
  - rewrite (Hle c true) by (done || left). done.
  - rewrite (Hle c false) by (done || left). apply IH.
    intros c' b' Hc'. apply Hle. by right.
Qed.

Lemma reaches_inv (h : Heap) (t x : node) :
  reaches h t x → x = t ∨ ∃ c, c ∈ childNodes (h t) ∧ reaches h c x.
Proof. intros [t'|t' c x' Hc Hr]; [by left|]. right. by exists c. Qed.

Lemma contains_reaches (fuel : nat) (h : Heap) (t x : node) (b : bool) :
  contains fuel h t x = Some b → b = true ↔ reaches h t x.
Proof.
  revert t b. induction fuel as [|fuel IH]; intros t b; simpl; [done|].
  destruct (decide (x = t)) as [->|Hne].
  { intros [= <-]. split; [constructor|done]. }
  destruct b.
  - intros (c & Hc & Ht)%any_child_true. split; [|done]. intros _.
    apply reaches_child with c; [done|]. by apply (IH c true).
  - intros Hall. split; [done|].
    intros [->|(c & Hc & Hr)]%reaches_inv; [done|].
    pose proof (any_child_false _ _ Hall c Hc) as Hf.
    by apply (IH c false) in Hr.
Qed.

Lemma contains_more_fuel (fuel fuel' : nat) (h : Heap) (t x : node)
    (b : bool) :
  (fuel ≤ fuel')%nat →
  contains fuel h t x = Some b → contains fuel' h t x = Some b.
Proof.
  revert fuel' t b. induction fuel as [|fuel IH]; intros fuel' t b Hle;
    simpl; [done|].
  destruct fuel' as [|fuel']; [lia|]. simpl.
  destruct (decide (x = t)); [done|].
  apply any_child_mono. intros c b' _. apply IH. lia.
Qed.

Lemma shallow_contains (h : Heap) (k fuel : nat) (t x : node) :
  shallow h k t → (k ≤ fuel)%nat → is_Some (contains fuel h t x).
Proof.
  intros Hs. revert fuel. induction Hs as [k t _ IH]; intros fuel Hle.
  destruct fuel as [|fuel]; [lia|]. simpl.
  destruct (decide (x = t)); [done|].
  apply any_child_is_Some. intros c Hc. apply IH; [done|lia].
Qed.

Lemma aos_extend (h : Heap) (t c x : node) :
  ancestor_or_self h c x → parentNode (h c) = Some t →
  ancestor_or_self h t x.
Proof.
  intros Haos Hc. induction Haos as [|n p Hn _ IH].
  - apply aos_step with t; [done|constructor].
  - apply aos_step with p; [done|]. by apply IH.
Qed.

Lemma reaches_extend (h : Heap) (t p n : node) :
  reaches h t p → n ∈ childNodes (h p) → reaches h t n.
Proof.
  intros Hr Hn. induction Hr as [t|t c x Hc _ IH].
  - apply reaches_child with n; [done|constructor].
  - apply reaches_child with c; [done|]. by apply IH.
Qed.

(** Going down the children arrays and going up the parent references
    are the same walk on a tree whose two sides agree. *)
Lemma reaches_ancestor_or_self (h : Heap) (t x : node) :
  (∀ p c, c ∈ childNodes (h p) ↔ parentNode (h c) = Some p) →
  reaches h t x ↔ ancestor_or_self h t x.
Proof.
  intros Hag. split.
  - induction 1 as [t|t c x Hc _ IH]; [constructor|].
    apply aos_extend with c; [done|]. by apply Hag.
  - induction 1 as [|n p Hn _ IH]; [constructor|].
    apply reaches_extend with p; [done|]. by apply Hag.
Qed.

Lemma rooted_height (h : Heap) (n : node) : rooted h n → ∃ d, height h n d.
Proof.
  induction 1 as [n Hn|n p Hn _ [d IH]].
  - exists 0%nat. by apply height_root.
  - exists (S d). by apply height_step with p.
Qed.

Lemma aos_height (h : Heap) (a n : node) (da dn : nat) :
  ancestor_or_self h a n → height h a da → height h n dn → (da ≤ dn)%nat.
Proof.
  intros Haos. revert dn. induction Haos as [|n p Hn _ IH]; intros dn Ha Hd.
  - by rewrite (height_functional h a da dn).
  - inversion Hd as [|? p' d' Hn' Hp']; [congruence|]. subst.
    assert (p' = p) as -> by congruence.
    specialize (IH d' Ha Hp'). lia.
Qed.

(** X18.  contains returns when the recursion bound is at least the
    depth of the subtree below the receiver, and a deeper bound does not
    change the answer.  On a well-formed tree it returns true exactly
    when the node is the receiver or has the receiver among its
    ancestors: it is reflexive, and a node does not contain its parent. *)
Theorem contains_decides_inclusive_descendants (fuel : nat) (h : Heap)
    (this x : node) :
  well_formed h →
  (∀ b, contains fuel h this x = Some b →
        (b = true ↔ ancestor_or_self h this x) ∧
        (∀ fuel', (fuel ≤ fuel')%nat → contains fuel' h this x = Some b)) ∧
  (∀ j, shallow h j this → (j ≤ fuel)%nat →
        is_Some (contains fuel h this x) ∧
        contains fuel h this this = Some true ∧
        (parentNode (h this) = Some x → contains fuel h this x = Some false)).
Proof.
  intros Hwf.
  assert (Hiff : ∀ b, contains fuel h this x = Some b →
            (b = true ↔ ancestor_or_self h this x)).
  { intros b Hb.
    rewrite <- reaches_ancestor_or_self by apply (wf_agree h Hwf).
    by apply (contains_reaches fuel). }
  split.
  - intros b Hb. split; [by apply Hiff|].
    intros fuel' Hle. by apply (contains_more_fuel fuel).
  - intros j Hs Hle. split_and!.
    + by apply (shallow_contains h j).
    + destruct fuel as [|fuel]; [inversion Hs; lia|]. simpl.
      by rewrite decide_True.
    + intros Hp.
      destruct (shallow_contains h j fuel this x Hs Hle) as [[|] Hb]; [|done].
      exfalso. apply Hiff in Hb. destruct Hb as [Hb _].
      specialize (Hb eq_refl).
      destruct (rooted_height h x (wf_acyclic h Hwf x)) as [d Hd].
      assert (Hthis : height h this (S d)) by by apply height_step with x.
      pose proof (aos_height h this x (S d) d Hb Hthis Hd). lia.
Qed.

(** X19.  What contains answers after a mutation, when it returns: the
    receiver contains a node it has just appended, and does not contain a
    child it has just removed. *)
Theorem contains_after_mutation (fuel : nat) (h : Heap) (this c : node)
    (b : bool) :
  well_formed h →
  (contains fuel (exec (appendChild this c) h) this c = Some b → b = true) ∧
  (c ∈ childNodes (h this) →
   contains fuel (exec (removeChild this c) h) this c = Some b → b = false).
Proof.
  intros Hwf. split.
  - destruct (appendChild_ok h this c Hwf) as (h' & Heq & _ & HC & _).
    unfold exec. rewrite Heq. simpl. intros Hb.
    apply (contains_reaches fuel h' this c b Hb).
    apply reaches_child with c; [|constructor].
    rewrite HC, decide_True, elem_of_app, list_elem_of_singleton by done.
    by right.
  - intros Hin Hb.
    pose proof (removeChild_well_formed h this c Hwf) as Hwf'.
    destruct (removeChild_ok h this c Hin) as (h' & Heq & HP & _).
    unfold exec in Hb. rewrite Heq in Hb, Hwf'. simpl in Hb, Hwf'.
    destruct b; [|done]. exfalso.
    apply (contains_reaches fuel) in Hb. destruct Hb as [Hb _].
    specialize (Hb eq_refl).
    apply reaches_ancestor_or_self in Hb; [|apply (wf_agree h' Hwf')].
    assert (Hc : parentNode (h' c) = None) by by rewrite HP, decide_True.
    inversion Hb as [Heq'|n p Hn _]; [|congruence]. subst.
    apply (wf_agree h Hwf) in Hin.
    destruct (rooted_height h c (wf_acyclic h Hwf c)) as [d Hd].
    inversion Hd as [|? p' d' Hn' Hp']; [congruence|]. subst.
    assert (p' = c) as -> by congruence.
    pose proof (height_functional h c _ _ Hd Hp'). lia.
Qed.

(** ** The further properties at work on the concrete documents *)

Lemma passive_registry_keeping (bodies : Bodies) :
  passive bodies → registry_keeping bodies.
Proof. intros Hp f this e h m. by destruct (Hp f this e h) as (-> & _). Qed.

Lemma calm_bodies_tree_keeping : tree_keeping calm_bodies.
Proof.
  intros f this e h m. unfold calm_bodies.
  by destruct f as [|[|[|[|[|f]]]]].
Qed.

Lemma heap_0_123_well_formed : well_formed heap_0_123.
Proof.
  destruct (appendChild_well_formed heap_0_12 0%nat 3%nat) as (h' & Hh & Hwf).
  - apply heap_0_12_well_formed.
  - intros Haos. inversion Haos; discriminate.
  - unfold heap_0_123. by rewrite Hh.
Qed.

Lemma heap_0_12_shallow : shallow heap_0_12 2 0%nat.
Proof.
  constructor. intros c Hc. constructor. intros c' Hc'.
  assert (Hempty : childNodes (heap_0_12 c) = []).
  { change (childNodes (heap_0_12 0%nat)) with [1; 2]%nat in Hc.
    apply elem_of_cons in Hc as [->|Hc]; [done|].
    by apply list_elem_of_singleton in Hc as ->. }
  rewrite Hempty in Hc'. by apply elem_of_nil in Hc'.
Qed.

Lemma addEventListener_then_removeEventListener_witness :
  regs (exec (removeEventListener 0%nat "click" 7%nat (OptBool true))
          (exec (addEventListener 0%nat "click" 7%nat
                   (OptObj (Some true) (Some true))) fresh_heap))
    0%nat "click" = regs fresh_heap 0%nat "click".
Proof.
  apply (addEventListener_then_removeEventListener 0%nat "click" 7%nat
           (OptObj (Some true) (Some true)) (OptBool true) fresh_heap).
  - reflexivity.
  - intros x Hx. vm_compute in Hx. by apply elem_of_nil in Hx.
Defined.

Lemma addEventListener_appends_registration_witness :
  (∃ h',
     addEventListener 0%nat "click" 7%nat (OptBool true) fresh_heap
       = (Ok tt, h') ∧
     regs h' 0%nat "click" = [Entry 7%nat true false]) ∧
  addEventListener 0%nat "constructor" 7%nat (OptBool true) fresh_heap
    = (Throw (TypeError "push"), fresh_heap).
Proof.
  destruct (addEventListener_appends_registration 0%nat "click" 7%nat
              (OptBool true) fresh_heap) as [Hok _].
  destruct (addEventListener_appends_registration 0%nat "constructor" 7%nat
              (OptBool true) fresh_heap) as [_ Hthrow].
  split.
  - destruct Hok as (h' & Heq & Hregs & _); [left; by_evaluation|].
    exists h'. split; [exact Heq|exact Hregs].
  - apply Hthrow; [by_evaluation|reflexivity].
Defined.

Lemma removeEventListener_removes_matching_witness :
  (∃ h',
     removeEventListener 2%nat "click" 12%nat (OptBool false) demo_heap
       = (Ok tt, h') ∧
     regs h' 2%nat "click" =
       filter (λ x, ¬ (listener x = 12%nat ∧ capture x = false))
         (regs demo_heap 2%nat "click")) ∧
  removeEventListener 2%nat "toString" 12%nat (OptBool false) demo_heap
    = (Throw (TypeError "filter"), demo_heap).
Proof.
  destruct (removeEventListener_removes_matching 2%nat "click" 12%nat
              (OptBool false) demo_heap) as [Hok _].
  destruct (removeEventListener_removes_matching 2%nat "toString" 12%nat
              (OptBool false) demo_heap) as [_ Hthrow].
  split.
  - destruct Hok as (h' & Heq & Hregs & _); [left; by_evaluation|].
    exists h'. split; [exact Heq|exact Hregs].
  - apply Hthrow; [by_evaluation|vm_compute; reflexivity].
Defined.

Lemma dispatch_reports_preventDefault_witness :
  ∃ fuel0, ∀ fuel, (fuel0 ≤ fuel)%nat →
    ∃ b s',
      dispatch calm_bodies fuel 2%nat (cancelable_event "veto") demo_heap
        = Some (Ok b, s') ∧
      defaultPrevented (event s') = negb b ∧
      (b = false ↔
       defaultPrevented (cancelable_event "veto") = true ∨
       ∃ i, i ∈ trace s' ∧ CallPreventDefault ∈ inv_calls i).
Proof.
  assert (Hty : ordinary (type (cancelable_event "veto"))) by by_evaluation.
  exact (dispatch_reports_preventDefault calm_bodies 2%nat
           (cancelable_event "veto") demo_heap Hty demo_heap_rooted eq_refl).
Defined.

Lemma dispatch_leaves_the_tree_alone_witness :
  ∃ b s',
    dispatch calm_bodies 3 2%nat (bubbling "click") demo_heap
      = Some (Ok b, s') ∧
    same_tree demo_heap (heap s').
Proof.
  assert (Hpath : path_loop 3 demo_heap (Some 2%nat) [] = Some [0; 1; 2]%nat)
    by (vm_compute; reflexivity).
  assert (Hty : ordinary (type (bubbling "click"))) by by_evaluation.
  exact (dispatch_leaves_the_tree_alone calm_bodies 3 2%nat
           (bubbling "click") demo_heap [0; 1; 2]%nat
           calm_bodies_tree_keeping Hty Hpath).
Defined.

Lemma dispatch_changes_registries_by_once_only_witness :
  let s' := final (dispatch calm_bodies 3 2%nat (bubbling "once")
                     demo_heap) in
  regs demo_heap 2%nat "once" = [Entry 14%nat false true] ∧
  regs (heap s') 2%nat "once" = [] ∧
  Forall (λ i, inv_entry i ∈ regs demo_heap (inv_this i) "once") (trace s').
Proof.
  assert (Hpath : path_loop 3 demo_heap (Some 2%nat) [] = Some [0; 1; 2]%nat)
    by (vm_compute; reflexivity).
  assert (Hty : ordinary (type (bubbling "once"))) by by_evaluation.
  destruct (dispatch_changes_registries_by_once_only calm_bodies 3 2%nat
              (bubbling "once") demo_heap [0; 1; 2]%nat
              (passive_registry_keeping _ calm_bodies_passive) Hty Hpath)
    as (b & s' & Hd & Hinv & _).
  known Hd. intros s'. split_and!; [vm_compute; reflexivity..|].
  apply Forall_forall. intros i Hi. by apply Hinv.
Defined.


Lemma dispatch_of_stopped_event_witness :
  ∃ fuel0, ∀ fuel, (fuel0 ≤ fuel)%nat →
    dispatch calm_bodies fuel 2%nat (stopPropagation (bubbling "click"))
      demo_heap =
    Some (Ok (negb (defaultPrevented (stopPropagation (bubbling "click")))),
          {| heap := demo_heap;
             event := set_phase CAPTURING_PHASE
                        (set_target (Some 2%nat)
                           (stopPropagation (bubbling "click")));
             console := []; trace := [] |}).
Proof.
  exact (dispatch_of_stopped_event calm_bodies 2%nat
           (stopPropagation (bubbling "click")) demo_heap demo_heap_rooted
           eq_refl).
Defined.

Lemma dispatch_without_bubbling_witness :
  ∃ b s',
    dispatch calm_bodies 3 2%nat (plain_event "click") demo_heap
      = Some (Ok b, s') ∧
    ∀ i, i ∈ trace s' →
      (inv_this i = 2%nat ∧ inv_phase i = AT_TARGET) ∨
      (inv_this i ∈ take (length [0; 1; 2]%nat - 1) [0; 1; 2]%nat ∧
       inv_this i ≠ 2%nat ∧
       inv_phase i = CAPTURING_PHASE ∧ capture (inv_entry i) = true).
Proof.
  assert (Hpath : path_loop 3 demo_heap (Some 2%nat) [] = Some [0; 1; 2]%nat)
    by (vm_compute; reflexivity).
  assert (Hty : ordinary (type (plain_event "click"))) by by_evaluation.
  exact (dispatch_without_bubbling calm_bodies 3 2%nat (plain_event "click")
           demo_heap [0; 1; 2]%nat Hty Hpath eq_refl).
Defined.


Lemma appendChild_moves_child_to_the_end_witness :
  ∃ h',
    appendChild 0%nat 1%nat heap_0_12 = (Ok 1%nat, h') ∧
    parentNode (h' 1%nat) = Some 0%nat ∧
    childNodes (h' 0%nat) = [2; 1]%nat.
Proof.
  destruct (appendChild_moves_child_to_the_end heap_0_12 0%nat 1%nat
              heap_0_12_well_formed) as (h' & Heq & Hp & Hc & _).
  exists h'. split_and!; [done..|]. rewrite Hc. vm_compute. reflexivity.
Defined.

Lemma removeChild_detaches_child_witness :
  ∃ h',
    removeChild 0%nat 1%nat heap_0_12 = (Ok 1%nat, h') ∧
    childNodes (h' 0%nat) = [2]%nat ∧
    parentNode (h' 1%nat) = None.
Proof.
  assert (Hin : 1%nat ∈ childNodes (heap_0_12 0%nat)) by (vm_compute; left).
  destruct (removeChild_detaches_child heap_0_12 0%nat 1%nat Hin)
    as (h' & l1 & l2 & Heq & _ & _ & _ & Hp & _).
  exists h'. split_and!; [done| |done].
  assert (Hh : h' = snd (removeChild 0%nat 1%nat heap_0_12))
    by (by rewrite Heq).
  rewrite Hh. vm_compute. reflexivity.
Defined.

Lemma insertBefore_position_witness :
  ∃ h',
    insertBefore 0%nat 1%nat (Some 2%nat) heap_0_12 = (Ok 1%nat, h') ∧
    childNodes (heap_0_12 0%nat) = [1; 2]%nat ∧
    childNodes (h' 0%nat) = [2; 1]%nat.
Proof.
  destruct (insertBefore_position heap_0_12 0%nat 1%nat 2%nat [1%nat] []
              heap_0_12_well_formed eq_refl)
    as (h' & Heq & _ & _ & _ & _ & Hstale).
  exists h'. split_and!; [done..|]. apply Hstale. left.
Defined.

Lemma replaceChild_position_witness :
  ∃ h',
    replaceChild 0%nat 1%nat 2%nat heap_0_123 = (Ok 2%nat, h') ∧
    childNodes (heap_0_123 0%nat) = [1; 2; 3]%nat ∧
    childNodes (h' 0%nat) = [2; 1]%nat ∧
    parentNode (h' 2%nat) = None ∧
    parentNode (h' 3%nat) = Some 0%nat.
Proof.
  destruct (replaceChild_position heap_0_123 0%nat 1%nat 2%nat
              [1%nat] [3%nat] heap_0_123_well_formed eq_refl)
    as (h' & Heq & _ & _ & Hstale & _).
  destruct Hstale as (Hc & Hold & Hlost); [left|].
  destruct (Hlost 3%nat eq_refl) as [H3 _].
  exists h'. by split_and!.
Defined.

Lemma appendChild_then_removeChild_witness :
  ∃ h1 h2,
    appendChild 0%nat 3%nat heap_0_12 = (Ok 3%nat, h1) ∧
    removeChild 0%nat 3%nat h1 = (Ok 3%nat, h2) ∧
    same_store heap_0_12 h2.
Proof.
  exact (appendChild_then_removeChild heap_0_12 0%nat 3%nat
           heap_0_12_well_formed eq_refl).
Defined.

Lemma siblings_follow_the_children_array_witness :
  nextSibling heap_0_123 2%nat = Some 3%nat ∧
  previousSibling heap_0_123 2%nat = Some 1%nat.
Proof.
  destruct (siblings_follow_the_children_array heap_0_123 0%nat 2%nat 1
              heap_0_123_well_formed eq_refl) as (_ & Hn & Hp & _).
  split; [exact Hn|exact Hp].
Defined.

Lemma navigation_after_insertion_witness :
  ∃ h',
    insertBefore 0%nat 3%nat (Some 2%nat) heap_0_12 = (Ok 3%nat, h') ∧
    nextSibling h' 3%nat = Some 2%nat ∧
    previousSibling h' 2%nat = Some 3%nat.
Proof.
  destruct (navigation_after_insertion heap_0_12 0%nat 3%nat 2%nat
              heap_0_12_well_formed) as [_ Hins].
  apply Hins.
  - vm_compute. right. left.
  - vm_compute. intros Hin.
    apply elem_of_cons in Hin as [Hin|Hin]; [discriminate|].
    apply list_elem_of_singleton in Hin. discriminate.
Defined.

Lemma contains_decides_inclusive_descendants_witness :
  ancestor_or_self heap_0_12 0%nat 2%nat ∧
  contains 7 heap_0_12 0%nat 2%nat = Some true ∧
  contains 2 heap_0_12 1%nat 0%nat = Some false.
Proof.
  destruct (contains_decides_inclusive_descendants 2 heap_0_12 0%nat 2%nat
              heap_0_12_well_formed) as [Hdec _].
  destruct (Hdec true eq_refl) as [Hiff Hmore].
  destruct (contains_decides_inclusive_descendants 2 heap_0_12 1%nat 0%nat
              heap_0_12_well_formed) as [_ Hret].
  assert (Hs : shallow heap_0_12 1 1%nat).
  { constructor. intros c Hc. vm_compute in Hc. by apply elem_of_nil in Hc. }
  destruct (Hret 1%nat Hs ltac:(lia)) as (_ & _ & Hup).
  split_and!; [by apply Hiff|apply Hmore; lia|by apply Hup].
Defined.

Lemma contains_after_mutation_witness :
  contains 3 (exec (removeChild 0%nat 1%nat) heap_0_12) 0%nat 1%nat
    = Some false.
Proof.
  destruct (contains 3 (exec (removeChild 0%nat 1%nat) heap_0_12) 0%nat 1%nat)
    as [b|] eqn:Hb; [|vm_compute in Hb; discriminate].
  f_equal.
  destruct (contains_after_mutation 3 heap_0_12 0%nat 1%nat b
              heap_0_12_well_formed) as [_ Hrem].
  apply Hrem; [vm_compute; left|exact Hb].
Defined.

(** ** Element: attributes *)

Lemma Map_get_set (key key' value : string) (m : list (string * string)) :
  Map_get key' (Map_set key value m) =
  if decide (key' = key) then Some value else Map_get key' m.
Proof.
  induction m as [|[k v] m IH]; simpl.
  - destruct (decide (key = key')), (decide (key' = key)); done || congruence.
  - destruct (decide (k = key)) as [->|Hk]; simpl.
    + destruct (decide (key = key')), (decide (key' = key));
        done || congruence.
    + rewrite IH. destruct (decide (k = key')) as [->|]; [|done].
      by rewrite decide_False by congruence.
Qed.

Lemma Map_get_delete (key key' : string) (m : list (string * string)) :
  Map_get key' (Map_delete key m) =
  if decide (key' = key) then None else Map_get key' m.
Proof.
  unfold Map_delete. induction m as [|[k v] m IH]; simpl.
  - by destruct (decide (key' = key)).
  - rewrite filter_cons. simpl. destruct (decide (k ≠ key)) as [Hk|Hk]; simpl.
    + rewrite IH. destruct (decide (k = key')) as [->|]; [|done].
      by rewrite decide_False.
    + apply dec_stable in Hk as ->. rewrite IH.
      destruct (decide (key' = key)) as [->|]; [done|].
      by rewrite decide_False by congruence.
Qed.

Lemma setAttribute_effect (name name' value : string) (el : Element.obj) :
  let el' := Element.setAttribute name value el in
  Element.hasAttribute name el' = true ∧
  Element.getAttribute name el' =
    (if decide (name = "id" ∨ name = "class") then Some value
     else if decide (value = "") then None else Some value) ∧
  (name' ≠ name →
   Element.getAttribute name' el' = Element.getAttribute name' el ∧
   Element.hasAttribute name' el' = Element.hasAttribute name' el).
Proof.
  unfold Element.setAttribute, Element.getAttribute, Element.hasAttribute,
    Map_has. cbv zeta.
  assert (Hattrs : ∀ el0,
            Element.attributes
              (if decide (name = "id") then Element.with_id value el0
               else if decide (name = "class")
                    then Element.with_className value el0
                    else el0) = Element.attributes el0).
  { intros el0. by repeat case_decide. }
  cbn [Element.attributes Element.with_attributes Element.id
       Element.className]. rewrite !Hattrs.
  split_and!.
  - rewrite Map_get_set. destruct (decide (name = name)); [|done].
    by apply bool_decide_eq_true.
  - rewrite Map_get_set. destruct (decide (name = name)); [|done].
    destruct (decide (name = "id")) as [->|Hid].
    { by rewrite decide_True by (by left). }
    destruct (decide (name = "class")) as [->|Hcl].
    { by rewrite decide_True by (by right). }
    by destruct (decide (name = "id" ∨ name = "class")) as [[?|?]|_].
  - intros Hne. rewrite Map_get_set.
    destruct (decide (name' = name)); [done|]. split; [|done].
    destruct (decide (name' = "id")) as [->|Hid].
    { destruct (decide (name = "id")); [congruence|].
      by destruct (decide (name = "class")). }
    destruct (decide (name' = "class")) as [->|Hcl]; [|done].
    destruct (decide (name = "id")); [done|].
    by destruct (decide (name = "class")); [congruence|].
Qed.

Lemma removeAttribute_effect (name name' : string) (el : Element.obj) :
  let el' := Element.removeAttribute name el in
  Element.hasAttribute name el' = false ∧
  Element.getAttribute name el' =
    (if decide (name = "id" ∨ name = "class") then Some "" else None) ∧
  Element.getAttribute "id" el = Some (Element.id el) ∧
  Element.getAttribute "class" el = Some (Element.className el) ∧
  (name' ≠ name →
   Element.getAttribute name' el' = Element.getAttribute name' el ∧
   Element.hasAttribute name' el' = Element.hasAttribute name' el).
Proof.
  unfold Element.removeAttribute, Element.getAttribute, Element.hasAttribute,
    Map_has. cbv zeta.
  assert (Hattrs :
            Element.attributes
              (if decide (name = "class")
               then Element.with_className ""
                      (if decide (name = "id") then Element.with_id "" el
                       else el)
               else (if decide (name = "id") then Element.with_id "" el
                     else el)) = Element.attributes el).
  { by repeat case_decide. }
  cbn [Element.attributes Element.with_attributes Element.id
       Element.className]. rewrite !Hattrs.
  split_and!; [| |done|done|].
  - rewrite Map_get_delete. destruct (decide (name = name)); [|done].
    apply bool_decide_eq_false. by intros [? ?].
  - rewrite Map_get_delete. destruct (decide (name = name)); [|done].
    destruct (decide (name = "id")) as [->|Hid].
    { destruct (decide ("id" = "class")) as [?|_]; [done|].
      by rewrite decide_True by (by left). }
    destruct (decide (name = "class")) as [->|Hcl].
    { by rewrite decide_True by (by right). }
    by destruct (decide (name = "id" ∨ name = "class")) as [[?|?]|_].
  - intros Hne. rewrite Map_get_delete.
    destruct (decide (name' = name)); [done|]. split; [|done].
    destruct (decide (name' = "id")) as [->|Hid].
    { destruct (decide (name = "id")); [congruence|].
      by destruct (decide (name = "class")). }
    destruct (decide (name' = "class")) as [->|Hcl]; [|done].
    destruct (decide (name = "class")); [congruence|].
    by destruct (decide (name = "id")).
Qed.

(** X20.  setAttribute makes the attribute present, and getAttribute
    then returns the value that was set, with one exception: for a name
    other than "id" and "class" an empty value reads back as [null],
    although hasAttribute is true.  removeAttribute makes the attribute
    absent; getAttribute then returns [null], except for "id" and
    "class", for which it returns the empty string: getAttribute of these
    two names returns the field of the element, whether or not the
    attribute is present.  Neither method affects the attributes of
    another name, and removing an attribute right after setting it leaves
    every attribute reading as if it had only been removed. *)
Theorem attributes_set_get_remove (name name' value : string)
    (el : Element.obj) :
  let added := Element.setAttribute name value el in
  let removed := Element.removeAttribute name el in
  Element.hasAttribute name added = true ∧
  Element.getAttribute name added =
    (if decide (name = "id" ∨ name = "class") then Some value
     else if decide (value = "") then None else Some value) ∧
  Element.hasAttribute name removed = false ∧
  Element.getAttribute name removed =
    (if decide (name = "id" ∨ name = "class") then Some "" else None) ∧
  Element.getAttribute "id" el = Some (Element.id el) ∧
  Element.getAttribute "class" el = Some (Element.className el) ∧
  (name' ≠ name →
   Element.getAttribute name' added = Element.getAttribute name' el ∧
   Element.hasAttribute name' added = Element.hasAttribute name' el ∧
   Element.getAttribute name' removed = Element.getAttribute name' el ∧
   Element.hasAttribute name' removed = Element.hasAttribute name' el) ∧
  Element.getAttribute name' (Element.removeAttribute name added) =
    Element.getAttribute name' removed ∧
  Element.hasAttribute name' (Element.removeAttribute name added) =
    Element.hasAttribute name' removed.
Proof.
  intros added removed.
  destruct (setAttribute_effect name name' value el)
    as (Hhas & Hget & Hother).
  destruct (removeAttribute_effect name name' el)
    as (Hhas' & Hget' & Hid & Hclass & Hother').
  destruct (removeAttribute_effect name name' added)
    as (Hhas2 & Hget2 & _ & _ & Hother2).
  split_and!; try done.
  - intros Hne. destruct (Hother Hne), (Hother' Hne). by split_and!.
  - destruct (decide (name' = name)) as [->|Hne].
    + unfold removed. by rewrite Hget2, Hget'.
    + destruct (Hother Hne) as [Hg _], (Hother' Hne) as [Hg' _].
      destruct (Hother2 Hne) as [-> _]. unfold removed.
      by rewrite Hg', <- Hg.
  - destruct (decide (name' = name)) as [->|Hne].
    + unfold removed. by rewrite Hhas2, Hhas'.
    + destruct (Hother Hne) as [_ Hg], (Hother' Hne) as [_ Hg'].
      destruct (Hother2 Hne) as [_ ->]. unfold removed.
      by rewrite Hg', <- Hg.
Qed.

(** ** Strings and sets of strings *)

Lemma string_app_nil_r (s : string) : s +:+ "" = s.
Proof.
  induction s as [|c s IH]; [done|].
  change (String c s +:+ "") with (String c (s +:+ "")). by rewrite IH.
Qed.

Lemma string_app_assoc (s1 s2 s3 : string) :
  (s1 +:+ s2) +:+ s3 = s1 +:+ (s2 +:+ s3).
Proof.
  induction s1 as [|c s1 IH]; [done|].
  change (String c (s1 +:+ s2) +:+ s3 = String c (s1 +:+ (s2 +:+ s3))).
  change (String c ((s1 +:+ s2) +:+ s3) = String c (s1 +:+ (s2 +:+ s3))).
  by rewrite IH.
Qed.

Lemma whitespace_free_snoc (s : string) (c : Ascii.ascii) :
  whitespace_free s = true → js_whitespace c = false →
  whitespace_free (s +:+ String c "") = true.
Proof.
  intros Hs Hc. induction s as [|a s IH]; simpl in *.
  - change ("" +:+ String c "") with (String c ""). simpl. by rewrite Hc.
  - change (String a s +:+ String c "") with (String a (s +:+ String c "")).
    simpl. apply andb_true_iff in Hs as [-> Hs]. by rewrite IH.
Qed.

Lemma split_go_flag (s : string) :
  filter (λ t, t ≠ "") (split_go s "" true) =
  filter (λ t, t ≠ "") (split_go s "" false).
Proof.
  destruct s as [|c s]; simpl; [done|].
  destruct (js_whitespace c); [|done]. by rewrite filter_cons_False by auto.
Qed.

Lemma split_go_app (s1 s2 cur : string) (sp : Ascii.ascii) (in_run : bool) :
  js_whitespace sp = true →
  (in_run = true → cur = "") →
  filter (λ t, t ≠ "") (split_go (s1 +:+ String sp s2) cur in_run) =
  filter (λ t, t ≠ "") (split_go s1 cur in_run) ++ words_of s2.
Proof.
  intros Hsp. revert cur in_run.
  induction s1 as [|c s1 IH]; intros cur in_run Hrun.
  - change ("" +:+ String sp s2) with (String sp s2). simpl. rewrite Hsp.
    unfold words_of, split_whitespace. destruct in_run.
    + rewrite Hrun by done. rewrite filter_cons_False by auto. simpl.
      apply split_go_flag.
    + rewrite !filter_cons, filter_nil, split_go_flag.
      by destruct (decide (cur ≠ "")).
  - change (String c s1 +:+ String sp s2)
      with (String c (s1 +:+ String sp s2)).
    simpl. destruct (js_whitespace c).
    + destruct in_run; [by apply IH|].
      rewrite !filter_cons, IH by done. by destruct (decide (cur ≠ "")).
    + by apply IH.
Qed.

Lemma split_go_token (t cur : string) :
  whitespace_free t = true → split_go t cur false = [cur +:+ t].
Proof.
  revert cur. induction t as [|c t IH]; intros cur Ht; simpl in *.
  - by rewrite string_app_nil_r.
  - apply andb_true_iff in Ht as [Hc Ht]. apply negb_true_iff in Hc.
    rewrite Hc, IH by done. by rewrite string_app_assoc.
Qed.

Lemma words_of_token (t : string) : is_token t → words_of t = [t].
Proof.
  intros [Hne Ht]. unfold words_of, split_whitespace.
  rewrite split_go_token by done.
  change ("" +:+ t) with t. by rewrite filter_cons_True, filter_nil.
Qed.

Lemma split_go_pieces (s cur : string) (in_run : bool) :
  whitespace_free cur = true →
  Forall (λ t, whitespace_free t = true) (split_go s cur in_run).
Proof.
  revert cur in_run. induction s as [|c s IH]; intros cur in_run Hcur; simpl.
  - by constructor.
  - destruct (js_whitespace c) eqn:Hc.
    + destruct in_run; [by apply IH|]. constructor; [done|]. by apply IH.
    + apply IH. by apply whitespace_free_snoc.
Qed.

Lemma words_of_tokens (s t : string) : t ∈ words_of s → is_token t.
Proof.
  unfold words_of, split_whitespace.
  intros [Hne Hin]%list_elem_of_filter. split; [done|].
  pose proof (split_go_pieces s "" false eq_refl) as Hall.
  by apply (proj1 (Forall_forall _ _) Hall).
Qed.

Lemma words_of_join (l : list string) :
  words_of (join " " l) = l ≫= words_of.
Proof.
  induction l as [|x l IH]; [done|].
  destruct l as [|y l].
  - simpl. by rewrite app_nil_r.
  - change (join " " (x :: y :: l)) with (x +:+ " " +:+ join " " (y :: l)).
    change (x +:+ " " +:+ join " " (y :: l))
      with (x +:+ String (Ascii.ascii_of_nat 32) (join " " (y :: l))).
    unfold words_of at 1. unfold split_whitespace.
    rewrite split_go_app by done. fold (split_whitespace x).
    fold (words_of x). by rewrite IH.
Qed.

Lemma words_of_join_tokens (l : list string) :
  Forall is_token l → words_of (join " " l) = l.
Proof.
  intros Hall. rewrite words_of_join.
  induction Hall as [|x l Hx _ IH]; [done|].
  rewrite bind_cons, words_of_token, IH by done. done.
Qed.

Lemma elem_of_Set_add (x y : string) (s : list string) :
  y ∈ Set_add x s ↔ y = x ∨ y ∈ s.
Proof.
  unfold Set_add. destruct (decide (x ∈ s)) as [Hin|Hout].
  - split; [by right|]. by intros [->|?].
  - rewrite elem_of_app, list_elem_of_singleton. tauto.
Qed.

Lemma NoDup_Set_add (x : string) (s : list string) :
  NoDup s → NoDup (Set_add x s).
Proof.
  intros Hs. unfold Set_add. destruct (decide (x ∈ s)) as [Hin|Hout]; [done|].
  apply NoDup_app. split_and!; [done| |apply NoDup_singleton].
  by intros y Hy ->%list_elem_of_singleton.
Qed.

Lemma Set_adds (l s : list string) :
  let s' := foldl (λ s c, Set_add c s) s l in
  (∀ y, y ∈ s' ↔ y ∈ s ∨ y ∈ l) ∧ (NoDup s → NoDup s') ∧
  ((∀ y, y ∈ l → y ∈ s) → s' = s).
Proof.
  revert s. induction l as [|x l IH]; intros s; simpl.
  - split_and!; [|done..]. intros y. rewrite elem_of_nil. tauto.
  - destruct (IH (Set_add x s)) as (Hin & Hnd & Hid). split_and!.
    + intros y. rewrite Hin, elem_of_Set_add, elem_of_cons. tauto.
    + intros Hs. by apply Hnd, NoDup_Set_add.
    + intros Hsub.
      assert (Hx : Set_add x s = s).
      { unfold Set_add. rewrite decide_True; [done|]. apply Hsub. left. }
      rewrite Hx in Hid |- *. apply Hid. intros y Hy. apply Hsub. by right.
Qed.

Lemma new_Set_NoDup (l : list string) :
  (∀ y, y ∈ new_Set l ↔ y ∈ l) ∧ NoDup (new_Set l) ∧
  (NoDup l → new_Set l = l).
Proof.
  unfold new_Set. destruct (Set_adds l []) as (Hin & Hnd & _). split_and!.
  - intros y. rewrite Hin, elem_of_nil. tauto.
  - apply Hnd. constructor.
  - clear. rewrite <- (app_nil_l l) at 1 3. generalize (@nil string).
    induction l as [|x l IH]; intros s Hnd; simpl.
    + by rewrite app_nil_r.
    + rewrite (app_assoc s [x] l : s ++ x :: l = _) in Hnd |- *.
      assert (Hx : Set_add x s = s ++ [x]).
      { unfold Set_add. rewrite decide_False; [done|].
        apply NoDup_app in Hnd as (Hnd & _ & _).
        apply NoDup_app in Hnd as (_ & Hdisj & _). intros Hin.
        apply (Hdisj x Hin). left. }
      rewrite Hx. by apply IH.
Qed.

(** ** Element: classes *)

Lemma classes_after_add (classes : list string) (el : Element.obj) :
  Element._classes (Element.classList_add classes el) =
  foldl (λ s c, Set_add c s) (new_Set (Element._classes el)) classes
    ≫= words_of.
Proof. unfold Element.classList_add, Element._classes at 1. simpl.
  apply words_of_join. Qed.

(** X21.  classList.contains answers for the words of [className]: the
    maximal stretches without white space.  After classList.add it is
    true of a class exactly when it was true before or the class is a
    word of one of the added strings; so a class that is not empty and
    free of white space is contained once it is added.  When all the added
    strings are such classes, no class occurs twice in [className] and
    adding them a second time changes nothing.  The other fields of the
    element are not touched. *)
Theorem classList_add_then_contains (classes : list string)
    (el : Element.obj) :
  let el' := Element.classList_add classes el in
  (∀ c, Element.classList_contains c el' = true ↔
        Element.classList_contains c el = true ∨
        ∃ c', c' ∈ classes ∧ c ∈ words_of c') ∧
  (∀ c, Element.classList_contains c el' = true → is_token c) ∧
  (∀ c, is_token c → c ∈ classes →
        Element.classList_contains c el' = true) ∧
  (Forall is_token classes →
   NoDup (Element._classes el') ∧
   Element.classList_add classes el' = el') ∧
  Element.id el' = Element.id el ∧
  Element.attributes el' = Element.attributes el ∧
  Element.tagName el' = Element.tagName el.
Proof.
  intros el'.
  destruct (new_Set_NoDup (Element._classes el)) as (Hnew & Hnd0 & _).
  destruct (Set_adds classes (new_Set (Element._classes el)))
    as (Hin & Hnd & _). cbv zeta in Hin, Hnd.
  assert (Hiff : ∀ c, Element.classList_contains c el' = true ↔
            Element.classList_contains c el = true ∨
            ∃ c', c' ∈ classes ∧ c ∈ words_of c').
  { intros c. unfold Element.classList_contains.
    rewrite !bool_decide_eq_true. unfold el'.
    rewrite classes_after_add, list_elem_of_bind. split.
    - intros (t & Hc & Ht). apply Hin in Ht as [Ht|Ht].
      + left. apply Hnew in Ht.
        rewrite (words_of_token t) in Hc by by eapply words_of_tokens.
        by apply list_elem_of_singleton in Hc as ->.
      + right. by exists t.
    - intros [Hc|(c' & Hc' & Hc)].
      + exists c. split.
        * rewrite words_of_token by by eapply words_of_tokens. left.
        * apply Hin. left. by apply Hnew.
      + exists c'. split; [done|]. apply Hin. by right. }
  split_and!; [done| | | |done..].
  - intros c. unfold Element.classList_contains.
    rewrite bool_decide_eq_true. apply words_of_tokens.
  - intros c Hc Hcl. apply Hiff. right. exists c. split; [done|].
    rewrite words_of_token by done. left.
  - intros Htok.
    assert (Hall : Forall is_token
              (foldl (λ s c, Set_add c s) (new_Set (Element._classes el))
                 classes)).
    { apply Forall_forall. intros t [Ht|Ht]%Hin.
      - apply Hnew in Ht. by eapply words_of_tokens.
      - by apply (proj1 (Forall_forall _ _) Htok). }
    assert (Hcl : Element._classes el' =
              foldl (λ s c, Set_add c s) (new_Set (Element._classes el))
                classes).
    { unfold el', Element.classList_add, Element._classes at 1. simpl.
      by apply words_of_join_tokens. }
    split; [rewrite Hcl; by apply Hnd|].
    unfold Element.classList_add at 1. rewrite Hcl.
    rewrite (proj2 (proj2 (new_Set_NoDup _))) by by apply Hnd.
    pose proof (proj2 (proj2 (Set_adds classes
      (foldl (λ s c, Set_add c s) (new_Set (Element._classes el)) classes))))
      as Hsame. cbv zeta in Hsame. rewrite Hsame.
    + done.
    + intros y Hy. apply Hin. by right.
Qed.

(** X22.  No method of classList ever takes a class away.  remove ends
    with a ReferenceError before it assigns [className], whatever its
    arguments; toggle of a class that is present calls remove and ends the
    same way, with the class still present; add and toggle of another
    class keep the class.  toggle of a class that is absent adds it and
    returns true. *)
Theorem classList_never_removes (c : string) (el : Element.obj) :
  Element.classList_contains c el = true →
  (∀ classes,
     Element.classList_remove classes el
       = (inl (ReferenceError "claases"), el)) ∧
  Element.classList_toggle c el = (inl (ReferenceError "claases"), el) ∧
  (∀ classes,
     Element.classList_contains c (Element.classList_add classes el) = true) ∧
  (∀ c', Element.classList_contains c (snd (Element.classList_toggle c' el))
         = true) ∧
  (∀ c', Element.classList_contains c' el = false →
         Element.classList_toggle c' el
           = (inr true, Element.classList_add [c'] el)).
Proof.
  intros Hc.
  assert (Hadd : ∀ classes,
            Element.classList_contains c (Element.classList_add classes el)
            = true).
  { intros classes. unfold Element.classList_contains in *.
    rewrite bool_decide_eq_true in *.
    rewrite classes_after_add, list_elem_of_bind. exists c. split.
    - rewrite words_of_token by by eapply words_of_tokens. left.
    - destruct (Set_adds classes (new_Set (Element._classes el)))
        as (Hin & _). apply Hin. left.
      by apply (new_Set_NoDup (Element._classes el)). }
  split_and!; [done| |done| |].
  - unfold Element.classList_toggle. by rewrite Hc.
  - intros c'. unfold Element.classList_toggle.
    destruct (Element.classList_contains c' el); [done|]. apply Hadd.
  - intros c' Hc'. unfold Element.classList_toggle. by rewrite Hc'.
Qed.

(** ** Queries *)

Lemma element_below_inv (h : Heap) (k : Kinds) (t x : node) :
  element_below h k t x ↔
  ∃ c el, c ∈ childNodes (h t) ∧ k c = KElement el ∧
          (x = c ∨ element_below h k c x).
Proof.
  split.
  - intros [t' c el Hc Hk|t' c el x' Hc Hk Hx]; exists c, el; auto.
  - intros (c & el & Hc & Hk & [->|Hx]).
    + by apply element_child with el.
    + by apply element_deeper with c el.
Qed.

Lemma traverse_children_elem (rec : node → option (list node)) (h : Heap)
    (k : Kinds) (matchFn : Element.obj → bool) (l r : list node) :
  (∀ c below, c ∈ l → rec c = Some below →
     ∀ x, x ∈ below ↔ element_below h k c x ∧ accepted k matchFn x) →
  traverse_children rec k matchFn l = Some r →
  ∀ x, x ∈ r ↔
       (∃ c el, c ∈ l ∧ k c = KElement el ∧ (x = c ∨ element_below h k c x)) ∧
       accepted k matchFn x.
Proof.
  revert r. induction l as [|c l IH]; intros r Hrec; simpl.
  - intros [= <-] x. rewrite elem_of_nil. split; [done|].
    intros [(c & el & Hc & _) _]. by apply elem_of_nil in Hc.
  - assert (Hrest : ∀ r', traverse_children rec k matchFn l = Some r' →
              ∀ x, x ∈ r' ↔
                (∃ c' el, c' ∈ l ∧ k c' = KElement el ∧
                          (x = c' ∨ element_below h k c' x)) ∧
                accepted k matchFn x).
    { intros r'. apply IH. intros c' below Hc'. apply Hrec. by right. }
    assert (Hskip : (∀ el, k c ≠ KElement el) →
              traverse_children rec k matchFn l = Some r →
              ∀ x, x ∈ r ↔
                (∃ c' el, c' ∈ c :: l ∧ k c' = KElement el ∧
                          (x = c' ∨ element_below h k c' x)) ∧
                accepted k matchFn x).
    { intros Hk Hr x. rewrite (Hrest r Hr x). split.
      - intros [(c' & el & Hc' & ?) ?]. split; [|done].
        exists c', el. split; [by right|done].
      - intros [(c' & el & Hc' & Hk' & ?) ?]. split; [|done].
        apply elem_of_cons in Hc' as [->|Hc']; [by destruct (Hk el)|].
        by exists c', el. }
    destruct (k c) as [nt|data|el|de] eqn:Hk;
      try (apply Hskip; congruence).
    destruct (rec c) as [below|] eqn:Hbelow; [|done].
    destruct (traverse_children rec k matchFn l) as [after|] eqn:Hafter;
      [|done].
    intros [= <-] x.
    rewrite !elem_of_app, (Hrec c below (ltac:(left)) Hbelow x),
      (Hrest after eq_refl x).
    split.
    + intros [Hx|[[Hx Hacc]|[(c' & el' & Hc' & Hrest') Hacc]]].
      * destruct (matchFn el) eqn:Hm; [|by apply elem_of_nil in Hx].
        apply list_elem_of_singleton in Hx as ->. split.
        -- exists c, el. split_and!; [left|done|by left].
        -- by exists el.
      * split; [|done]. exists c, el. split_and!; [left|done|by right].
      * split; [|done]. exists c', el'. split; [by right|done].
    + intros [(c' & el' & Hc' & Hk' & Hx) Hacc].
      apply elem_of_cons in Hc' as [->|Hc'].
      * destruct Hx as [->|Hx]; [|by right; left].
        left. destruct Hacc as (el'' & Hk'' & Hm).
        assert (el'' = el) as -> by congruence.
        rewrite Hm. left.
      * right. right. split; [|done]. by exists c', el'.
Qed.

Lemma traverse_elem (fuel : nat) (h : Heap) (k : Kinds)
    (matchFn : Element.obj → bool) (t : node) (r : list node) :
  traverse fuel h k matchFn t = Some r →
  ∀ x, x ∈ r ↔ element_below h k t x ∧ accepted k matchFn x.
Proof.
  revert t r. induction fuel as [|fuel IH]; intros t r; simpl; [done|].
  intros Hr x.
  rewrite (traverse_children_elem _ h k matchFn _ r (λ c b _, IH c b) Hr x).
  by rewrite <- element_below_inv.
Qed.

Lemma traverse_children_filter (rec rec' : node → option (list node))
    (k : Kinds) (matchFn : Element.obj → bool) (l : list node) :
  (∀ c, c ∈ l → rec c = filter (accepted k matchFn) <$> rec' c) →
  traverse_children rec k matchFn l =
  filter (accepted k matchFn) <$> traverse_children rec' k (λ _, true) l.
Proof.
  induction l as [|c l IH]; intros Hrec; simpl; [done|].
  rewrite IH by (intros c' Hc'; apply Hrec; by right).
  destruct (k c) as [nt|data|el|de] eqn:Hk; try done.
  rewrite (Hrec c) by left.
  destruct (rec' c) as [below|]; simpl; [|done].
  destruct (traverse_children rec' k (λ _, true) l) as [after|]; simpl;
    [|done].
  f_equal. rewrite filter_cons, !filter_app.
  destruct (matchFn el) eqn:Hm.
  - rewrite decide_True by by exists el. done.
  - rewrite decide_False; [done|].
    intros (el' & Hk' & Hm'). congruence.
Qed.

(** What a walk pushes is what the walk that accepts every Element
    pushes, without the Elements that [matchFn] rejects. *)
Lemma traverse_filter (fuel : nat) (h : Heap) (k : Kinds)
    (matchFn : Element.obj → bool) (t : node) :
  traverse fuel h k matchFn t =
  filter (accepted k matchFn) <$> traverse fuel h k (λ _, true) t.
Proof.
  revert t. induction fuel as [|fuel IH]; intros t; simpl; [done|].
  apply traverse_children_filter. intros c _. apply IH.
Qed.

Lemma traverse_children_ext (rec rec' : node → option (list node))
    (k : Kinds) (m m' : Element.obj → bool) (l : list node) :
  (∀ el, m el = m' el) →
  (∀ c, c ∈ l → rec c = rec' c) →
  traverse_children rec k m l = traverse_children rec' k m' l.
Proof.
  intros Hm. induction l as [|c l IH]; intros Hrec; simpl; [done|].
  rewrite IH by (intros c' Hc'; apply Hrec; by right).
  destruct (k c); try done. by rewrite (Hrec c), Hm by left.
Qed.

Lemma traverse_ext (fuel : nat) (h : Heap) (k : Kinds)
    (m m' : Element.obj → bool) (t : node) :
  (∀ el, m el = m' el) → traverse fuel h k m t = traverse fuel h k m' t.
Proof.
  intros Hm. revert t. induction fuel as [|fuel IH]; intros t; simpl; [done|].
  apply traverse_children_ext; [done|]. intros c _. apply IH.
Qed.

Lemma traverse_children_is_Some (rec : node → option (list node))
    (k : Kinds) (m : Element.obj → bool) (l : list node) :
  (∀ c, c ∈ l → is_Some (rec c)) → is_Some (traverse_children rec k m l).
Proof.
  induction l as [|c l IH]; intros Hrec; simpl; [done|].
  destruct (IH (λ c' Hc', Hrec c' (ltac:(by right)))) as [after ->].
  destruct (Hrec c (ltac:(left))) as [below ->].
  by destruct (k c).
Qed.

Lemma shallow_traverse (h : Heap) (k : Kinds) (m : Element.obj → bool)
    (j fuel : nat) (t : node) :
  shallow h j t → (j ≤ fuel)%nat → is_Some (traverse fuel h k m t).
Proof.
  intros Hs. revert fuel. induction Hs as [j t _ IH]; intros fuel Hle.
  destruct fuel as [|fuel]; [lia|]. simpl.
  apply traverse_children_is_Some. intros c Hc. apply IH; [done|lia].
Qed.

Lemma element_below_is_Element (h : Heap) (k : Kinds) (t x : node) :
  element_below h k t x → accepted k (λ _, true) x.
Proof. induction 1 as [t c el _ Hk|t c el x _ _ _ IH]; [by exists el|done]. Qed.

(** X23.  querySelectorAll of an Element returns when the recursion bound
    is at least the depth of the subtree, and so does querySelector.
    What it returns are exactly the Elements that the selector matches
    among those found below the receiver through children that are
    Elements (the receiver itself is not examined, and nothing below a
    node that is not an Element is).  The order does not depend on the
    selector: there is one list of the Elements below the receiver of
    which every result is the sublist of the matching ones.
    querySelector returns the first one, or [null]. *)
Theorem querySelectorAll_selects_in_document_order
    (toUpperCase : string → string) (fuel : nat) (h : Heap) (k : Kinds)
    (this : node) (selector : string) :
  is_Element k this →
  (∀ r, querySelectorAll toUpperCase fuel h k this selector = Some r →
     (∀ x, x ∈ r ↔
           element_below h k this x ∧
           accepted k (Element._createMatcher toUpperCase selector) x) ∧
     (∃ all,
        (∀ x, x ∈ all ↔ element_below h k this x) ∧
        ∀ selector',
          querySelectorAll toUpperCase fuel h k this selector' =
          Some (filter
                  (accepted k (Element._createMatcher toUpperCase selector'))
                  all)) ∧
     querySelector toUpperCase fuel h k this selector = Some (head r)) ∧
  (∀ j, shallow h j this → (j ≤ fuel)%nat →
     is_Some (querySelectorAll toUpperCase fuel h k this selector) ∧
     is_Some (querySelector toUpperCase fuel h k this selector)).
Proof.
  unfold querySelectorAll, querySelector, _querySelectorAll.
  intros _. split.
  - intros r Hr. split_and!.
    + by apply (traverse_elem fuel).
    + rewrite traverse_filter in Hr.
      destruct (traverse fuel h k (λ _, true) this) as [all|] eqn:Hall;
        [|done].
      exists all. split.
      * intros x. rewrite (traverse_elem fuel h k _ this all Hall x).
        split; [tauto|].
        intros Hx. split; [done|].
        by apply (element_below_is_Element h k this).
      * intros selector'. by rewrite traverse_filter, Hall.
    + by rewrite Hr.
  - intros j Hj Hle.
    destruct (shallow_traverse h k
                (Element._createMatcher toUpperCase selector) j fuel this
                Hj Hle) as [r Hr].
    rewrite Hr. by split.
Qed.

Lemma search_children_head (rec : node → option (option node))
    (rec' : node → option (list node)) (k : Kinds) (id : string)
    (l : list node) (r : option node) (found : list node) :
  (∀ c r' found', c ∈ l → rec c = Some r' → rec' c = Some found' →
                  r' = head found') →
  search_children rec k id l = Some r →
  traverse_children rec' k (λ el, bool_decide (Element.id el = id)) l
    = Some found →
  r = head found.
Proof.
  revert found. induction l as [|c l IH]; intros found Hrec; simpl.
  - by intros [= <-] [= <-].
  - assert (Hrest : ∀ found',
              search_children rec k id l = Some r →
              traverse_children rec' k
                (λ el, bool_decide (Element.id el = id)) l = Some found' →
              r = head found').
    { intros found'. apply IH. intros c' r' f' Hc'. apply Hrec. by right. }
    destruct (k c) as [nt|data|el|de] eqn:Hk; try apply Hrest.
    destruct (rec' c) as [below|] eqn:Hbelow; [|by destruct (decide _)].
    destruct (traverse_children rec' k _ l) as [after|] eqn:Hafter;
      [|by destruct (decide _)].
    destruct (decide (Element.id el = id)) as [Hid|Hid].
    + rewrite bool_decide_eq_true_2 by done. by intros [= <-] [= <-].
    + rewrite bool_decide_eq_false_2 by done.
      destruct (rec c) as [[x|]|] eqn:Hc; [| |done].
      * intros [= <-] [= <-].
        pose proof (Hrec c (Some x) below (ltac:(left)) Hc Hbelow) as Hx.
        by destruct below.
      * intros Hr [= <-].
        pose proof (Hrec c None below (ltac:(left)) Hc Hbelow) as Hnone.
        destruct below; [|done]. simpl. by apply Hrest.
Qed.

Lemma search_head (fuel fuel' : nat) (h : Heap) (k : Kinds) (id : string)
    (t : node) (r : option node) (found : list node) :
  search fuel h k id t = Some r →
  traverse fuel' h k (λ el, bool_decide (Element.id el = id)) t = Some found →
  r = head found.
Proof.
  revert fuel' t r found. induction fuel as [|fuel IH];
    intros fuel' t r found; simpl; [done|].
  destruct fuel' as [|fuel']; simpl; [done|].
  apply search_children_head. intros c r' found' _. apply IH.
Qed.

Lemma search_children_found (rec : node → option (option node)) (h : Heap)
    (k : Kinds) (id : string) (l : list node) (r : option node) :
  (∀ c r', c ∈ l → rec c = Some r' →
     match r' with
     | Some x => element_below h k c x ∧
                 accepted k (λ el, bool_decide (Element.id el = id)) x
     | None => ∀ x, element_below h k c x →
                    ¬ accepted k (λ el, bool_decide (Element.id el = id)) x
     end) →
  search_children rec k id l = Some r →
  match r with
  | Some x =>
      (∃ c el, c ∈ l ∧ k c = KElement el ∧ (x = c ∨ element_below h k c x)) ∧
      accepted k (λ el, bool_decide (Element.id el = id)) x
  | None =>
      ∀ c el x, c ∈ l → k c = KElement el → x = c ∨ element_below h k c x →
                ¬ accepted k (λ el, bool_decide (Element.id el = id)) x
  end.
Proof.
  induction l as [|c l IH]; intros Hrec; simpl.
  - intros [= <-] c el x Hc. by apply elem_of_nil in Hc.
  - assert (Hrest : search_children rec k id l = Some r →
      match r with
      | Some x =>
          (∃ c' el, c' ∈ c :: l ∧ k c' = KElement el ∧
                    (x = c' ∨ element_below h k c' x)) ∧
          accepted k (λ el, bool_decide (Element.id el = id)) x
      | None =>
          ∀ c' el x, c' ∈ l → k c' = KElement el →
                     x = c' ∨ element_below h k c' x →
            ¬ accepted k (λ el, bool_decide (Element.id el = id)) x
      end).
    { intros Hr.
      specialize (IH (λ c' r' Hc', Hrec c' r' (ltac:(by right))) Hr).
      destruct r as [x|]; [|done].
      destruct IH as [(c' & el & Hc' & ?) ?]. split; [|done].
      exists c', el. split; [by right|done]. }
    destruct (k c) as [nt|data|el|de] eqn:Hk.
    1,2,4: (intros Hr; specialize (Hrest Hr); destruct r as [x|]; [done|];
            intros c' el x [->|Hc']%elem_of_cons; [congruence|];
            by apply Hrest).
    destruct (decide (Element.id el = id)) as [Hid|Hid].
    { intros [= <-]. split.
      - exists c, el. split_and!; [left|done|by left].
      - exists el. split; [done|]. by apply bool_decide_eq_true. }
    destruct (rec c) as [[x|]|] eqn:Hc; [| |done].
    + intros [= <-].
      destruct (Hrec c (Some x) (ltac:(left)) Hc) as [Hx Hacc].
      split; [|done]. exists c, el. split_and!; [left|done|by right].
    + intros Hr. specialize (Hrest Hr). destruct r as [x|]; [done|].
      pose proof (Hrec c None (ltac:(left)) Hc) as Hnone. simpl in Hnone.
      intros c' el' x [->|Hc']%elem_of_cons Hk' Hx.
      * destruct Hx as [->|Hx]; [|by apply Hnone].
        intros (el'' & Hk'' & Hm). apply bool_decide_eq_true in Hm.
        congruence.
      * by apply (Hrest c' el').
Qed.

Lemma search_found (fuel : nat) (h : Heap) (k : Kinds) (id : string)
    (t : node) (r : option node) :
  search fuel h k id t = Some r →
  match r with
  | Some x => element_below h k t x ∧
              accepted k (λ el, bool_decide (Element.id el = id)) x
  | None => ∀ x, element_below h k t x →
                 ¬ accepted k (λ el, bool_decide (Element.id el = id)) x
  end.
Proof.
  revert t r. induction fuel as [|fuel IH]; intros t r; simpl; [done|].
  intros Hr.
  pose proof (search_children_found _ h k id _ r (λ c r' _, IH c r') Hr)
    as Hfound.
  destruct r as [x|].
  - destruct Hfound as [Hx Hacc]. split; [|done].
    by apply element_below_inv.
  - intros x (c & el & Hc & Hk & Hx)%element_below_inv.
    by apply (Hfound c el).
Qed.

Lemma createMatcher_id (toUpperCase : string → string) (id : string) :
  Element._createMatcher toUpperCase ("#" +:+ id) =
  λ el, bool_decide (Element.id el = id).
Proof.
  unfold Element._createMatcher, startsWith.
  assert (Hp : String.prefix "#" ("#" +:+ id) = true) by by destruct id.
  by rewrite Hp.
Qed.

Lemma search_children_is_Some (rec : node → option (option node))
    (k : Kinds) (id : string) (l : list node) :
  (∀ c, c ∈ l → is_Some (rec c)) → is_Some (search_children rec k id l).
Proof.
  induction l as [|c l IH]; intros Hrec; simpl; [done|].
  assert (Hrest : is_Some (search_children rec k id l)).
  { apply IH. intros x Hx. apply Hrec. by right. }
  destruct (k c) as [nt|data|el|de]; try done.
  destruct (decide (Element.id el = id)); [done|].
  destruct (Hrec c ltac:(left)) as [[found|] ->]; done.
Qed.

Lemma shallow_search (h : Heap) (k : Kinds) (id : string) (j fuel : nat)
    (t : node) :
  shallow h j t → (j ≤ fuel)%nat → is_Some (search fuel h k id t).
Proof.
  intros Hs. revert fuel. induction Hs as [j t _ IH]; intros fuel Hle.
  destruct fuel as [|fuel]; [lia|]. simpl.
  apply search_children_is_Some. intros c Hc. apply IH; [done|lia].
Qed.

(** X24.  The searches of a Document return when the recursion bound is
    at least the depth of the tree below the document.  getElementById
    returns an Element with the given id found below the document through
    children that are Elements, and [undefined] exactly when there is
    none.  getElementsByTagName("*") lists all those Elements;
    getElementsByTagName and getElementsByClassName return the sublists of
    the matching ones, and getElementById the first one with the id.
    When the only child of the document is an Element that is its
    [documentElement], querySelector of the document with the selector "#"
    followed by the id returns the same Element ([null] where
    getElementById returns [undefined]). *)
Theorem getElementById_finds_the_first (fuel : nat) (h : Heap) (k : Kinds)
    (this : node) (id : string) :
  is_Document k this →
  (∀ r, getElementById fuel h k id this = Some r →
     (∀ x, r = Some x →
           element_below h k this x ∧
           ∃ el, k x = KElement el ∧ Element.id el = id) ∧
     (r = None ↔
      ∀ x el, element_below h k this x → k x = KElement el →
              Element.id el ≠ id) ∧
     (∀ toUpperCase fuel' all,
        getElementsByTagName toUpperCase fuel' h k this "*" = Some all →
        (∀ x, x ∈ all ↔ element_below h k this x) ∧
        r = head (filter (accepted k (λ el, bool_decide (Element.id el = id)))
                    all) ∧
        (∀ tagName,
           getElementsByTagName toUpperCase fuel' h k this tagName =
           Some (filter
                   (accepted k
                      (λ el, bool_decide (tagName = "*") ||
                             bool_decide
                               (Element.tagName el = toUpperCase tagName)))
                   all)) ∧
        (∀ className,
           getElementsByClassName fuel' h k this className =
           Some (filter (accepted k (Element.classList_contains className))
                   all))) ∧
     (∀ toUpperCase fuel' de found,
        childNodes (h this) = [de] → is_Element k de →
        Document_querySelector toUpperCase fuel' h k (Some de) ("#" +:+ id)
          = Some (inr found) →
        found = r)) ∧
  (∀ j, shallow h j this → (j ≤ fuel)%nat →
     is_Some (getElementById fuel h k id this) ∧
     (∀ toUpperCase tagName,
        is_Some (getElementsByTagName toUpperCase fuel h k this tagName)) ∧
     (∀ className,
        is_Some (getElementsByClassName fuel h k this className)) ∧
     (∀ toUpperCase de selector,
        childNodes (h this) = [de] → is_Element k de →
        ∃ found,
          Document_querySelector toUpperCase fuel h k (Some de) selector
            = Some (inr found))).
Proof.
  unfold getElementById. intros _. split.
  - intros r Hr.
    pose proof (search_found fuel h k id this r Hr) as Hfound.
    split_and!.
    + intros x ->. destruct Hfound as [Hx (el & Hk & Hm)]. split; [done|].
      exists el. split; [done|]. by apply bool_decide_eq_true in Hm.
    + split.
      * intros ->. intros x el Hx Hk Hid. apply (Hfound x Hx).
        exists el. split; [done|]. by apply bool_decide_eq_true.
      * intros Hnone. destruct r as [x|]; [|done].
        destruct Hfound as [Hx (el & Hk & Hm)].
        apply bool_decide_eq_true in Hm. by destruct (Hnone x el).
    + intros toUpperCase fuel' all. unfold getElementsByTagName.
      rewrite (traverse_ext fuel' h k _ (λ _, true)) by done.
      intros Hall. split_and!.
      * intros x. rewrite (traverse_elem fuel' h k _ this all Hall x).
        split; [tauto|].
        intros Hx. split; [done|].
        by apply (element_below_is_Element h k this).
      * apply (search_head fuel fuel' h k id this); [done|].
        by rewrite traverse_filter, Hall.
      * intros tagName. by rewrite traverse_filter, Hall.
      * intros className. unfold getElementsByClassName.
        by rewrite traverse_filter, Hall.
    + intros toUpperCase fuel' de found Hchildren [del Hde].
      unfold Document_querySelector. rewrite Hde, createMatcher_id.
      destruct fuel as [|fuel]; [done|]. simpl in Hr.
      rewrite Hchildren in Hr. simpl in Hr. rewrite Hde in Hr.
      destruct (decide (Element.id del = id)) as [Hid|Hid].
      * rewrite bool_decide_eq_true_2 by done. congruence.
      * rewrite bool_decide_eq_false_2 by done.
        unfold querySelector, _querySelectorAll. rewrite createMatcher_id.
        destruct (traverse fuel' h k _ de) as [l|] eqn:Hl; [|done].
        simpl. intros [= <-].
        destruct (search fuel h k id de) as [r'|] eqn:Hsearch; [|done].
        rewrite <- (search_head fuel fuel' h k id de r' l Hsearch Hl).
        destruct r'; congruence.
  - intros j Hj Hle. split_and!.
    + by apply (shallow_search h k id j).
    + intros toUpperCase tagName. by apply (shallow_traverse h k _ j).
    + intros className. by apply (shallow_traverse h k _ j).
    + intros toUpperCase de selector Hchildren [del Hde].
      unfold Document_querySelector. rewrite Hde.
      destruct (Element._createMatcher toUpperCase selector del);
        [by eexists|].
      inversion Hj as [j' t Hbelow Hj' Ht]; subst.
      assert (Hde' : shallow h j' de).
      { apply Hbelow. rewrite Hchildren. left. }
      destruct (shallow_traverse h k
                  (Element._createMatcher toUpperCase selector) j' fuel de
                  Hde' ltac:(lia)) as [l Hl].
      unfold querySelector, _querySelectorAll. rewrite Hl. by eexists.
Qed.

(** ** closeset *)

Lemma aos_root (h : Heap) (a n : node) :
  parentNode (h n) = None → ancestor_or_self h a n → a = n.
Proof. intros Hn Haos. inversion Haos; [done|congruence]. Qed.

Lemma aos_parent (h : Heap) (a n p : node) :
  parentNode (h n) = Some p → ancestor_or_self h a n →
  a = n ∨ ancestor_or_self h a p.
Proof.
  intros Hn Haos. inversion Haos as [|n' p' Hn' Hp]; [by left|]. subst.
  right. congruence.
Qed.

(** X25.  On a finite parent chain closeset of an Element returns, given
    enough iterations: the nearest node among the receiver and its
    ancestors that is an Element matched by the selector, or [null] when
    there is none. *)
Theorem closeset_finds_the_nearest (toUpperCase : string → string)
    (h : Heap) (k : Kinds) (this : node) (selector : string) :
  is_Element k this →
  rooted h this →
  ∃ fuel0, ∀ fuel, (fuel0 ≤ fuel)%nat →
    ∃ r,
      closeset toUpperCase fuel h k this selector = Some r ∧
      match r with
      | Some a =>
          ancestor_or_self h a this ∧
          accepted k (Element._createMatcher toUpperCase selector) a ∧
          ∀ b, ancestor_or_self h b this → ancestor_or_self h a b → b ≠ a →
               ¬ accepted k (Element._createMatcher toUpperCase selector) b
      | None =>
          ∀ b, ancestor_or_self h b this →
               ¬ accepted k (Element._createMatcher toUpperCase selector) b
      end.
Proof.
  unfold closeset. set (m := Element._createMatcher toUpperCase selector).
  intros _ Hrooted.
  destruct (rooted_height h this Hrooted) as [d Hd]. revert Hd.
  revert d. induction Hrooted as [n Hn|n p Hn Hp IH]; intros d Hd.
  - exists 1%nat. intros [|fuel] Hle; [lia|]. simpl. rewrite Hn.
    destruct (decide (accepted k m n)) as [Hacc|Hacc].
    + exists (Some n). destruct Hacc as (el & Hk & Hm). rewrite Hk, Hm.
      split; [done|]. split_and!; [constructor|by exists el|].
      intros b Hb _ Hne. by apply (aos_root h b n Hn) in Hb.
    + exists None.
      assert (Hnone : ∀ b, ancestor_or_self h b n → ¬ accepted k m b).
      { intros b Hb. by apply (aos_root h b n Hn) in Hb as ->. }
      destruct (k n) as [nt|data|el|de] eqn:Hk;
        try (split; [by destruct fuel|done]).
      destruct (m el) eqn:Hm; [destruct Hacc; by exists el|].
      split; [by destruct fuel|done].
  - inversion Hd as [|? p' d' Hn' Hp']; [congruence|]. subst.
    assert (p' = p) as -> by congruence.
    destruct (IH d' Hp') as (fuel0 & Hloop).
    exists (S fuel0). intros [|fuel] Hle; [lia|]. simpl. rewrite Hn.
    destruct (decide (accepted k m n)) as [Hacc|Hacc].
    + exists (Some n). destruct Hacc as (el & Hk & Hm). rewrite Hk, Hm.
      split; [done|]. split_and!; [constructor|by exists el|].
      intros b Hb Hnb Hne.
      apply (aos_parent h b n p Hn) in Hb as [->|Hb]; [done|].
      destruct (rooted_height h b) as [db Hdb].
      { clear -Hb Hp. induction Hb as [|x y Hx _ IHb]; [done|].
        apply IHb. inversion Hp; congruence. }
      pose proof (aos_height h b p db d' Hb Hdb Hp').
      pose proof (aos_height h n b (S d') db Hnb Hd Hdb). lia.
    + destruct (Hloop fuel ltac:(lia)) as (r & Hr & Hspec).
      exists r.
      assert (Heq : match k n with
                    | KElement el =>
                        if m el then Some (Some n)
                        else closeset_loop fuel h k m (Some p)
                    | _ => closeset_loop fuel h k m (Some p)
                    end = Some r).
      { destruct (k n) as [nt|data|el|de] eqn:Hk; try done.
        destruct (m el) eqn:Hm; [destruct Hacc; by exists el|done]. }
      split; [done|]. destruct r as [a|].
      * destruct Hspec as (Ha & Hacca & Hnear). split_and!.
        -- by apply aos_step with p.
        -- done.
        -- intros b Hb Hab Hne.
           apply (aos_parent h b n p Hn) in Hb as [->|Hb]; [done|].
           by apply Hnear.
      * intros b Hb.
        apply (aos_parent h b n p Hn) in Hb as [->|Hb]; [done|].
        by apply Hspec.
Qed.

(** ** Replacing the children by a text *)

Lemma remove_children_ok (this : node) (l : list node) :
  ∀ (fuel : nat) (h : Heap),
    childNodes (h this) = l → (length l ≤ fuel)%nat →
    ∃ h',
      remove_children fuel this h = Some (Ok tt, h') ∧
      childNodes (h' this) = [] ∧
      (∀ m, parentNode (h' m) =
            if decide (m ∈ l) then None else parentNode (h m)) ∧
      (∀ m, m ≠ this → childNodes (h' m) = childNodes (h m)) ∧
      (∀ m, _listeners (h' m) = _listeners (h m)).
Proof.
  induction l as [|c l IH]; intros fuel h Hl Hlen.
  - exists h. unfold remove_children, firstChild.
    destruct fuel; rewrite Hl; simpl; split_and!; try done.
  - destruct fuel as [|fuel]; [simpl in Hlen; lia|].
    simpl. unfold firstChild. rewrite Hl. simpl.
    destruct (removeChild_ok h this c) as (h1 & Heq & HP & HC).
    { rewrite Hl. left. }
    pose proof (removeChild_listeners h this c) as HL.
    rewrite Heq in HL |- *. simpl in HL.
    assert (H1 : childNodes (h1 this) = l).
    { rewrite HC, decide_True, Hl by done. simpl.
      rewrite decide_True by done. done. }
    destruct (IH fuel h1 H1) as (h' & Hloop & Hnone & HP' & HC' & HL').
    { simpl in Hlen. lia. }
    exists h'. split_and!; [done..| | |].
    + intros m. rewrite HP', HP.
      destruct (decide (m ∈ l)) as [Hin|Hout].
      * by rewrite decide_True by by right.
      * destruct (decide (m = c)) as [->|Hne].
        -- by rewrite decide_True by left.
        -- rewrite decide_False; [done|].
           by intros [?|?]%elem_of_cons.
    + intros m Hm. by rewrite HC', HC, decide_False.
    + intros m. by rewrite HL', HL.
Qed.

(** X26.  Assigning [textContent] and reading it again gives the value
    that was assigned.  On a Text the assignment replaces the data.  On
    any other node it detaches every child, whose parent reference is
    cleared, and leaves one child, a new Text holding the value, or no
    child at all when the value is the empty string; no other node is
    touched.  Assigning [innerHTML] on an Element does the same: the value
    is not parsed, and reading [innerHTML] of that Element again gives it
    back as it is. *)
Theorem textContent_assigned_is_textContent_read (fuel : nat) (this : node)
    (value : string) (d : Dom) :
  (this < next d)%nat →
  (length (childNodes (tree d this)) ≤ fuel)%nat →
  ∃ d',
    set_textContent fuel this value d = Some (Ok tt, d') ∧
    (∀ fuel', (2 ≤ fuel')%nat →
       textContent fuel' (tree d') (kinds d') this = Some value) ∧
    ((∃ el, kinds d this = KElement el) →
     set_innerHTML fuel this value d = Some (Ok tt, d') ∧
     ∀ toLowerCase fuel', (1 ≤ fuel')%nat →
       innerHTML toLowerCase fuel' (tree d') (kinds d') this = Some value) ∧
    ((∃ data, kinds d this = KText data) →
     tree d' = tree d ∧ kinds d' this = KText value) ∧
    ((∀ data, kinds d this ≠ KText data) →
     childNodes (tree d' this) =
       (if decide (value = "") then [] else [next d]) ∧
     (value ≠ "" →
      kinds d' (next d) = KText value ∧
      parentNode (tree d' (next d)) = Some this) ∧
     (∀ c, c ∈ childNodes (tree d this) → c ≠ next d →
           parentNode (tree d' c) = None) ∧
     (∀ m, m ≠ this → m ≠ next d →
           childNodes (tree d' m) = childNodes (tree d m)) ∧
     (∀ m, m ∉ childNodes (tree d this) → m ≠ next d →
           parentNode (tree d' m) = parentNode (tree d m)) ∧
     (∀ m, m ≠ next d →
           kinds d' m = kinds d m ∧
           _listeners (tree d' m) = _listeners (tree d m))).
Proof.
  intros Hthis Hlen.
  destruct (remove_children_ok this _ fuel (tree d) eq_refl Hlen)
    as (h1 & Hloop & Hnone & HP & HC & HL).
  assert (Hne : this ≠ next d) by lia.
  assert (Hdec : (∃ data, kinds d this = KText data) ∨
                 ¬ (∃ data, kinds d this = KText data)).
  { destruct (kinds d this) as [nt|data|el|de];
      try (right; intros [? ?]; congruence). left. by exists data. }
  destruct Hdec as [[data Hk]|Hk].
  { eexists. unfold set_textContent, set_innerHTML. rewrite Hk.
    split_and!; [done| | | |].
    - intros [|fuel'] Hf; [lia|]. simpl. by rewrite fn_lookup_insert.
    - by intros [el ?].
    - intros _. simpl. by rewrite fn_lookup_insert.
    - intros Hno. by destruct (Hno data). }
  assert (Hset : ∀ r,
            match remove_children fuel this (tree d) with
            | None => None
            | Some (Throw e, h') => Some (Throw e, with_tree h' d)
            | Some (Ok _, h') =>
                if decide (value = "") then Some (Ok tt, with_tree h' d)
                else
                  let (t, d') := new_object (KText value) (with_tree h' d) in
                  match appendChild this t (tree d') with
                  | (Ok _, h'') => Some (Ok tt, with_tree h'' d')
                  | (Throw e, h'') => Some (Throw e, with_tree h'' d')
                  end
            end = r →
            set_textContent fuel this value d = r ∧
            ((∃ el, kinds d this = KElement el) →
             set_innerHTML fuel this value d = r)).
  { intros r Hr. unfold set_innerHTML, set_textContent.
    destruct (kinds d this) as [nt|data|el|de] eqn:Hkind.
    - split; [done|]. by intros [? ?].
    - destruct Hk. by exists data.
    - done.
    - split; [done|]. by intros [? ?]. }
  rewrite Hloop in Hset.
  destruct (decide (value = "")) as [->|Hvalue].
  - destruct (Hset _ eq_refl) as [Hst Hsi].
    exists (with_tree h1 d). split_and!; [done| | | |].
    + intros [|fuel'] Hf; [lia|]. simpl. rewrite Hnone.
      by destruct (kinds d this) as [nt|data|el|de] eqn:Hkind;
        [|destruct Hk; by exists data|..].
    + intros Hel. split; [by apply Hsi|].
      intros toLowerCase [|fuel'] Hf; [lia|]. simpl. by rewrite Hnone.
    + intros Hdata. by destruct Hk.
    + intros _. simpl. split_and!; [done|done| | | |].
      * intros c Hc _. by rewrite HP, decide_True.
      * intros m Hm _. by apply HC.
      * intros m Hm _. by rewrite HP, decide_False.
      * intros m _. by rewrite HL.
  - unfold new_object in Hset. cbn [tree kinds next with_tree] in Hset.
    set (t := next d) in *.
    set (h2 := <[t := blank]> h1) in *.
    assert (Ht : parentNode (h2 t) = None).
    { unfold h2. by rewrite fn_lookup_insert. }
    assert (Happ : ∃ h3,
              appendChild this t h2 = (Ok t, h3) ∧
              childNodes (h3 this) = [t] ∧
              parentNode (h3 t) = Some this ∧
              (∀ m, m ≠ t → parentNode (h3 m) = parentNode (h1 m)) ∧
              (∀ m, m ≠ this → m ≠ t →
                    childNodes (h3 m) = childNodes (h1 m)) ∧
              (∀ m, m ≠ t → _listeners (h3 m) = _listeners (h1 m))).
    { unfold appendChild, detach, bind, get. simpl. rewrite Ht.
      unfold set_parentNode, set_childNodes, modify, ret; simpl.
      eexists. split; [done|].
      split_and!; try intros m; intros; autorewrite with store.
      - rewrite decide_True by done. unfold h2.
        by rewrite fn_lookup_insert_ne, Hnone by done.
      - by rewrite decide_True.
      - rewrite decide_False by done. unfold h2.
        by rewrite fn_lookup_insert_ne by done.
      - rewrite decide_False by done. unfold h2.
        by rewrite fn_lookup_insert_ne by done.
      - unfold h2. by rewrite fn_lookup_insert_ne by done. }
    destruct Happ as (h3 & Happ & H3this & H3t & H3P & H3C & H3L).
    rewrite Happ in Hset. destruct (Hset _ eq_refl) as [Hst Hsi].
    eexists. split_and!; [exact Hst| | | |].
    + intros [|[|fuel']] Hf; [lia|lia|]. cbn [tree kinds with_tree].
      assert (Hkind : ∀ data, (<[t := KText value]> (kinds d)) this
                              ≠ KText data).
      { intros data. rewrite fn_lookup_insert_ne by done.
        intros Hkind. destruct Hk. by exists data. }
      simpl. rewrite H3this. simpl. rewrite fn_lookup_insert.
      rewrite string_app_nil_r.
      destruct ((<[t := KText value]> (kinds d)) this) as [nt|data|el|de]
        eqn:Hkd; try done.
      by destruct (Hkind data).
    + intros Hel. split; [by apply Hsi|].
      intros toLowerCase [|fuel'] Hf; [lia|]. cbn [tree kinds with_tree].
      simpl. rewrite H3this. simpl.
      by rewrite fn_lookup_insert, string_app_nil_r.
    + intros Hdata. by destruct Hk.
    + intros _. cbn [tree kinds with_tree]. split_and!.
      * done.
      * intros _. by rewrite fn_lookup_insert.
      * intros c Hc Hct. by rewrite H3P, HP, decide_True.
      * intros m Hm Hmt. by rewrite H3C, HC.
      * intros m Hm Hmt. by rewrite H3P, HP, decide_False.
      * intros m Hmt. rewrite fn_lookup_insert_ne by done.
        by rewrite H3L, HL.
Qed.

(** ** cloneNode *)

Lemma clone_children_post
    (rec : node → Dom → option ((failure + node) * Dom)) (clone : node)
    (children : list node) :
  (∀ child d r d', rec child d = Some (r, d') →
     (next d < next d')%nat ∧
     (∀ m, (m < next d)%nat →
           tree d' m = tree d m ∧ kinds d' m = kinds d m) ∧
     (∀ c, r = inr c → (next d ≤ c)%nat ∧ parentNode (tree d' c) = None)) →
  ∀ d r d',
    clone_children rec clone children d = Some (r, d') →
    (clone < next d)%nat →
    (next d ≤ next d')%nat ∧
    (∀ m, (m < next d)%nat → m ≠ clone → tree d' m = tree d m) ∧
    (∀ m, (m < next d)%nat → kinds d' m = kinds d m) ∧
    parentNode (tree d' clone) = parentNode (tree d clone) ∧
    _listeners (tree d' clone) = _listeners (tree d clone) ∧
    (∀ c, r = inr c → c = clone).
Proof.
  intros Hrec. induction children as [|child rest IH]; intros d r d'; simpl.
  - intros [= <- <-] _. split_and!; try done. by intros c [= <-].
  - destruct (rec child d) as [[[e|cc] d1]|] eqn:Hchild; [| |done].
    + intros [= <- <-] Hclone.
      destruct (Hrec child d _ _ Hchild) as (Hnext & Hsame & _).
      split_and!; [lia| | | | |done].
      * intros m Hm _. by apply Hsame.
      * intros m Hm. by apply Hsame.
      * by destruct (Hsame clone Hclone) as [-> _].
      * by destruct (Hsame clone Hclone) as [-> _].
    + destruct (Hrec child d _ _ Hchild) as (Hnext & Hsame & Hcc).
      destruct (Hcc cc eq_refl) as [Hle Hfree].
      intros Hrest Hclone. revert Hrest.
      assert (Hne : cc ≠ clone) by lia.
      unfold appendChild, detach, bind, get. simpl. rewrite Hfree.
      unfold set_parentNode, set_childNodes, modify, ret; simpl.
      set (h2 := <[clone := _]> _).
      intros Hrest.
      destruct (IH (with_tree h2 d1) r d' Hrest)
        as (Hnext' & Hsame' & Hkinds' & Hparent' & Hlisteners' & Hret).
      { simpl. lia. }
      simpl in *.
      split_and!; [lia| | | | |done].
      * intros m Hm Hmc. rewrite Hsame' by (done || lia).
        destruct (Hsame m Hm) as [<- _]. unfold h2.
        rewrite fn_lookup_insert_ne by done.
        by rewrite fn_lookup_insert_ne by lia.
      * intros m Hm. rewrite Hkinds' by lia. by apply Hsame.
      * rewrite Hparent'. unfold h2. autorewrite with store.
        rewrite decide_False by done. by destruct (Hsame clone Hclone) as [-> _].
      * rewrite Hlisteners'. unfold h2. autorewrite with store.
        by destruct (Hsame clone Hclone) as [-> _].
Qed.

Lemma cloneNode_post (toUpperCase : string → string) (fuel : nat) :
  ∀ deep this d r d',
    cloneNode toUpperCase fuel deep this d = Some (r, d') →
    clone_post toUpperCase deep this d r d'.
Proof.
  induction fuel as [|fuel IH]; intros deep this d r d'; simpl; [done|].
  assert (Hrec : ∀ child d0 r0 d0',
            cloneNode toUpperCase fuel true child d0 = Some (r0, d0') →
            (next d0 < next d0')%nat ∧
            (∀ m, (m < next d0)%nat →
                  tree d0' m = tree d0 m ∧ kinds d0' m = kinds d0 m) ∧
            (∀ c, r0 = inr c →
                  (next d0 ≤ c)%nat ∧ parentNode (tree d0' c) = None)).
  { intros child d0 r0 d0' Hc.
    destruct (IH true child d0 r0 d0' Hc) as (Hnext & Hsame & Hret).
    split_and!; [done..|]. intros c Hr.
    destruct (Hret c Hr) as (-> & Hp & _). split; [lia|done]. }
  assert (Hshallow : ∀ x,
            clone_kind toUpperCase (kinds d this) = x →
            clone_post toUpperCase deep this d (inr (next d))
              {| tree := <[next d := blank]> (tree d);
                 kinds := <[next d := x]> (kinds d);
                 next := S (next d) |}).
  { intros x Hx. split_and!; simpl; [lia| |].
    - intros m Hm. by rewrite !fn_lookup_insert_ne by lia.
    - intros c [= <-]. by rewrite !fn_lookup_insert. }
  assert (Hdeep : ∀ x,
            clone_kind toUpperCase (kinds d this) = x →
            clone_children (cloneNode toUpperCase fuel true) (next d)
              (childNodes ((<[next d := blank]> (tree d)) this))
              {| tree := <[next d := blank]> (tree d);
                 kinds := <[next d := x]> (kinds d);
                 next := S (next d) |} = Some (r, d') →
            clone_post toUpperCase true this d r d').
  { intros x Hx Hloop.
    destruct (clone_children_post _ _ _ Hrec _ _ _ Hloop)
      as (Hnext & Hsame & Hkinds & Hparent & Hlisteners & Hret);
      [simpl; lia|]. simpl in *.
    split_and!; [lia| |].
    - intros m Hm. rewrite Hsame, Hkinds by lia.
      by rewrite !fn_lookup_insert_ne by lia.
    - intros c ->%Hret.
      rewrite Hparent, Hlisteners, Hkinds by lia.
      by rewrite !fn_lookup_insert. }
  unfold new_object.
  destruct (kinds d this) as [nt|data|el|de] eqn:Hk.
  - destruct deep; [by apply Hdeep|].
    intros [= <- <-]. by apply Hshallow.
  - intros [= <- <-]. by apply Hshallow.
  - destruct (Element.attributes el) as [|kv attrs].
    + destruct deep; [by apply Hdeep|].
      intros [= <- <-]. by apply Hshallow.
    + intros [= <- <-]. split_and!; simpl; [lia| |done].
      intros m Hm. by rewrite !fn_lookup_insert_ne by lia.
  - destruct deep; [by apply Hdeep|].
    intros [= <- <-]. by apply Hshallow.
Qed.

(** X27.  Whatever cloneNode does, the objects that existed are left as
    they were.  A clone that is returned is a new object without parent
    and without listeners; the clone of a Text has its data, and the clone
    of an Element has its tag name put to upper case once more, and an
    empty id, an empty class name and no attribute, whatever the Element
    had.  For an Element that has an attribute cloneNode does not return:
    it ends with a TypeError, [clone.setAttributeNS] being no function.
    A call with [deep] false, or on a node without children, returns or
    ends in this way as soon as the recursion bound is positive. *)
Theorem cloneNode_makes_a_bare_copy (toUpperCase : string → string)
    (fuel : nat) (deep : bool) (this : node) (d : Dom) :
  (∀ r d',
     cloneNode toUpperCase fuel deep this d = Some (r, d') →
     (∀ m, (m < next d)%nat →
           tree d' m = tree d m ∧ kinds d' m = kinds d m) ∧
     (∀ c, r = inr c →
           c = next d ∧ parentNode (tree d' c) = None ∧
           _listeners (tree d' c) = ∅ ∧
           kinds d' c = clone_kind toUpperCase (kinds d this) ∧
           (deep = false → childNodes (tree d' c) = [])) ∧
     (∀ el, kinds d this = KElement el →
        (Element.attributes el ≠ [] →
         r = inl (Fault (TypeError_not_a_function "setAttributeNS"))) ∧
        (∀ c el', r = inr c → kinds d' c = KElement el' →
           Element.attributes el = [] ∧
           Element.tagName el' = toUpperCase (Element.tagName el) ∧
           Element.id el' = "" ∧ Element.className el' = "" ∧
           Element.attributes el' = []))) ∧
  (deep = false ∨ childNodes (tree d this) = [] →
   ∀ fuel', is_Some (cloneNode toUpperCase (S fuel') deep this d)).
Proof.
  split.
  { intros r d' Hclone.
    destruct (cloneNode_post toUpperCase fuel deep this d r d' Hclone)
      as (Hnext & Hsame & Hret).
    split_and!; [done..|].
    intros el Hk. split.
    - intros Hattrs. destruct fuel as [|fuel]; [done|]. simpl in Hclone.
      rewrite Hk in Hclone. unfold new_object in Hclone.
      destruct (Element.attributes el); [done|]. by injection Hclone as <- _.
    - intros c el' Hr Hk'. destruct (Hret c Hr) as (_ & _ & _ & Hkind & _).
      rewrite Hk in Hkind. simpl in Hkind.
      assert (el' = Element.new toUpperCase (Element.tagName el)) as ->
        by congruence.
      split_and!; try done.
      destruct fuel as [|fuel]; [done|]. simpl in Hclone.
      rewrite Hk in Hclone. unfold new_object in Hclone.
      destruct (Element.attributes el); [done|].
      injection Hclone as <- _. done. }
  - intros Hcase fuel'. simpl. unfold new_object.
    assert (Hloop : ∀ rec c d0,
              deep = true →
              is_Some (clone_children rec c
                         (childNodes ((<[next d := blank]> (tree d)) this))
                         d0)).
    { intros rec c d0 Hdeep. destruct Hcase as [?|Hcase]; [congruence|].
      destruct (decide (this = next d)) as [->|Hne].
      - by rewrite fn_lookup_insert.
      - by rewrite fn_lookup_insert_ne, Hcase by done. }
    destruct (kinds d this) as [nt|data|el|de]; try done.
    + destruct deep; [by apply Hloop|done].
    + destruct (Element.attributes el); [|done].
      destruct deep; [by apply Hloop|done].
    + destruct deep; [by apply Hloop|done].
Qed.

(** ** Elements, queries and clones at work on the concrete document *)

Lemma classList_never_removes_witness :
  let el := Element.with_className "a  b" (Element.new ascii_toUpperCase "p") in
  Element.classList_toggle "b" el = (inl (ReferenceError "claases"), el) ∧
  Element.classList_contains "b" (snd (Element.classList_toggle "c" el))
    = true.
Proof.
  intros el.
  assert (Hb : Element.classList_contains "b" el = true)
    by (vm_compute; reflexivity).
  destruct (classList_never_removes "b" el Hb) as (_ & Htoggle & _ & Hkeep & _).
  split; [exact Htoggle|apply Hkeep].
Defined.

Lemma querySelectorAll_selects_in_document_order_witness :
  querySelector ascii_toUpperCase 3 heap_0_123 demo_kinds 0%nat ".big"
    = Some (Some 1%nat) ∧
  (3%nat ∈ [1; 3]%nat ↔
   element_below heap_0_123 demo_kinds 0%nat 3%nat ∧
   accepted demo_kinds (Element._createMatcher ascii_toUpperCase ".big")
     3%nat).
Proof.
  assert (Hr : querySelectorAll ascii_toUpperCase 3 heap_0_123 demo_kinds
                 0%nat ".big" = Some [1; 3]%nat)
    by (vm_compute; reflexivity).
  assert (Hel : is_Element demo_kinds 0%nat) by by eexists.
  destruct (querySelectorAll_selects_in_document_order ascii_toUpperCase 3
              heap_0_123 demo_kinds 0%nat ".big" Hel) as [Hresult _].
  destruct (Hresult [1; 3]%nat Hr) as (Hin & _ & Hq).
  split; [exact Hq|apply Hin].
Defined.

Lemma getElementById_finds_the_first_witness :
  element_below (tree demo_document) (kinds demo_document) 4%nat 1%nat ∧
  ∃ el, kinds demo_document 1%nat = KElement el ∧ Element.id el = "a".
Proof.
  assert (Hdoc : is_Document (kinds demo_document) 4%nat) by by eexists.
  assert (Hr : getElementById 3 (tree demo_document) (kinds demo_document)
                 "a" 4%nat = Some (Some 1%nat))
    by (vm_compute; reflexivity).
  destruct (getElementById_finds_the_first 3 (tree demo_document)
              (kinds demo_document) 4%nat "a" Hdoc) as [Hresult _].
  destruct (Hresult (Some 1%nat) Hr) as (Hfound & _).
  by apply Hfound.
Defined.

Lemma closeset_finds_the_nearest_witness :
  ∃ fuel0, ∀ fuel, (fuel0 ≤ fuel)%nat →
    ∃ r,
      closeset ascii_toUpperCase fuel heap_0_123 demo_kinds 1%nat "div"
        = Some r ∧
      match r with
      | Some a =>
          ancestor_or_self heap_0_123 a 1%nat ∧
          accepted demo_kinds (Element._createMatcher ascii_toUpperCase "div")
            a ∧
          ∀ b, ancestor_or_self heap_0_123 b 1%nat →
               ancestor_or_self heap_0_123 a b → b ≠ a →
               ¬ accepted demo_kinds
                   (Element._createMatcher ascii_toUpperCase "div") b
      | None =>
          ∀ b, ancestor_or_self heap_0_123 b 1%nat →
               ¬ accepted demo_kinds
                   (Element._createMatcher ascii_toUpperCase "div") b
      end.
Proof.
  assert (Hel : is_Element demo_kinds 1%nat) by by eexists.
  exact (closeset_finds_the_nearest ascii_toUpperCase heap_0_123 demo_kinds
           1%nat "div" Hel (wf_acyclic _ heap_0_123_well_formed 1%nat)).
Defined.

Lemma textContent_assigned_is_textContent_read_witness :
  ∃ d',
    set_textContent 3 0%nat "hi" demo_dom = Some (Ok tt, d') ∧
    textContent 2 (tree d') (kinds d') 0%nat = Some "hi" ∧
    childNodes (tree d' 0%nat) = [4%nat] ∧
    parentNode (tree d' 1%nat) = None.
Proof.
  assert (Hthis : (0 < next demo_dom)%nat) by (vm_compute; lia).
  assert (Hlen : (length (childNodes (tree demo_dom 0%nat)) ≤ 3)%nat)
    by (vm_compute; lia).
  destruct (textContent_assigned_is_textContent_read 3 0%nat "hi" demo_dom
              Hthis Hlen) as (d' & Hset & Hget & _ & _ & Hnode).
  destruct Hnode as (Hchildren & _ & Hdetached & _).
  { intros data. vm_compute. discriminate. }
  exists d'. split_and!; [exact Hset|apply Hget; lia|exact Hchildren|].
  apply Hdetached; [vm_compute; left|vm_compute; discriminate].
Defined.

Lemma cloneNode_makes_a_bare_copy_witness :
  ∃ r d',
    cloneNode ascii_toUpperCase 1 false 1%nat demo_dom = Some (r, d') ∧
    kinds d' 1%nat = kinds demo_dom 1%nat ∧
    ∀ c, r = inr c →
         kinds d' c = KElement (Element.new ascii_toUpperCase "SPAN").
Proof.
  destruct (cloneNode ascii_toUpperCase 1 false 1%nat demo_dom)
    as [[r d']|] eqn:Hc; [|vm_compute in Hc; discriminate Hc].
  destruct (cloneNode_makes_a_bare_copy ascii_toUpperCase 1 false 1%nat
              demo_dom) as [Hresult _].
  destruct (Hresult r d' Hc) as (Hsame & Hret & _).
  exists r, d'. split_and!; [done| |].
  - apply Hsame. vm_compute. lia.
  - intros c Hr. by destruct (Hret c Hr) as (_ & _ & _ & -> & _).
Defined.

(** ** Markup *)

Lemma occurrences_app (c : Ascii.ascii) (s1 s2 : string) :
  occurrences c (s1 +:+ s2) = (occurrences c s1 + occurrences c s2)%nat.
Proof.
  induction s1 as [|a s1 IH]; [done|].
  change (String a s1 +:+ s2) with (String a (s1 +:+ s2)). simpl.
  rewrite IH. lia.
Qed.

Lemma occurrences_join (c : Ascii.ascii) (sep : string) (l : list string) :
  occurrences c sep = 0%nat →
  occurrences c (join sep l) = foldr (λ s n, (occurrences c s + n)%nat) 0%nat l.
Proof.
  intros Hsep. induction l as [|x l IH]; [done|].
  destruct l as [|y l].
  - simpl. lia.
  - change (join sep (x :: y :: l)) with (x +:+ sep +:+ join sep (y :: l)).
    rewrite !occurrences_app, IH, Hsep. simpl. lia.
Qed.

(** X28.  The markup of an Element opens a double quote for every
    attribute and closes none: when the tag name, the attribute names and
    the attribute values hold no double quote, outerHTML holds as many
    double quotes as the element has attributes, besides those of its
    innerHTML.  The tag name is followed by a space even when there is no
    attribute.  For a void element neither the children nor a closing tag
    are written, and innerHTML is not read. *)
Theorem outerHTML_leaves_quotes_open (toLowerCase : string → string)
    (el : Element.obj) (inner : string) :
  let quote := Ascii.ascii_of_nat 34 in
  let tag := toLowerCase (Element.tagName el) in
  occurrences quote tag = 0%nat →
  Forall (λ kv, occurrences quote kv.1 = 0%nat ∧ occurrences quote kv.2 = 0%nat)
    (Element.attributes el) →
  ∃ markup,
    outerHTML_of toLowerCase el (Some inner) = Some markup ∧
    (tag ∉ voidElements →
     occurrences quote markup =
       (length (Element.attributes el) + occurrences quote inner)%nat ∧
     (Element.attributes el = [] →
      markup = "<" +:+ tag +:+ " >" +:+ inner +:+ "</" +:+ tag +:+ ">")) ∧
    (tag ∈ voidElements →
     occurrences quote markup = length (Element.attributes el) ∧
     outerHTML_of toLowerCase el None = Some markup ∧
     (Element.attributes el = [] → markup = "<" +:+ tag +:+ " >")).
Proof.
  intros quote tag Htag Hattrs. unfold outerHTML_of. fold tag.
  set (attrs := (λ kv, kv.1 +:+ "=" +:+ dquote +:+ kv.2)
                  <$> Element.attributes el).
  set (attrStr := match attrs with [] => " " | _ => " " +:+ join " " attrs end).
  assert (Hstr : occurrences quote attrStr = length (Element.attributes el)).
  { assert (Hjoin : occurrences quote (join " " attrs)
                    = length (Element.attributes el)).
    { rewrite occurrences_join by done. unfold attrs.
      induction Hattrs as [|kv l [Hk Hv] _ IH]; [done|].
      rewrite fmap_cons. simpl. rewrite IH, !occurrences_app, Hk, Hv.
      done. }
    unfold attrStr. destruct attrs as [|a attrs'] eqn:Ha.
    - unfold attrs in Ha. by destruct (Element.attributes el).
    - by rewrite occurrences_app, Hjoin. }
  assert (Hnone : Element.attributes el = [] → attrStr = " ").
  { intros Hel. unfold attrStr, attrs. by rewrite Hel. }
  destruct (decide (tag ∈ voidElements)) as [Hvoid|Hvoid].
  - eexists. split_and!; [done|done|].
    intros _. split_and!; [|done|].
    + rewrite !occurrences_app, Htag, Hstr. simpl. lia.
    + intros Hel. by rewrite (Hnone Hel).
  - eexists. split_and!; [done| |done].
    intros _. split.
    + rewrite !occurrences_app, Htag, Hstr. simpl. lia.
    + intros Hel. by rewrite (Hnone Hel).
Qed.

(** ** Document *)

(** Appending a node that has no parent. *)
Lemma appendChild_parentless (h : Heap) (this c : node) :
  parentNode (h c) = None →
  c ≠ this →
  ∃ h',
    appendChild this c h = (Ok c, h') ∧
    childNodes (h' this) = childNodes (h this) ++ [c] ∧
    parentNode (h' c) = Some this ∧
    (∀ m, m ≠ c → parentNode (h' m) = parentNode (h m)) ∧
    (∀ m, m ≠ this → childNodes (h' m) = childNodes (h m)) ∧
    (∀ m, _listeners (h' m) = _listeners (h m)) ∧
    (∀ m, m ≠ c → m ≠ this → h' m = h m).
Proof.
  intros Hc Hne. unfold appendChild, detach, bind, get. simpl. rewrite Hc.
  unfold set_parentNode, set_childNodes, modify, ret; simpl.
  eexists. split; [done|].
  split_and!; try intros m; intros; autorewrite with store.
  - by rewrite decide_True.
  - by rewrite decide_True.
  - by rewrite decide_False.
  - by rewrite decide_False.
  - done.
  - by rewrite !fn_lookup_insert_ne by done.
Qed.

Lemma shallow_after_append (h h2 : Heap) (this el : node) (j : nat) :
  childNodes (h2 this) = childNodes (h this) ++ [el] →
  childNodes (h2 el) = [] →
  (∀ m, m ≠ this → m ≠ el → childNodes (h2 m) = childNodes (h m)) →
  ∀ n, shallow h j n → shallow h2 (S j) n.
Proof.
  intros Hthis Hel Hother n Hn.
  induction Hn as [j n _ IH]. constructor. intros c Hc.
  destruct (decide (n = el)) as [->|Hne].
  { rewrite Hel in Hc. by apply elem_of_nil in Hc. }
  destruct (decide (n = this)) as [->|Hnt].
  - rewrite Hthis in Hc. apply elem_of_app in Hc as [Hc|Hc]; [by apply IH|].
    apply list_elem_of_singleton in Hc as ->. constructor.
    intros c. rewrite Hel. by intros ?%elem_of_nil.
  - rewrite Hother in Hc by done. by apply IH.
Qed.

(** X29.  A new Element made by createElement stands nowhere in the
    tree.  Once it is appended to the document it is the last child of
    the document, and getElementsByTagName of the document, with the tag
    name it was created with, returns a list that holds it, when the
    recursion bound exceeds the depth that the tree below the document
    had.  The queries by selector of a Document go through
    [documentElement] alone, a field that neither createElement nor
    appendChild assigns: in a document where it is [null], as the
    constructor leaves it, it is still [null] afterwards, and they return
    [null] and no Element at all, whatever the tree holds.  When it is an
    Element, querySelectorAll of the document returns that Element, if
    the selector matches it, followed by what querySelectorAll of that
    Element returns, and querySelector of the document returns the first
    of them, or [null]; both return when the recursion bound is at least
    the depth of the subtree of that Element. *)
Theorem document_finds_appended_element (toUpperCase : string → string)
    (tagName : string) (this : node) (d : Dom) :
  kinds d this = KDocument None →
  this ≠ next d →
  let el := fst (createElement toUpperCase tagName d) in
  let d1 := snd (createElement toUpperCase tagName d) in
  el = next d ∧ tree d1 el = blank ∧
  kinds d1 el = KElement (Element.new toUpperCase tagName) ∧
  kinds d1 this = KDocument None ∧
  (∃ h2,
     appendChild this el (tree d1) = (Ok el, h2) ∧
     parentNode (h2 el) = Some this ∧
     lastChild h2 this = Some el ∧
     (∀ fuel r,
        getElementsByTagName toUpperCase fuel h2 (kinds d1) this tagName
          = Some r → el ∈ r) ∧
     (∀ j fuel, shallow (tree d) j this → (S j ≤ fuel)%nat →
        ∃ r,
          getElementsByTagName toUpperCase fuel h2 (kinds d1) this tagName
            = Some r ∧ el ∈ r) ∧
     (∀ fuel selector,
        Document_querySelector toUpperCase fuel h2 (kinds d1) None selector
          = Some (inr None) ∧
        Document_querySelectorAll toUpperCase fuel h2 (kinds d1) None selector
          = Some (inr []))) ∧
  (∀ fuel h k de del selector,
     k de = KElement del →
     let first :=
       if Element._createMatcher toUpperCase selector del then [de] else [] in
     (∀ below,
        querySelectorAll toUpperCase fuel h k de selector = Some below →
        Document_querySelectorAll toUpperCase fuel h k (Some de) selector
          = Some (inr (first ++ below)) ∧
        Document_querySelector toUpperCase fuel h k (Some de) selector
          = Some (inr (head (first ++ below))) ∧
        ∀ x, x ∈ first ++ below ↔
             (x = de ∨ element_below h k de x) ∧
             accepted k (Element._createMatcher toUpperCase selector) x) ∧
     (∀ j, shallow h j de → (j ≤ fuel)%nat →
        ∃ below,
          querySelectorAll toUpperCase fuel h k de selector = Some below)).
Proof.
  intros Hdoc Hne el d1. unfold createElement, new_object in el, d1.
  simpl in el, d1. subst el d1. cbn [tree kinds].
  split_and!.
  - done.
  - by rewrite fn_lookup_insert.
  - by rewrite fn_lookup_insert.
  - by rewrite fn_lookup_insert_ne by done.
  - destruct (appendChild_parentless (<[next d := blank]> (tree d)) this
                (next d))
      as (h2 & Happ & Hchildren & Hparent & _ & Hother & _).
    { by rewrite fn_lookup_insert. }
    { done. }
    assert (Hfound : ∀ fuel r,
              getElementsByTagName toUpperCase fuel h2
                (<[next d := KElement (Element.new toUpperCase tagName)]>
                   (kinds d)) this tagName = Some r → next d ∈ r).
    { intros fuel r Hr. unfold getElementsByTagName in Hr.
      apply (traverse_elem fuel _ _ _ this r Hr). split.
      - apply element_child with (Element.new toUpperCase tagName).
        + rewrite Hchildren, elem_of_app, list_elem_of_singleton. by right.
        + by rewrite fn_lookup_insert.
      - exists (Element.new toUpperCase tagName). split.
        + by rewrite fn_lookup_insert.
        + simpl. rewrite (bool_decide_eq_true_2 (toUpperCase tagName = _))
            by done. apply orb_true_r. }
    exists h2. split_and!; [done|done| |done| |done].
    + unfold lastChild. by rewrite Hchildren, last_snoc.
    + intros j fuel Hj Hle.
      assert (Hj2 : shallow h2 (S j) this).
      { apply (shallow_after_append (tree d) h2 this (next d) j);
          [|by rewrite Hother, fn_lookup_insert by done| |done].
        - by rewrite Hchildren, fn_lookup_insert_ne by done.
        - intros m Hm1 Hm2.
          by rewrite Hother, fn_lookup_insert_ne by done. }
      destruct (shallow_traverse h2
                  (<[next d := KElement (Element.new toUpperCase tagName)]>
                     (kinds d))
                  (λ el, bool_decide (tagName = "*") ||
                         bool_decide
                           (Element.tagName el = toUpperCase tagName))
                  (S j) fuel this Hj2 Hle) as [r Hr].
      exists r. split; [done|]. by apply (Hfound fuel).
  - intros fuel h k de del selector Hde. split.
    + intros below Hbelow.
      unfold Document_querySelectorAll, Document_querySelector.
      rewrite Hde. unfold querySelector.
      unfold querySelectorAll in Hbelow |- *. rewrite Hbelow. simpl.
      split_and!; [done| |].
      * by destruct (Element._createMatcher toUpperCase selector del).
      * unfold _querySelectorAll in Hbelow.
        intros x. rewrite elem_of_app.
        rewrite (traverse_elem fuel h k _ de below Hbelow x).
        destruct (Element._createMatcher toUpperCase selector del) eqn:Hm.
        -- rewrite list_elem_of_singleton. split.
           ++ intros [->|[? ?]]; [|tauto]. split; [by left|]. by exists del.
           ++ intros [[->|?] ?]; tauto.
        -- rewrite elem_of_nil. split; [tauto|].
           intros [[->|?] Hacc]; [|tauto].
           destruct Hacc as (el' & Hk' & Hm'). congruence.
    + intros j Hj Hle.
      by apply (shallow_traverse h k
                  (Element._createMatcher toUpperCase selector) j fuel de).
Qed.

(** ** Deep copies *)

Lemma mirrors_below (toUpperCase : string → string) (h0 : Heap) (k0 : Kinds)
    (h' : Heap) (k' : Kinds) (hi : nat) (n c : node) :
  mirrors toUpperCase h0 k0 h' k' hi n c → (c < hi)%nat.
Proof. by intros [? ? ?]. Qed.

(** A copy stays a copy when the store changes outside of it. *)
Lemma mirrors_frame (toUpperCase : string → string) (h0 : Heap) (k0 : Kinds)
    (h1 : Heap) (k1 : Kinds) (h2 : Heap) (k2 : Kinds) (hi hi' : nat)
    (n c : node) :
  mirrors toUpperCase h0 k0 h1 k1 hi n c →
  (hi ≤ hi')%nat →
  (∀ m, (c ≤ m)%nat → (m < hi)%nat →
        childNodes (h2 m) = childNodes (h1 m) ∧ k2 m = k1 m) →
  (∀ m, (c < m)%nat → (m < hi)%nat → parentNode (h2 m) = parentNode (h1 m)) →
  mirrors toUpperCase h0 k0 h2 k2 hi' n c.
Proof.
  intros Hm Hhi. induction Hm as [n c Hc Hk Hlen Hup Hsub IH].
  intros Hsame Hparent.
  destruct (Hsame c ltac:(lia) Hc) as [Hchildren Hkind].
  assert (Hchild : ∀ y, y ∈ childNodes (h1 c) → (c < y)%nat ∧ (y < hi)%nat).
  { intros y Hy. split; [by apply Hup|].
    apply list_elem_of_lookup in Hy as [i Hi].
    destruct (lookup_lt_is_Some_2 (copied_children h0 k0 n) i) as [x Hx].
    { rewrite <- Hlen. by eapply lookup_lt_Some. }
    by apply (mirrors_below _ _ _ _ _ _ _ _ (Hsub i x y Hx Hi)). }
  constructor.
  - lia.
  - by rewrite Hkind.
  - by rewrite Hchildren.
  - rewrite Hchildren. intros y Hy. destruct (Hchild y Hy) as [Hlt Hlt'].
    split; [done|]. rewrite Hparent by done. by apply Hup.
  - rewrite Hchildren. intros i x y Hx Hy.
    destruct (Hchild y) as [Hlt Hlt']; [by eapply list_elem_of_lookup_2|].
    apply (IH i x y Hx Hy).
    + intros m Hm1 Hm2. apply Hsame; [lia|done].
    + intros m Hm1 Hm2. apply Hparent; [lia|done].
Qed.

Section Deep_copy.

Variable toUpperCase : string → string.
Variable d : Dom.
Hypothesis d_closed : closed d.

Lemma clone_children_mirrors
    (rec : node → Dom → option ((failure + node) * Dom)) (clone : node) :
  (∀ x dc r dc',
     (x < next d)%nat → extends d dc → rec x dc = Some (r, dc') →
     clone_post toUpperCase true x dc r dc' ∧
     ∀ cc, r = inr cc →
           mirrors toUpperCase (tree d) (kinds d) (tree dc') (kinds dc')
             (next dc') x cc) →
  ∀ rest done dcur r dc',
    (next d ≤ clone)%nat → (clone < next dcur)%nat → extends d dcur →
    Forall (λ x, (x < next d)%nat) rest →
    length (childNodes (tree dcur clone)) = length done →
    (∀ y, y ∈ childNodes (tree dcur clone) →
          (clone < y)%nat ∧ (y < next dcur)%nat ∧
          parentNode (tree dcur y) = Some clone) →
    (∀ i x y, done !! i = Some x →
              childNodes (tree dcur clone) !! i = Some y →
              mirrors toUpperCase (tree d) (kinds d) (tree dcur) (kinds dcur)
                (next dcur) x y) →
    clone_children rec clone rest dcur = Some (r, dc') →
    ∀ c, r = inr c →
      c = clone ∧ (clone < next dc')%nat ∧
      kinds dc' clone = kinds dcur clone ∧
      length (childNodes (tree dc' clone)) = length (done ++ rest) ∧
      (∀ y, y ∈ childNodes (tree dc' clone) →
            (clone < y)%nat ∧ parentNode (tree dc' y) = Some clone) ∧
      (∀ i x y, (done ++ rest) !! i = Some x →
                childNodes (tree dc' clone) !! i = Some y →
                mirrors toUpperCase (tree d) (kinds d) (tree dc') (kinds dc')
                  (next dc') x y).
Proof.
  intros Hrec. induction rest as [|x rest IH];
    intros done dcur r dc' Hlo Hclone Hext Hrest Hlen Hys Hmir; simpl.
  - intros [= <- <-] c [= <-]. rewrite app_nil_r.
    split_and!; [done..| |done].
    intros y Hy. destruct (Hys y Hy) as (? & _ & ?). done.
  - apply Forall_cons in Hrest as [Hx Hrest].
    destruct (rec x dcur) as [[[e|cc] d2]|] eqn:Hchild; [| |done].
    { by intros [= <- <-] c [=]. }
    destruct (Hrec x dcur _ _ Hx Hext Hchild) as [Hpost Hcc].
    destruct Hpost as (Hnext & Hsame & Hret).
    destruct (Hret cc eq_refl) as (-> & Hfree & _).
    specialize (Hcc _ eq_refl).
    destruct Hext as [Hle Hagree].
    destruct (appendChild_parentless (tree d2) clone (next dcur) Hfree)
      as (h3 & Happ & H3children & H3parent & H3P & H3C & _ & H3same);
      [lia|].
    rewrite Happ. intros Hloop c Hr.
    assert (Hclone2 : tree d2 clone = tree dcur clone ∧
                      kinds d2 clone = kinds dcur clone)
      by by apply Hsame.
    destruct Hclone2 as [Hclone2 Hkind2].
    rewrite Hclone2 in H3children.
    assert (H1 : (clone < next (with_tree h3 d2))%nat) by (simpl; lia).
    assert (H2 : extends d (with_tree h3 d2)).
    { split; simpl; [lia|]. intros m Hm.
      rewrite H3same by lia. destruct (Hsame m ltac:(lia)) as [-> ->].
      by apply Hagree. }
    assert (H3 : length (childNodes (tree (with_tree h3 d2) clone))
                 = length (done ++ [x])).
    { simpl. rewrite H3children, !length_app, Hlen. done. }
    assert (H4 : ∀ y, y ∈ childNodes (tree (with_tree h3 d2) clone) →
                      (clone < y)%nat ∧ (y < next (with_tree h3 d2))%nat ∧
                      parentNode (tree (with_tree h3 d2) y) = Some clone).
    { simpl. rewrite H3children. intros y [Hy|Hy]%elem_of_app.
      - destruct (Hys y Hy) as (Hcy & Hy' & Hpy). split_and!; [done|lia|].
        rewrite H3P by lia. by destruct (Hsame y Hy') as [-> _].
      - apply list_elem_of_singleton in Hy as ->.
        split_and!; [done|lia|done]. }
    assert (H5 : ∀ i x' y,
              (done ++ [x]) !! i = Some x' →
              childNodes (tree (with_tree h3 d2) clone) !! i = Some y →
              mirrors toUpperCase (tree d) (kinds d)
                (tree (with_tree h3 d2)) (kinds (with_tree h3 d2))
                (next (with_tree h3 d2)) x' y).
    { simpl. rewrite H3children. intros i x' y Hx' Hy.
      destruct (decide (i < length done)%nat) as [Hi|Hi].
      - rewrite lookup_app_l in Hx' by done.
        rewrite lookup_app_l in Hy by lia.
        destruct (Hys y) as (Hcy & Hy' & _);
          [by eapply list_elem_of_lookup_2|].
        apply (mirrors_frame _ _ _ _ _ _ _ _ _ _ _ (Hmir i x' y Hx' Hy));
          [lia| |].
        + intros m Hm1 Hm2. rewrite H3C by lia.
          by destruct (Hsame m Hm2) as [-> ->].
        + intros m Hm1 Hm2. rewrite H3P by lia.
          by destruct (Hsame m Hm2) as [-> _].
      - assert (i = length done) as ->.
        { apply lookup_lt_Some in Hx'. rewrite length_app in Hx'.
          simpl in Hx'. lia. }
        rewrite list_lookup_middle in Hx' by done.
        rewrite <- Hlen, list_lookup_middle in Hy by done.
        injection Hx' as <-. injection Hy as <-.
        apply (mirrors_frame _ _ _ _ _ _ _ _ _ _ _ Hcc); [done| |].
        + intros m Hm1 Hm2. by rewrite H3C by lia.
        + intros m Hm1 Hm2. by rewrite H3P by lia. }
    destruct (IH (done ++ [x]) (with_tree h3 d2) r dc' Hlo H1 H2 Hrest H3 H4
                H5 Hloop c Hr) as (-> & Hlt & Hkind & Hlen' & Hys' & Hmir').
    simpl in Hkind. rewrite <- app_assoc in Hlen', Hmir'. simpl in *.
    split_and!; try assumption; try reflexivity. congruence.
Qed.

Lemma cloneNode_mirrors (fuel : nat) :
  ∀ this dc r dc',
    (this < next d)%nat → extends d dc →
    cloneNode toUpperCase fuel true this dc = Some (r, dc') →
    ∀ c, r = inr c →
         mirrors toUpperCase (tree d) (kinds d) (tree dc') (kinds dc')
           (next dc') this c.
Proof.
  induction fuel as [|fuel IH]; intros this dc r dc' Hthis Hext; [done|].
  pose proof Hext as [Hle Hagree].
  destruct (Hagree this Hthis) as [Htree Hkind].
  assert (Hdeep : ∀ x,
            (∀ data, kinds d this ≠ KText data) →
            clone_kind toUpperCase (kinds d this) = x →
            clone_children (cloneNode toUpperCase fuel true) (next dc)
              (childNodes ((<[next dc := blank]> (tree dc)) this))
              {| tree := <[next dc := blank]> (tree dc);
                 kinds := <[next dc := x]> (kinds dc);
                 next := S (next dc) |} = Some (r, dc') →
            ∀ c, r = inr c →
                 mirrors toUpperCase (tree d) (kinds d) (tree dc') (kinds dc')
                   (next dc') this c).
  { intros x Hnotext Hx Hloop c Hr.
    rewrite fn_lookup_insert_ne, Htree in Hloop by lia.
    set (d1 := {| tree := <[next dc := blank]> (tree dc);
                  kinds := <[next dc := x]> (kinds dc);
                  next := S (next dc) |}) in *.
    assert (Hrec : ∀ y dc0 r0 dc0',
              (y < next d)%nat → extends d dc0 →
              cloneNode toUpperCase fuel true y dc0 = Some (r0, dc0') →
              clone_post toUpperCase true y dc0 r0 dc0' ∧
              ∀ cc, r0 = inr cc →
                    mirrors toUpperCase (tree d) (kinds d) (tree dc0')
                      (kinds dc0') (next dc0') y cc).
    { intros y dc0 r0 dc0' Hy Hext0 Hc0. split.
      - by apply (cloneNode_post toUpperCase fuel).
      - by apply (IH y dc0 r0 dc0'). }
    assert (H1 : (next dc < next d1)%nat) by (simpl; lia).
    assert (H2 : extends d d1).
    { split; simpl; [lia|]. intros m Hm.
      rewrite !fn_lookup_insert_ne by lia. by apply Hagree. }
    assert (H3 : Forall (λ y, (y < next d)%nat) (childNodes (tree d this))).
    { apply Forall_forall. intros y Hy. by apply (d_closed this). }
    assert (H4 : length (childNodes (tree d1 (next dc)))
                 = length (@nil node)).
    { simpl. by rewrite fn_lookup_insert. }
    assert (H5 : ∀ y, y ∈ childNodes (tree d1 (next dc)) →
                      (next dc < y)%nat ∧ (y < next d1)%nat ∧
                      parentNode (tree d1 y) = Some (next dc)).
    { simpl. rewrite fn_lookup_insert. by intros y ?%elem_of_nil. }
    assert (H6 : ∀ i y z,
              @nil node !! i = Some y →
              childNodes (tree d1 (next dc)) !! i = Some z →
              mirrors toUpperCase (tree d) (kinds d) (tree d1) (kinds d1)
                (next d1) y z)
      by by intros i y z ?.
    destruct (clone_children_mirrors (cloneNode toUpperCase fuel true)
                (next dc) Hrec (childNodes (tree d this)) [] d1 r dc'
                Hle H1 H2 H3 H4 H5 H6 Hloop c Hr)
      as (-> & Hlt & Hk & Hlen & Hys & Hmir).
    subst d1.
    - simpl in Hk, Hlen, Hmir. rewrite fn_lookup_insert in Hk.
      assert (Hcopied : copied_children (tree d) (kinds d) this
                        = childNodes (tree d this)).
      { unfold copied_children.
        destruct (kinds d this) as [nt|data|el|de] eqn:Hkd; try done.
        by destruct (Hnotext data). }
      constructor; rewrite ?Hcopied; try done. by rewrite Hk. }
  simpl. rewrite Hkind. unfold new_object.
  destruct (kinds d this) as [nt|data|el|de] eqn:Hkd.
  - by apply Hdeep.
  - intros [= <- <-] c [= <-]. constructor; simpl.
    + lia.
    + by rewrite fn_lookup_insert, Hkd.
    + rewrite fn_lookup_insert. unfold copied_children. by rewrite Hkd.
    + rewrite fn_lookup_insert. by intros y ?%elem_of_nil.
    + unfold copied_children. rewrite Hkd. by intros i x y ?.
  - destruct (Element.attributes el); [by apply Hdeep|].
    by intros [= <- <-] c [=].
  - by apply Hdeep.
Qed.

Lemma clone_children_returns
    (rec : node → Dom → option ((failure + node) * Dom)) (clone : node)
    (Q : node → Prop) :
  (∀ x dc r dc',
     rec x dc = Some (r, dc') → clone_post toUpperCase true x dc r dc') →
  ∀ rest dcur,
    (next d ≤ clone)%nat → (clone < next dcur)%nat → extends d dcur →
    (∀ x, x ∈ rest → ∀ dc, extends d dc →
          ∃ r dc', rec x dc = Some (r, dc') ∧ (Q x → ∃ c, r = inr c)) →
    ∃ r dc', clone_children rec clone rest dcur = Some (r, dc') ∧
             ((∀ x, x ∈ rest → Q x) → ∃ c, r = inr c).
Proof.
  intros Hpost. induction rest as [|x rest IH];
    intros dcur Hlo Hclone Hext Hrec; simpl.
  - exists (inr clone), dcur. split; [done|]. by exists clone.
  - destruct (Hrec x ltac:(left) dcur Hext) as (r & d2 & Hchild & Hq).
    rewrite Hchild.
    destruct (Hpost _ _ _ _ Hchild) as (Hnext & Hsame & Hret).
    destruct r as [e|cc].
    { exists (inl e), d2. split; [done|]. intros HQ.
      destruct Hq as [c [=]]. apply HQ. left. }
    destruct (Hret cc eq_refl) as (-> & Hfree & _).
    destruct Hext as [Hle Hagree].
    destruct (appendChild_parentless (tree d2) clone (next dcur) Hfree)
      as (h3 & Happ & _ & _ & _ & _ & _ & H3same); [lia|].
    rewrite Happ.
    destruct (IH (with_tree h3 d2)) as (r & dc' & Hloop & Hr); try assumption.
    + simpl. lia.
    + split; simpl; [lia|]. intros m Hm.
      rewrite H3same by lia. destruct (Hsame m ltac:(lia)) as [-> ->].
      by apply Hagree.
    + intros y Hy. apply Hrec. by right.
    + exists r, dc'. split; [done|]. intros HQ. apply Hr.
      intros y Hy. apply HQ. by right.
Qed.

Lemma cloneNode_returns (j : nat) (this : node) :
  shallow (tree d) j this →
  ∀ fuel dc,
    (j ≤ fuel)%nat → (this < next d)%nat → extends d dc →
    ∃ r dc', cloneNode toUpperCase fuel true this dc = Some (r, dc') ∧
             (bare (tree d) (kinds d) this → ∃ c, r = inr c).
Proof.
  induction 1 as [j this _ IH]. intros fuel dc Hfuel Hthis Hext.
  destruct fuel as [|fuel]; [lia|].
  pose proof Hext as [Hle Hagree].
  destruct (Hagree this Hthis) as [Htree Hkind].
  assert (Hdeep : ∀ x,
            (∀ data, kinds d this ≠ KText data) →
            ∃ r dc',
              clone_children (cloneNode toUpperCase fuel true) (next dc)
                (childNodes ((<[next dc := blank]> (tree dc)) this))
                {| tree := <[next dc := blank]> (tree dc);
                   kinds := <[next dc := x]> (kinds dc);
                   next := S (next dc) |} = Some (r, dc') ∧
              (bare (tree d) (kinds d) this → ∃ c, r = inr c)).
  { intros x Hnotext.
    rewrite fn_lookup_insert_ne, Htree by lia.
    assert (Hcopied : copied_children (tree d) (kinds d) this
                      = childNodes (tree d this)).
    { unfold copied_children.
      destruct (kinds d this) as [nt|data|el|de] eqn:Hkd; try done.
      by destruct (Hnotext data). }
    destruct (clone_children_returns (cloneNode toUpperCase fuel true)
                (next dc) (bare (tree d) (kinds d)))
      with (rest := childNodes (tree d this))
           (dcur := {| tree := <[next dc := blank]> (tree dc);
                       kinds := <[next dc := x]> (kinds dc);
                       next := S (next dc) |})
      as (r & dc' & Hloop & Hr).
    - intros y dc0 r0 dc0'. apply (cloneNode_post toUpperCase fuel).
    - done.
    - simpl. lia.
    - split; simpl; [lia|]. intros m Hm.
      rewrite !fn_lookup_insert_ne by lia. by apply Hagree.
    - intros y Hy dc0 Hext0. apply IH; [done|lia| |done].
      by apply (d_closed this).
    - exists r, dc'. split; [done|]. intros Hbare. apply Hr.
      inversion Hbare as [n _ Hchildren]; subst n.
      by rewrite Hcopied in Hchildren. }
  simpl. rewrite Hkind. unfold new_object.
  destruct (kinds d this) as [nt|data|el|de] eqn:Hkd.
  - by apply Hdeep.
  - eexists _, _. split; [done|]. by eexists.
  - destruct (Element.attributes el) as [|a l] eqn:Hattrs; [by apply Hdeep|].
    eexists _, _. split; [done|]. intros Hbare.
    inversion Hbare as [n Hel _]; subst n.
    specialize (Hel el Hkd). congruence.
  - by apply Hdeep.
Qed.

End Deep_copy.

Lemma extends_refl (d : Dom) : extends d d.
Proof. by split. Qed.

(** X30.  In a store whose children arrays name existing objects,
    cloneNode(true) returns a copy of the whole subtree: the clone stands
    for the receiver, it has as many children as the receiver has (none
    for a Text), they are new objects whose parent is the clone, and the
    child at each index is in the same way a copy of the child at that
    index; each copy has the class of its original with the fields of a
    new object of that class.  The call comes to an end when the recursion
    bound is at least the depth of the subtree, and it returns a clone
    when no Element that is copied has an attribute. *)
Theorem cloneNode_deep_copies_the_subtree (toUpperCase : string → string)
    (fuel : nat) (this : node) (d : Dom) :
  closed d → (this < next d)%nat →
  (∀ c d', cloneNode toUpperCase fuel true this d = Some (inr c, d') →
           mirrors toUpperCase (tree d) (kinds d) (tree d') (kinds d')
             (next d') this c) ∧
  (∀ j, shallow (tree d) j this → (j ≤ fuel)%nat →
        is_Some (cloneNode toUpperCase fuel true this d) ∧
        (bare (tree d) (kinds d) this →
         ∃ c d', cloneNode toUpperCase fuel true this d = Some (inr c, d'))).
Proof.
  intros Hclosed Hthis. split.
  - intros c d' Hclone.
    by apply (cloneNode_mirrors toUpperCase d Hclosed fuel this d (inr c) d'
                Hthis (extends_refl d) Hclone).
  - intros j Hj Hfuel.
    destruct (cloneNode_returns toUpperCase d Hclosed j this Hj fuel d Hfuel
                Hthis (extends_refl d)) as (r & d' & Hclone & Hr).
    split; [by rewrite Hclone|]. intros Hbare.
    destruct (Hr Hbare) as [c ->]. by exists c, d'.
Qed.

(** ** The concrete document again *)

Lemma demo_dom_children (m : node) :
  childNodes (tree demo_dom m)
  = match m with O => [1; 2; 3]%nat | _ => [] end.
Proof.
  destruct m as [|[|[|[|m]]]]; try (vm_compute; reflexivity).
Qed.

Lemma demo_dom_closed : closed demo_dom.
Proof.
  intros m c Hm. rewrite demo_dom_children.
  destruct m as [|m]; [|by intros ?%elem_of_nil].
  intros Hc. change (next demo_dom) with 4%nat.
  repeat (apply elem_of_cons in Hc as [->|Hc]; [lia|]).
  by apply elem_of_nil in Hc.
Qed.

Lemma demo_dom_shallow : shallow (tree demo_dom) 2 0%nat.
Proof.
  constructor. intros c Hc. constructor. intros c'.
  rewrite demo_dom_children in Hc |- *.
  repeat (apply elem_of_cons in Hc as [->|Hc]; [by intros ?%elem_of_nil|]).
  by apply elem_of_nil in Hc.
Qed.

Lemma demo_dom_bare : bare (tree demo_dom) (kinds demo_dom) 0%nat.
Proof.
  assert (Hleaf : ∀ c, c ∈ [1; 2; 3]%nat →
                       bare (tree demo_dom) (kinds demo_dom) c).
  { intros c Hc.
    repeat (apply elem_of_cons in Hc as [->|Hc];
            [constructor;
             [by intros el [= <-]
             |unfold copied_children; rewrite demo_dom_children;
              intros c'; destruct (kinds demo_dom _);
              by intros ?%elem_of_nil]|]).
    by apply elem_of_nil in Hc. }
  constructor.
  - by intros el [= <-].
  - unfold copied_children. rewrite demo_dom_children. exact Hleaf.
Qed.

Lemma outerHTML_leaves_quotes_open_witness :
  ∃ markup,
    outerHTML_of ascii_toLowerCase
      (Element.setAttribute "id" "main" (Element.new ascii_toUpperCase "div"))
      (Some "x") = Some markup ∧
    occurrences (Ascii.ascii_of_nat 34) markup = 1%nat.
Proof.
  destruct (outerHTML_leaves_quotes_open ascii_toLowerCase
              (Element.setAttribute "id" "main"
                 (Element.new ascii_toUpperCase "div")) "x")
    as (markup & Hmarkup & Hopen & _).
  - vm_compute. reflexivity.
  - vm_compute. repeat constructor.
  - exists markup. split; [exact Hmarkup|].
    apply Hopen. vm_compute. intros Hin.
    repeat (apply elem_of_cons in Hin as [Hin|Hin]; [discriminate Hin|]).
    by apply elem_of_nil in Hin.
Defined.

Lemma document_finds_appended_element_witness :
  ∃ h2,
    appendChild 4%nat
      (fst (createElement ascii_toUpperCase "p"
              (snd (new_object (KDocument None) demo_dom))))
      (tree (snd (createElement ascii_toUpperCase "p"
                    (snd (new_object (KDocument None) demo_dom)))))
    = (Ok 5%nat, h2) ∧
    lastChild h2 4%nat = Some 5%nat.
Proof.
  assert (Hdoc : kinds (snd (new_object (KDocument None) demo_dom)) 4%nat
                 = KDocument None)
    by (vm_compute; reflexivity).
  assert (Hne : 4%nat ≠ next (snd (new_object (KDocument None) demo_dom)))
    by (vm_compute; lia).
  destruct (document_finds_appended_element ascii_toUpperCase "p" 4%nat
              (snd (new_object (KDocument None) demo_dom)) Hdoc Hne)
    as (_ & _ & _ & _ & (h2 & Happ & _ & Hlast & _) & _).
  exists h2. split; [exact Happ|exact Hlast].
Defined.

Lemma cloneNode_deep_copies_the_subtree_witness :
  ∃ c d',
    cloneNode ascii_toUpperCase 2 true 0%nat demo_dom = Some (inr c, d') ∧
    mirrors ascii_toUpperCase (tree demo_dom) (kinds demo_dom) (tree d')
      (kinds d') (next d') 0%nat c.
Proof.
  assert (Hthis : (0 < next demo_dom)%nat) by (vm_compute; lia).
  destruct (cloneNode_deep_copies_the_subtree ascii_toUpperCase 2 0%nat
              demo_dom demo_dom_closed Hthis) as [Hcopy Hreturns].
  destruct (Hreturns 2%nat demo_dom_shallow (le_n 2)) as [_ Hbare].
  destruct (Hbare demo_dom_bare) as (c & d' & Hclone).
  exists c, d'. split; [exact Hclone|]. by apply Hcopy.
Defined.
